(** * Uri: a shallow embedding of [Uri.cpp] and its verified properties

    The development models the RFC 3986 parser, normalizer, resolver and
    serializer of [src/Uri.cpp].  A [std::string] is a list of bytes
    ([list ascii]); a [std::vector<std::string>] is a list of such lists,
    with [push_back] written [l ++ [x]] and [pop_back] written
    [removelast l].  Fallible member functions return an [option]: [None]
    stands for the C++ [false] result, after which the caller must discard
    the object. *)

From Stdlib Require Import Ascii String List NArith ZArith Bool Arith Lia.
Import ListNotations.

Set Warnings "-register-all".

Local Open Scope char_scope.
Local Open Scope nat_scope.
Local Open Scope list_scope.

(* ================================================================== *)
(** * Part I: the program *)
(* ================================================================== *)

(** ** Strings *)

(** A byte string; [str "abc"] writes a literal. *)
Abbreviation bytes := (list ascii) (only parsing).

Definition str (s : string) : bytes := list_ascii_of_string s.

Definition code (c : ascii) : N := N_of_ascii c.

Definition char_eqb (a b : ascii) : bool := Ascii.eqb a b.

Fixpoint bytes_eqb (a b : bytes) : bool :=
  match a, b with
  | [], [] => true
  | x :: a', y :: b' => char_eqb x y && bytes_eqb a' b'
  | _, _ => false
  end.

Fixpoint path_eqb (a b : list bytes) : bool :=
  match a, b with
  | [], [] => true
  | x :: a', y :: b' => bytes_eqb x y && path_eqb a' b'
  | _, _ => false
  end.

(** [std::string::empty]. *)
Definition empty {A} (l : list A) : bool :=
  match l with [] => true | _ => false end.

(** [std::string::find(char)]: index of the first occurrence, [None]
    for [npos]. *)
Fixpoint find (c : ascii) (s : bytes) : option nat :=
  match s with
  | [] => None
  | x :: s' => if char_eqb x c then Some 0
               else option_map S (find c s')
  end.

(** [std::string::find_first_of(set)]. *)
Fixpoint find_first_of (set : bytes) (s : bytes) : option nat :=
  match s with
  | [] => None
  | x :: s' => if existsb (char_eqb x) set then Some 0
               else option_map S (find_first_of set s')
  end.

(** [s.substr(pos)] and [s.substr(0, n)] for in-range arguments. *)
Definition substr_from (pos : nat) (s : bytes) : bytes := skipn pos s.
Definition substr_to (n : nat) (s : bytes) : bytes := firstn n s.

(** [std::tolower] on an [unsigned char], "C" locale. *)
Definition tolower (c : ascii) : ascii :=
  if (N.leb (code "A") (code c) && N.leb (code c) (code "Z"))%bool
  then ascii_of_N (code c + 32)
  else c.

Definition lowercase (s : bytes) : bytes := map tolower s.

(** ** Character sets *)

(** Modelled from the spec: the header [CharacterSet.hpp] is not part of
    the sources.  The spec describes a pure membership tester over sets
    built from explicit characters, contiguous ranges and unions of
    other sets. *)
Inductive CharacterSet : Type :=
| CsChar (c : ascii)
| CsRange (first last : ascii)
| CsUnion (members : list CharacterSet).

Fixpoint Contains (cs : CharacterSet) (c : ascii) : bool :=
  match cs with
  | CsChar x => char_eqb x c
  | CsRange lo hi => (N.leb (code lo) (code c) && N.leb (code c) (code hi))%bool
  | CsUnion members => existsb (fun m => Contains m c) members
  end.

Definition ALPHA : CharacterSet :=
  CsUnion [CsRange "a" "z"; CsRange "A" "Z"].

Definition DIGIT : CharacterSet := CsRange "0" "9".

Definition HEXDIG : CharacterSet :=
  CsUnion [CsRange "0" "9"; CsRange "A" "F"; CsRange "a" "f"].

Definition UNRESERVED : CharacterSet :=
  CsUnion [ALPHA; DIGIT; CsChar "-"; CsChar "."; CsChar "_"; CsChar "~"].

Definition SUB_DELIMS : CharacterSet :=
  CsUnion [CsChar "!"; CsChar "$"; CsChar "&"; CsChar "'"; CsChar "(";
           CsChar ")"; CsChar "*"; CsChar "+"; CsChar ","; CsChar ";";
           CsChar "="].

Definition SCHEME_NOT_FIRST : CharacterSet :=
  CsUnion [ALPHA; DIGIT; CsChar "+"; CsChar "-"; CsChar "."].

Definition PCHAR_NOT_PCT_ENCODED : CharacterSet :=
  CsUnion [UNRESERVED; SUB_DELIMS; CsChar ":"; CsChar "@"].

Definition QUERY_OR_FRAGMENT_NOT_PCT_ENCODED : CharacterSet :=
  CsUnion [PCHAR_NOT_PCT_ENCODED; CsChar "/"; CsChar "?"].

Definition QUERY_NOT_PCT_ENCODED_WITHOUT_PLUS : CharacterSet :=
  CsUnion [UNRESERVED;
           CsChar "!"; CsChar "$"; CsChar "&"; CsChar "'"; CsChar "(";
           CsChar ")"; CsChar "*"; CsChar ","; CsChar ";"; CsChar "=";
           CsChar ":"; CsChar "@"; CsChar "/"; CsChar "?"].

Definition USER_INFO_NOT_PCT_ENCODED : CharacterSet :=
  CsUnion [UNRESERVED; SUB_DELIMS; CsChar ":"].

Definition REG_NAME_NOT_PCT_ENCODED : CharacterSet :=
  CsUnion [UNRESERVED; SUB_DELIMS].

Definition IPV_FUTURE_LAST_PART : CharacterSet :=
  CsUnion [UNRESERVED; SUB_DELIMS; CsChar ":"].

(** The character sets that [Uri.cpp] hands to [EncodeElement] and
    [DecodeElement]. *)
Inductive ElementSet : Type :=
| ES_PCHAR | ES_QUERY_OR_FRAGMENT | ES_QUERY_WITHOUT_PLUS
| ES_USER_INFO | ES_REG_NAME.

Definition element_set (e : ElementSet) : CharacterSet :=
  match e with
  | ES_PCHAR => PCHAR_NOT_PCT_ENCODED
  | ES_QUERY_OR_FRAGMENT => QUERY_OR_FRAGMENT_NOT_PCT_ENCODED
  | ES_QUERY_WITHOUT_PLUS => QUERY_NOT_PCT_ENCODED_WITHOUT_PLUS
  | ES_USER_INFO => USER_INFO_NOT_PCT_ENCODED
  | ES_REG_NAME => REG_NAME_NOT_PCT_ENCODED
  end.

(** ** Percent-encoded character decoder *)

(** Modelled from the spec: [PercentEncodedCharacterDecoder.hpp] is not
    part of the sources.  The spec describes a two-step machine that
    accepts two hexadecimal digits one at a time, fails on a character
    that is not a hexadecimal digit, and yields the decoded byte once
    both digits were seen. *)
Record PercentEncodedCharacterDecoder : Type := {
  decodedCharacter : N;
  digitsLeft : nat
}.

Definition newDecoder : PercentEncodedCharacterDecoder :=
  {| decodedCharacter := 0; digitsLeft := 2 |}.

Definition hex_value (c : ascii) : option N :=
  if Contains DIGIT c then Some (code c - code "0")%N
  else if Contains (CsRange "A" "F") c then Some (code c - code "A" + 10)%N
  else if Contains (CsRange "a" "f") c then Some (code c - code "a" + 10)%N
  else None.

Definition NextEncodedCharacter (d : PercentEncodedCharacterDecoder)
  (c : ascii) : option PercentEncodedCharacterDecoder :=
  match hex_value c with
  | Some v => Some {| decodedCharacter := N.shiftl (decodedCharacter d) 4 + v;
                      digitsLeft := pred (digitsLeft d) |}
  | None => None
  end.

Definition Done (d : PercentEncodedCharacterDecoder) : bool :=
  Nat.eqb (digitsLeft d) 0.

Definition GetDecodedCharacter (d : PercentEncodedCharacterDecoder) : ascii :=
  ascii_of_N (decodedCharacter d).

(** ** Element codec *)

(** The loop of [DecodeElement]; the arguments are the loop's locals. *)
Fixpoint DecodeElement_loop (allowedCharacters : CharacterSet)
  (originalSegment : bytes) (decodingPec : bool)
  (pecDecoder : PercentEncodedCharacterDecoder) (element : bytes)
  : option bytes :=
  match originalSegment with
  | [] => Some element
  | c :: rest =>
    if decodingPec then
      match NextEncodedCharacter pecDecoder c with
      | None => None
      | Some pec' =>
        if Done pec'
        then DecodeElement_loop allowedCharacters rest false pec'
               (element ++ [GetDecodedCharacter pec'])
        else DecodeElement_loop allowedCharacters rest true pec' element
      end
    else if char_eqb c "%" then
      DecodeElement_loop allowedCharacters rest true newDecoder element
    else if Contains allowedCharacters c then
      DecodeElement_loop allowedCharacters rest false pecDecoder
        (element ++ [c])
    else None
  end.

Definition DecodeElement (element : bytes) (allowedCharacters : CharacterSet)
  : option bytes :=
  DecodeElement_loop allowedCharacters element false newDecoder [].

Definition MakeHexDigit (value : N) : ascii :=
  if (value <? 10)%N then ascii_of_N (value + code "0")
  else ascii_of_N (value - 10 + code "A").

Fixpoint EncodeElement (element : bytes) (allowedCharacters : CharacterSet)
  : bytes :=
  match element with
  | [] => []
  | c :: rest =>
    if Contains allowedCharacters c
    then c :: EncodeElement rest allowedCharacters
    else "%" :: MakeHexDigit (N.shiftr (code c) 4)
             :: MakeHexDigit (N.land (code c) 15)
             :: EncodeElement rest allowedCharacters
  end.

Definition DecodeQueryOrFragment (queryOrFragment : bytes) : option bytes :=
  DecodeElement queryOrFragment QUERY_OR_FRAGMENT_NOT_PCT_ENCODED.

(** ** IPv4 and IPv6 literal validators *)

(** An [int] as the usual compilers compute it: two's complement on 32
    bits (the source lets [octet] overflow on very long digit runs). *)
Definition wrap_int (z : Z) : Z := ((z + 2147483648) mod 4294967296 - 2147483648)%Z.

Fixpoint ValidateOctet_loop (octetString : bytes) (octet : Z) : option Z :=
  match octetString with
  | [] => Some octet
  | c :: rest =>
    if Contains DIGIT c
    then ValidateOctet_loop rest
           (wrap_int (wrap_int (octet * 10) + Z.of_N (code c - code "0")))
    else None
  end.

Definition ValidateOctet (octetString : bytes) : bool :=
  match ValidateOctet_loop octetString 0%Z with
  | Some octet => (octet <=? 255)%Z
  | None => false
  end.

(** The loop of [ValidateIpv4Address]; [None] is an early [return false],
    otherwise the final [numGroups] and [octetBuffer]. *)
Fixpoint ValidateIpv4Address_loop (address : bytes) (numGroups : nat)
  (state : nat) (octetBuffer : bytes) : option (nat * bytes) :=
  match address with
  | [] => Some (numGroups, octetBuffer)
  | c :: rest =>
    match state with
    | 0 =>
      if Contains DIGIT c
      then ValidateIpv4Address_loop rest numGroups 1 (octetBuffer ++ [c])
      else None
    | 1 =>
      if char_eqb c "." then
        if 4 <=? numGroups then None
        else if negb (ValidateOctet octetBuffer) then None
        else ValidateIpv4Address_loop rest (S numGroups) 0 []
      else if Contains DIGIT c
      then ValidateIpv4Address_loop rest numGroups 1 (octetBuffer ++ [c])
      else None
    | _ => ValidateIpv4Address_loop rest numGroups state octetBuffer
    end
  end.

Definition ValidateIpv4Address (address : bytes) : bool :=
  match ValidateIpv4Address_loop address 0 0 [] with
  | None => false
  | Some (numGroups, octetBuffer) =>
    if negb (empty octetBuffer) then
      if negb (ValidateOctet octetBuffer) then false
      else S numGroups =? 4
    else numGroups =? 4
  end.

Inductive ValidationState : Type :=
| NO_GROUPS_YET
| COLON_BUT_NO_GROUPS_YET
| AFTER_DOUBLE_COLON
| IN_GROUP_NOT_IPV4
| IN_GROUP_COULD_BE_IPV4
| COLON_AFTER_GROUP.

Definition ValidationState_eqb (a b : ValidationState) : bool :=
  match a, b with
  | NO_GROUPS_YET, NO_GROUPS_YET
  | COLON_BUT_NO_GROUPS_YET, COLON_BUT_NO_GROUPS_YET
  | AFTER_DOUBLE_COLON, AFTER_DOUBLE_COLON
  | IN_GROUP_NOT_IPV4, IN_GROUP_NOT_IPV4
  | IN_GROUP_COULD_BE_IPV4, IN_GROUP_COULD_BE_IPV4
  | COLON_AFTER_GROUP, COLON_AFTER_GROUP => true
  | _, _ => false
  end.

(** The locals of [ValidateIpv6Address]. *)
Record Ipv6Scan : Type := {
  state : ValidationState;
  numGroups : nat;
  numDigits : nat;
  doubleColonEncountered : bool;
  potentialIpv4AddressStart : nat;
  position : nat;
  ipv4AddressEncountered : bool
}.

Definition Ipv6Scan_init : Ipv6Scan :=
  {| state := NO_GROUPS_YET; numGroups := 0; numDigits := 0;
     doubleColonEncountered := false; potentialIpv4AddressStart := 0;
     position := 0; ipv4AddressEncountered := false |}.

Definition set_state (v : ValidationState) (s : Ipv6Scan) : Ipv6Scan :=
  {| state := v; numGroups := numGroups s; numDigits := numDigits s;
     doubleColonEncountered := doubleColonEncountered s;
     potentialIpv4AddressStart := potentialIpv4AddressStart s;
     position := position s;
     ipv4AddressEncountered := ipv4AddressEncountered s |}.

Definition set_numGroups (v : nat) (s : Ipv6Scan) : Ipv6Scan :=
  {| state := state s; numGroups := v; numDigits := numDigits s;
     doubleColonEncountered := doubleColonEncountered s;
     potentialIpv4AddressStart := potentialIpv4AddressStart s;
     position := position s;
     ipv4AddressEncountered := ipv4AddressEncountered s |}.

Definition set_numDigits (v : nat) (s : Ipv6Scan) : Ipv6Scan :=
  {| state := state s; numGroups := numGroups s; numDigits := v;
     doubleColonEncountered := doubleColonEncountered s;
     potentialIpv4AddressStart := potentialIpv4AddressStart s;
     position := position s;
     ipv4AddressEncountered := ipv4AddressEncountered s |}.

Definition set_doubleColonEncountered (v : bool) (s : Ipv6Scan) : Ipv6Scan :=
  {| state := state s; numGroups := numGroups s; numDigits := numDigits s;
     doubleColonEncountered := v;
     potentialIpv4AddressStart := potentialIpv4AddressStart s;
     position := position s;
     ipv4AddressEncountered := ipv4AddressEncountered s |}.

Definition set_potentialIpv4AddressStart (v : nat) (s : Ipv6Scan) : Ipv6Scan :=
  {| state := state s; numGroups := numGroups s; numDigits := numDigits s;
     doubleColonEncountered := doubleColonEncountered s;
     potentialIpv4AddressStart := v;
     position := position s;
     ipv4AddressEncountered := ipv4AddressEncountered s |}.

Definition set_position (v : nat) (s : Ipv6Scan) : Ipv6Scan :=
  {| state := state s; numGroups := numGroups s; numDigits := numDigits s;
     doubleColonEncountered := doubleColonEncountered s;
     potentialIpv4AddressStart := potentialIpv4AddressStart s;
     position := v;
     ipv4AddressEncountered := ipv4AddressEncountered s |}.

Definition set_ipv4AddressEncountered (v : bool) (s : Ipv6Scan) : Ipv6Scan :=
  {| state := state s; numGroups := numGroups s; numDigits := numDigits s;
     doubleColonEncountered := doubleColonEncountered s;
     potentialIpv4AddressStart := potentialIpv4AddressStart s;
     position := position s;
     ipv4AddressEncountered := v |}.

(** [if (++numDigits > 4) return false;] followed by a state change. *)
Definition bump_digit (next : ValidationState) (s : Ipv6Scan)
  : option Ipv6Scan :=
  let s' := set_numDigits (S (numDigits s)) s in
  if 4 <? numDigits s' then None else Some (set_state next s').

(** The [switch] of [ValidateIpv6Address] on one character; [None] is
    [return false]. *)
Definition Ipv6_switch (s : Ipv6Scan) (c : ascii) : option Ipv6Scan :=
  match state s with
  | NO_GROUPS_YET =>
    if char_eqb c ":" then Some (set_state COLON_BUT_NO_GROUPS_YET s)
    else if Contains DIGIT c then
      Some (set_state IN_GROUP_COULD_BE_IPV4
             (set_numDigits 1 (set_potentialIpv4AddressStart (position s) s)))
    else if Contains HEXDIG c then
      Some (set_state IN_GROUP_NOT_IPV4 (set_numDigits 1 s))
    else None
  | COLON_BUT_NO_GROUPS_YET =>
    if char_eqb c ":" then
      Some (set_state AFTER_DOUBLE_COLON (set_doubleColonEncountered true s))
    else None
  | AFTER_DOUBLE_COLON =>
    if Contains DIGIT c then
      bump_digit IN_GROUP_COULD_BE_IPV4
        (set_potentialIpv4AddressStart (position s) s)
    else if Contains HEXDIG c then bump_digit IN_GROUP_NOT_IPV4 s
    else None
  | IN_GROUP_NOT_IPV4 =>
    if char_eqb c ":" then
      Some (set_state COLON_AFTER_GROUP
             (set_numGroups (S (numGroups s)) (set_numDigits 0 s)))
    else if Contains HEXDIG c then bump_digit IN_GROUP_NOT_IPV4 s
    else None
  | IN_GROUP_COULD_BE_IPV4 =>
    if char_eqb c ":" then
      Some (set_state COLON_AFTER_GROUP
             (set_numGroups (S (numGroups s)) (set_numDigits 0 s)))
    else if char_eqb c "." then Some (set_ipv4AddressEncountered true s)
    else if Contains DIGIT c then bump_digit IN_GROUP_COULD_BE_IPV4 s
    else if Contains HEXDIG c then bump_digit IN_GROUP_NOT_IPV4 s
    else None
  | COLON_AFTER_GROUP =>
    if char_eqb c ":" then
      if doubleColonEncountered s then None
      else Some (set_state AFTER_DOUBLE_COLON
                  (set_doubleColonEncountered true s))
    else if Contains DIGIT c then
      Some (set_state IN_GROUP_COULD_BE_IPV4
             (set_numDigits (S (numDigits s))
               (set_potentialIpv4AddressStart (position s) s)))
    else if Contains HEXDIG c then
      Some (set_state IN_GROUP_NOT_IPV4 (set_numDigits (S (numDigits s)) s))
    else None
  end.

(** The [for] loop: after the [switch], leave the loop when an embedded
    IPv4 address was met, otherwise advance [position]. *)
Fixpoint ValidateIpv6Address_loop (address : bytes) (s : Ipv6Scan)
  : option Ipv6Scan :=
  match address with
  | [] => Some s
  | c :: rest =>
    match Ipv6_switch s c with
    | None => None
    | Some s' =>
      if ipv4AddressEncountered s' then Some s'
      else ValidateIpv6Address_loop rest (set_position (S (position s')) s')
    end
  end.

Definition ValidateIpv6Address (address : bytes) : bool :=
  match ValidateIpv6Address_loop address Ipv6Scan_init with
  | None => false
  | Some s =>
    (* count trailing group *)
    let s1 :=
      if (ValidationState_eqb (state s) IN_GROUP_NOT_IPV4
          || ValidationState_eqb (state s) IN_GROUP_COULD_BE_IPV4)%bool
      then set_numGroups (S (numGroups s)) s else s in
    (* trailing single colon *)
    if ((position s1 =? length address)
        && (ValidationState_eqb (state s1) COLON_BUT_NO_GROUPS_YET
            || ValidationState_eqb (state s1) COLON_AFTER_GROUP))%bool
    then false
    else
      let after_ipv4 :=
        if ipv4AddressEncountered s1 then
          if negb (ValidateIpv4Address
                     (substr_from (potentialIpv4AddressStart s1) address))
          then None
          else Some (set_numGroups (numGroups s1 + 2) s1)
        else Some s1 in
      match after_ipv4 with
      | None => false
      | Some s2 =>
        if doubleColonEncountered s2 then numGroups s2 <=? 7
        else numGroups s2 =? 8
      end
  end.

(** The value of [numGroups] that the final comparison of
    [ValidateIpv6Address] looks at, when the scan gets that far. *)
Definition Ipv6_final_numGroups (address : bytes) : option nat :=
  match ValidateIpv6Address_loop address Ipv6Scan_init with
  | None => None
  | Some s =>
    let g :=
      if (ValidationState_eqb (state s) IN_GROUP_NOT_IPV4
          || ValidationState_eqb (state s) IN_GROUP_COULD_BE_IPV4)%bool
      then S (numGroups s) else numGroups s in
    Some (if ipv4AddressEncountered s then g + 2 else g)
  end.

(** ** Scheme check *)

(** [FailsMatch] drives a stateful strategy; the strategy's captured
    state is threaded explicitly. *)
Fixpoint FailsMatch {St : Type} (candidate : bytes)
  (stillPassing : St -> ascii -> bool -> bool * St) (st : St) : bool :=
  match candidate with
  | [] => negb (fst (stillPassing st " " true))
  | c :: rest =>
    let (ok, st') := stillPassing st c false in
    if ok then FailsMatch rest stillPassing st' else true
  end.

(** The closure returned by [LegalSchemeCheckStrategy]; its state is the
    shared flag [isFirstCharacter], initially [true]. *)
Definition LegalSchemeCheckStrategy (isFirstCharacter : bool) (c : ascii)
  (end_ : bool) : bool * bool :=
  if end_ then (negb isFirstCharacter, isFirstCharacter)
  else
    let check :=
      if isFirstCharacter then Contains ALPHA c
      else Contains SCHEME_NOT_FIRST c in
    (check, false).

(** ** The Uri value *)

(** [Uri::Impl].  [port] is a [uint16_t], a number in 0..65535. *)
Record Uri : Type := {
  scheme : bytes;
  userInfo : bytes;
  host : bytes;
  hasPort : bool;
  port : Z;
  path : list bytes;
  hasQuery : bool;
  query : bytes;
  hasFragment : bool;
  fragment : bytes
}.

(** A default-constructed [Uri]. *)
Definition Uri_new : Uri :=
  {| scheme := []; userInfo := []; host := []; hasPort := false;
     port := 0%Z; path := []; hasQuery := false; query := [];
     hasFragment := false; fragment := [] |}.

Definition with_scheme (v : bytes) (u : Uri) : Uri :=
  {| scheme := v; userInfo := userInfo u; host := host u;
     hasPort := hasPort u; port := port u; path := path u;
     hasQuery := hasQuery u; query := query u;
     hasFragment := hasFragment u; fragment := fragment u |}.

Definition with_userInfo (v : bytes) (u : Uri) : Uri :=
  {| scheme := scheme u; userInfo := v; host := host u;
     hasPort := hasPort u; port := port u; path := path u;
     hasQuery := hasQuery u; query := query u;
     hasFragment := hasFragment u; fragment := fragment u |}.

Definition with_host (v : bytes) (u : Uri) : Uri :=
  {| scheme := scheme u; userInfo := userInfo u; host := v;
     hasPort := hasPort u; port := port u; path := path u;
     hasQuery := hasQuery u; query := query u;
     hasFragment := hasFragment u; fragment := fragment u |}.

Definition with_hasPort (v : bool) (u : Uri) : Uri :=
  {| scheme := scheme u; userInfo := userInfo u; host := host u;
     hasPort := v; port := port u; path := path u;
     hasQuery := hasQuery u; query := query u;
     hasFragment := hasFragment u; fragment := fragment u |}.

Definition with_port (v : Z) (u : Uri) : Uri :=
  {| scheme := scheme u; userInfo := userInfo u; host := host u;
     hasPort := hasPort u; port := v; path := path u;
     hasQuery := hasQuery u; query := query u;
     hasFragment := hasFragment u; fragment := fragment u |}.

Definition with_path (v : list bytes) (u : Uri) : Uri :=
  {| scheme := scheme u; userInfo := userInfo u; host := host u;
     hasPort := hasPort u; port := port u; path := v;
     hasQuery := hasQuery u; query := query u;
     hasFragment := hasFragment u; fragment := fragment u |}.

Definition with_hasQuery (v : bool) (u : Uri) : Uri :=
  {| scheme := scheme u; userInfo := userInfo u; host := host u;
     hasPort := hasPort u; port := port u; path := path u;
     hasQuery := v; query := query u;
     hasFragment := hasFragment u; fragment := fragment u |}.

Definition with_query (v : bytes) (u : Uri) : Uri :=
  {| scheme := scheme u; userInfo := userInfo u; host := host u;
     hasPort := hasPort u; port := port u; path := path u;
     hasQuery := hasQuery u; query := v;
     hasFragment := hasFragment u; fragment := fragment u |}.

Definition with_hasFragment (v : bool) (u : Uri) : Uri :=
  {| scheme := scheme u; userInfo := userInfo u; host := host u;
     hasPort := hasPort u; port := port u; path := path u;
     hasQuery := hasQuery u; query := query u;
     hasFragment := v; fragment := fragment u |}.

Definition with_fragment (v : bytes) (u : Uri) : Uri :=
  {| scheme := scheme u; userInfo := userInfo u; host := host u;
     hasPort := hasPort u; port := port u; path := path u;
     hasQuery := hasQuery u; query := query u;
     hasFragment := hasFragment u; fragment := v |}.

Definition HasAuthority (u : Uri) : bool :=
  (negb (empty (host u)) || negb (empty (userInfo u)) || hasPort u)%bool.

(** [IsPathAbsolute], on the path itself. *)
Definition IsPathAbsolute (p : list bytes) : bool :=
  match p with
  | [] => false
  | first :: _ => bytes_eqb first []
  end.

(** ** Path parsing *)

(** The [for(;;)] loop of [ParsePath].  It runs at most once per
    character of [pathString], plus once; [fuel] bounds it. *)
Fixpoint ParsePath_split (fuel : nat) (pathString : bytes)
  (segments : list bytes) : list bytes :=
  match fuel with
  | 0 => segments
  | S fuel' =>
    match find "/" pathString with
    | None => segments ++ [pathString]
    | Some pathDelimiter =>
      ParsePath_split fuel' (substr_from (pathDelimiter + 1) pathString)
        (segments ++ [substr_to pathDelimiter pathString])
    end
  end.

(** The last loop of [ParsePath]: decode every segment in place. *)
Fixpoint ParsePath_decode (segments : list bytes) : option (list bytes) :=
  match segments with
  | [] => Some []
  | segment :: rest =>
    match DecodeElement segment PCHAR_NOT_PCT_ENCODED with
    | None => None
    | Some decoded =>
      match ParsePath_decode rest with
      | None => None
      | Some rest' => Some (decoded :: rest')
      end
    end
  end.

Definition ParsePath (pathString : bytes) (u : Uri) : option Uri :=
  let segments :=
    if bytes_eqb pathString (str "/") then [[]]
    else if negb (empty pathString)
    then ParsePath_split (S (length pathString)) pathString []
    else [] in
  match ParsePath_decode segments with
  | None => None
  | Some p => Some (with_path p u)
  end.

(** ** Authority parsing *)

Inductive HostParsingState : Type :=
| FIRST_CHARACTER
| NOT_IP_LITERAL
| PERCENT_ENCODED_CHARACTER
| IP_LITERAL
| IPV6_ADDRESS
| IPV_FUTURE_NUMBER
| IPV_FUTURE_BODY
| GARBAGE_CHECK
| PORT.

(** The locals of the host-and-port loop of [ParseAuthority], together
    with the [host] member it fills. *)
Record HostScan : Type := {
  hostParsingState : HostParsingState;
  scanHost : bytes;
  pecDecoder : PercentEncodedCharacterDecoder;
  hostIsRegName : bool;
  portString : bytes
}.

Definition HostScan_init : HostScan :=
  {| hostParsingState := FIRST_CHARACTER; scanHost := [];
     pecDecoder := newDecoder; hostIsRegName := false; portString := [] |}.

Definition set_hostParsingState (v : HostParsingState) (s : HostScan) :=
  {| hostParsingState := v; scanHost := scanHost s;
     pecDecoder := pecDecoder s; hostIsRegName := hostIsRegName s;
     portString := portString s |}.

Definition push_host (c : ascii) (s : HostScan) :=
  {| hostParsingState := hostParsingState s; scanHost := scanHost s ++ [c];
     pecDecoder := pecDecoder s; hostIsRegName := hostIsRegName s;
     portString := portString s |}.

Definition set_pecDecoder (v : PercentEncodedCharacterDecoder) (s : HostScan) :=
  {| hostParsingState := hostParsingState s; scanHost := scanHost s;
     pecDecoder := v; hostIsRegName := hostIsRegName s;
     portString := portString s |}.

Definition set_hostIsRegName (v : bool) (s : HostScan) :=
  {| hostParsingState := hostParsingState s; scanHost := scanHost s;
     pecDecoder := pecDecoder s; hostIsRegName := v;
     portString := portString s |}.

Definition push_port (c : ascii) (s : HostScan) :=
  {| hostParsingState := hostParsingState s; scanHost := scanHost s;
     pecDecoder := pecDecoder s; hostIsRegName := hostIsRegName s;
     portString := portString s ++ [c] |}.

(** [case NOT_IP_LITERAL], also reached by falling through from
    [case FIRST_CHARACTER]. *)
Definition case_NOT_IP_LITERAL (s : HostScan) (c : ascii) : option HostScan :=
  if char_eqb c "%" then
    Some (set_hostParsingState PERCENT_ENCODED_CHARACTER
           (set_pecDecoder newDecoder s))
  else if char_eqb c ":" then Some (set_hostParsingState PORT s)
  else if Contains REG_NAME_NOT_PCT_ENCODED c then Some (push_host c s)
  else None.

(** [case IPV6_ADDRESS], also reached by falling through from
    [case IP_LITERAL]. *)
Definition case_IPV6_ADDRESS (s : HostScan) (c : ascii) : option HostScan :=
  if char_eqb c "]" then
    if negb (ValidateIpv6Address (scanHost s)) then None
    else Some (set_hostParsingState GARBAGE_CHECK s)
  else Some (push_host c s).

Definition Host_switch (s : HostScan) (c : ascii) : option HostScan :=
  match hostParsingState s with
  | FIRST_CHARACTER =>
    if char_eqb c "[" then Some (set_hostParsingState IP_LITERAL s)
    else case_NOT_IP_LITERAL
           (set_hostIsRegName true (set_hostParsingState NOT_IP_LITERAL s)) c
  | NOT_IP_LITERAL => case_NOT_IP_LITERAL s c
  | PERCENT_ENCODED_CHARACTER =>
    match NextEncodedCharacter (pecDecoder s) c with
    | None => None
    | Some pec' =>
      let s' := set_pecDecoder pec' s in
      if Done pec'
      then Some (push_host (GetDecodedCharacter pec')
                  (set_hostParsingState NOT_IP_LITERAL s'))
      else Some s'
    end
  | IP_LITERAL =>
    if char_eqb c "v"
    then Some (set_hostParsingState IPV_FUTURE_NUMBER (push_host c s))
    else case_IPV6_ADDRESS (set_hostParsingState IPV6_ADDRESS s) c
  | IPV6_ADDRESS => case_IPV6_ADDRESS s c
  | IPV_FUTURE_NUMBER =>
    if char_eqb c "."
    then Some (push_host c (set_hostParsingState IPV_FUTURE_BODY s))
    else if negb (Contains HEXDIG c) then None
    else Some (push_host c s)
  | IPV_FUTURE_BODY =>
    if char_eqb c "]" then Some (set_hostParsingState GARBAGE_CHECK s)
    else if negb (Contains IPV_FUTURE_LAST_PART c) then None
    else Some (push_host c s)
  | GARBAGE_CHECK =>
    if char_eqb c ":" then Some (set_hostParsingState PORT s) else None
  | PORT => Some (push_port c s)
  end.

Fixpoint Host_loop (hostPortString : bytes) (s : HostScan) : option HostScan :=
  match hostPortString with
  | [] => Some s
  | c :: rest =>
    match Host_switch s c with
    | None => None
    | Some s' => Host_loop rest s'
    end
  end.

(** [std::stoi(str)] (base 10): skip leading white space, read an
    optional sign and the longest run of decimal digits, ignore what
    follows.  [None] stands for a thrown exception: [invalid_argument]
    when there is no digit, [out_of_range] when the number does not fit
    an [int]. *)
Definition isspace (c : ascii) : bool :=
  (char_eqb c " " || (N.leb 9 (code c) && N.leb (code c) 13))%bool.

Fixpoint skip_spaces (s : bytes) : bytes :=
  match s with
  | c :: rest => if isspace c then skip_spaces rest else s
  | [] => []
  end.

Fixpoint read_digits (s : bytes) (acc : option Z) : option Z :=
  match s with
  | c :: rest =>
    if Contains DIGIT c
    then read_digits rest
           (Some (match acc with Some a => a | None => 0 end * 10
                  + Z.of_N (code c - code "0"))%Z)
    else acc
  | [] => acc
  end.

Definition stoi (s : bytes) : option Z :=
  let s1 := skip_spaces s in
  let '(negative, s2) :=
    match s1 with
    | c :: rest =>
      if char_eqb c "-" then (true, rest)
      else if char_eqb c "+" then (false, rest)
      else (false, s1)
    | [] => (false, s1)
    end in
  match read_digits s2 None with
  | None => None
  | Some magnitude =>
    let v := if negative then (- magnitude)%Z else magnitude in
    if ((v <? -2147483648) || (2147483647 <? v))%Z%bool then None
    else Some v
  end.

(** The second half of [ParseAuthority]: host and port, from
    [hostPortString]. *)
Definition ParseAuthority_hostPort (hostPortString : bytes) (u : Uri)
  : option Uri :=
  match Host_loop hostPortString HostScan_init with
  | None => None
  | Some s =>
    match hostParsingState s with
    | FIRST_CHARACTER | NOT_IP_LITERAL | GARBAGE_CHECK | PORT =>
      let parsedHost :=
        if hostIsRegName s then lowercase (scanHost s) else scanHost s in
      let u' := with_host parsedHost u in
      if empty (portString s) then Some (with_hasPort false u')
      else
        match stoi (portString s) with
        | None => None
        | Some portAsInt =>
          if ((portAsInt <? 0) || (65535 <? portAsInt))%Z%bool then None
          else Some (with_hasPort true (with_port portAsInt u'))
        end
    | _ => None (* truncated or ended early *)
    end
  end.

(** The first half: the user info, up to the first ['@']. *)
Definition ParseAuthority (authorityString : bytes) (u : Uri) : option Uri :=
  let userInfoDelimiter := find "@" authorityString in
  let u1 := with_userInfo [] u in
  match userInfoDelimiter with
  | None => ParseAuthority_hostPort authorityString u1
  | Some d =>
    match DecodeElement (substr_to d authorityString)
            USER_INFO_NOT_PCT_ENCODED with
    | None => None
    | Some decoded =>
      ParseAuthority_hostPort (substr_from (d + 1) authorityString)
        (with_userInfo decoded u1)
    end
  end.

(** ** Scheme, authority split, query and fragment *)

(** The local [schemeEnd] of [ParseScheme]: the first [':'] before the
    first ['/'] of the string, if any. *)
Definition schemeEnd (uriString : bytes) : option nat :=
  let authorityOrPathDelimiterStart :=
    match find "/" uriString with
    | None => length uriString
    | Some i => i
    end in
  find ":" (substr_to authorityOrPathDelimiterStart uriString).

(** Returns the updated value and [rest]. *)
Definition ParseScheme (uriString : bytes) (u : Uri) : option (Uri * bytes) :=
  match schemeEnd uriString with
  | None => Some (with_scheme [] u, uriString)
  | Some schemeEnd =>
    let candidate := substr_to schemeEnd uriString in
    if FailsMatch candidate LegalSchemeCheckStrategy true then None
    else Some (with_scheme (lowercase candidate) u,
               substr_from (schemeEnd + 1) uriString)
  end.

(** Returns the updated value and [pathString]. *)
Definition SplitAuthorityFromPathAndParseIt (authorityAndPathString : bytes)
  (u : Uri) : option (Uri * bytes) :=
  if bytes_eqb (substr_to 2 authorityAndPathString) (str "//") then
    let stripped := substr_from 2 authorityAndPathString in
    let authorityEnd :=
      match find "/" stripped with
      | None => length stripped
      | Some i => i
      end in
    let pathString := substr_from authorityEnd stripped in
    let authorityString := substr_to authorityEnd stripped in
    match ParseAuthority authorityString u with
    | None => None
    | Some u' => Some (u', pathString)
    end
  else
    Some (with_hasPort false (with_host [] (with_userInfo [] u)),
          authorityAndPathString).

Definition SetDefaultPathIfAuthorityPresentAndPathEmpty (u : Uri) : Uri :=
  if (negb (empty (host u)) && empty (path u))%bool
  then with_path (path u ++ [[]]) u
  else u.

Definition ParseQuery (queryWithDelimiter : bytes) (u : Uri) : option Uri :=
  let has := negb (empty queryWithDelimiter) in
  let raw := if has then substr_from 1 queryWithDelimiter else [] in
  match DecodeQueryOrFragment raw with
  | None => None
  | Some decoded => Some (with_query decoded (with_hasQuery has u))
  end.

(** Returns the updated value and [rest]. *)
Definition ParseFragment (queryAndOrFragment : bytes) (u : Uri)
  : option (Uri * bytes) :=
  let '(has, raw, rest) :=
    match find "#" queryAndOrFragment with
    | None => (false, [], queryAndOrFragment)
    | Some fragmentDelimiter =>
      (true, substr_from (fragmentDelimiter + 1) queryAndOrFragment,
       substr_to fragmentDelimiter queryAndOrFragment)
    end in
  match DecodeQueryOrFragment raw with
  | None => None
  | Some decoded =>
    Some (with_fragment decoded (with_hasFragment has u), rest)
  end.

(** [Uri::ParseFromString], run on an object in state [u]. *)
Definition ParseFromString (uriString : bytes) (u : Uri) : option Uri :=
  match ParseScheme uriString u with
  | None => None
  | Some (u1, rest) =>
    let authorityAndPathString :=
      match find_first_of (str "?#") rest with
      | None => rest
      | Some pathEnd => substr_to pathEnd rest
      end in
    let queryAndOrFragment :=
      substr_from (length authorityAndPathString) rest in
    match SplitAuthorityFromPathAndParseIt authorityAndPathString u1 with
    | None => None
    | Some (u2, pathString) =>
      match ParsePath pathString u2 with
      | None => None
      | Some u3 =>
        let u4 := SetDefaultPathIfAuthorityPresentAndPathEmpty u3 in
        match ParseFragment queryAndOrFragment u4 with
        | None => None
        | Some (u5, rest') => ParseQuery rest' u5
        end
      end
    end
  end.

(** Parsing into a freshly constructed [Uri]. *)
Definition parse (uriString : string) : option Uri :=
  ParseFromString (str uriString) Uri_new.

(** ** Path normalization *)

(** [CanNavigatePathUpOneLevel], on the path rebuilt so far. *)
Definition CanNavigatePathUpOneLevel (p : list bytes) : bool :=
  (negb (IsPathAbsolute p) || (1 <? length p))%bool.

(** One iteration of the loop of [NormalizePath]: the state is the path
    rebuilt so far and the flag [atDirectoryLevel]. *)
Definition NormalizePath_step (st : list bytes * bool) (segment : bytes)
  : list bytes * bool :=
  let (p, atDirectoryLevel) := st in
  if bytes_eqb segment (str ".") then (p, true)
  else if bytes_eqb segment (str "..") then
    ((if negb (empty p)
      then if CanNavigatePathUpOneLevel p then removelast p else p
      else p),
     true)
  else
    ((if (negb atDirectoryLevel || negb (empty segment))%bool
      then p ++ [segment] else p),
     empty segment).

Definition NormalizePath_loop (oldPath : list bytes)
  (st : list bytes * bool) : list bytes * bool :=
  fold_left NormalizePath_step oldPath st.

(** What [NormalizePath] does after the loop: in a directory-level
    context, mark it by a trailing empty segment. *)
Definition NormalizePath_finish (st : list bytes * bool) : list bytes :=
  let (p, atDirectoryLevel) := st in
  if (atDirectoryLevel && (negb (empty p) && negb (empty (last p []))))%bool
  then p ++ [[]]
  else p.

(** [NormalizePath], on the path itself. *)
Definition NormalizePath_path (oldPath : list bytes) : list bytes :=
  NormalizePath_finish (NormalizePath_loop oldPath ([], false)).

Definition NormalizePath (u : Uri) : Uri :=
  with_path (NormalizePath_path (path u)) u.

(** ** Reference resolution *)

Definition CopyScheme (other : Uri) (u : Uri) : Uri :=
  with_scheme (scheme other) u.

Definition CopyAuthority (other : Uri) (u : Uri) : Uri :=
  with_port (port other)
    (with_hasPort (hasPort other)
      (with_userInfo (userInfo other)
        (with_host (host other) u))).

Definition CopyPath (other : Uri) (u : Uri) : Uri :=
  with_path (path other) u.

Definition CopyAndNormalizePath (other : Uri) (u : Uri) : Uri :=
  NormalizePath (CopyPath other u).

Definition CopyQuery (other : Uri) (u : Uri) : Uri :=
  with_query (query other) (with_hasQuery (hasQuery other) u).

Definition CopyFragment (other : Uri) (u : Uri) : Uri :=
  with_fragment (fragment other) (with_hasFragment (hasFragment other) u).

(** [base.Resolve(relativeReference)]. *)
Definition Resolve (base relativeReference : Uri) : Uri :=
  let target := Uri_new in
  let target :=
    if negb (empty (scheme relativeReference)) then
      CopyQuery relativeReference
        (CopyAndNormalizePath relativeReference
          (CopyAuthority relativeReference
            (CopyScheme relativeReference target)))
    else
      let target :=
        if negb (empty (host relativeReference)) then
          CopyQuery relativeReference
            (CopyAndNormalizePath relativeReference
              (CopyAuthority relativeReference target))
        else
          let target :=
            if empty (path relativeReference) then
              let target := with_path (path base) target in
              if negb (empty (query relativeReference))
              then CopyQuery relativeReference target
              else CopyQuery base target
            else
              let target :=
                if IsPathAbsolute (path relativeReference)
                then CopyAndNormalizePath relativeReference target
                else
                  let target := CopyPath base target in
                  let target :=
                    if 1 <? length (path target)
                    then with_path (removelast (path target)) target
                    else target in
                  let target :=
                    with_path (path target ++ path relativeReference)
                      target in
                  NormalizePath target in
              CopyQuery relativeReference target in
          CopyAuthority base target in
      CopyScheme base target in
  CopyFragment relativeReference target.

(** ** Mutators and equality *)

Definition SetPort (p : Z) (u : Uri) : Uri := with_hasPort true (with_port p u).
Definition ClearPort (u : Uri) : Uri := with_hasPort false u.
Definition SetQuery (q : bytes) (u : Uri) : Uri :=
  with_hasQuery true (with_query q u).
Definition ClearQuery (u : Uri) : Uri := with_hasQuery false u.
Definition SetFragment (f : bytes) (u : Uri) : Uri :=
  with_hasFragment true (with_fragment f u).
Definition ClearFragment (u : Uri) : Uri := with_hasFragment false u.

(** [Uri::operator==]. *)
Definition Uri_eqb (a b : Uri) : bool :=
  (bytes_eqb (scheme a) (scheme b)
   && bytes_eqb (userInfo a) (userInfo b)
   && bytes_eqb (host a) (host b)
   && ((negb (hasPort a) && negb (hasPort b))
       || ((hasPort a && hasPort b) && (port a =? port b)%Z))
   && path_eqb (path a) (path b)
   && ((negb (hasQuery a) && negb (hasQuery b))
       || ((hasQuery a && hasQuery b) && bytes_eqb (query a) (query b)))
   && ((negb (hasFragment a) && negb (hasFragment b))
       || ((hasFragment a && hasFragment b)
           && bytes_eqb (fragment a) (fragment b))))%bool.

(** ** Serialization *)

(** [buffer << port] for a [uint16_t]: the decimal digits, most
    significant first, no leading zero.  Five digits suffice. *)
Fixpoint decimal_digits (fuel : nat) (n : N) (acc : bytes) : bytes :=
  match fuel with
  | 0 => acc
  | S fuel' =>
    let acc' := ascii_of_N (code "0" + n mod 10) :: acc in
    if (n / 10 =? 0)%N then acc'
    else decimal_digits fuel' (n / 10) acc'
  end.

Definition print_port (p : Z) : bytes := decimal_digits 5 (Z.to_N p) [].

(** The loop of [GenerateString] over the path segments; [i] counts the
    segments already written and [size] is [path.size()]. *)
Fixpoint GenerateString_path (segments : list bytes) (i size : nat) : bytes :=
  match segments with
  | [] => []
  | segment :: rest =>
    EncodeElement segment PCHAR_NOT_PCT_ENCODED
      ++ (if i + 1 <? size then ["/"] else [])
      ++ GenerateString_path rest (S i) size
  end.

Definition GenerateString (u : Uri) : bytes :=
  (if negb (empty (scheme u)) then scheme u ++ [":"] else [])
  ++ (if HasAuthority u then
        str "//"
        ++ (if negb (empty (userInfo u))
            then EncodeElement (userInfo u) USER_INFO_NOT_PCT_ENCODED ++ ["@"]
            else [])
        ++ (if negb (empty (host u)) then
              if ValidateIpv6Address (host u)
              then ["["] ++ lowercase (host u) ++ ["]"]
              else EncodeElement (host u) REG_NAME_NOT_PCT_ENCODED
            else [])
        ++ (if hasPort u then [":"] ++ print_port (port u) else [])
      else [])
  ++ (if (IsPathAbsolute (path u) && (length (path u) =? 1))%bool
      then ["/"] else [])
  ++ GenerateString_path (path u) 0 (length (path u))
  ++ (if hasQuery u
      then ["?"] ++ EncodeElement (query u) QUERY_NOT_PCT_ENCODED_WITHOUT_PLUS
      else [])
  ++ (if hasFragment u
      then ["#"] ++ EncodeElement (fragment u) QUERY_OR_FRAGMENT_NOT_PCT_ENCODED
      else []).

(** The string of a byte list, for reading results. *)
Definition show (b : bytes) : string := string_of_list_ascii b.

(** ** Reference definitions used to state the properties *)

(** Every byte value. *)
Definition all_ascii : list ascii := map ascii_of_nat (seq 0 256).

(** The upper-case hexadecimal digit of a nibble. *)
Definition upper_hex_digit (nibble : N) : ascii :=
  nth (N.to_nat nibble) (str "0123456789ABCDEF") "0".

(** Percent-encoding as the specification words it: a byte of the
    allowed set passes through, any other byte becomes ['%'] followed by
    two upper-case hexadecimal digits, high nibble first. *)
Definition Encode_spec (element : bytes) (allowedCharacters : CharacterSet)
  : bytes :=
  flat_map
    (fun c =>
       if Contains allowedCharacters c then [c]
       else ["%"; upper_hex_digit (code c / 16);
             upper_hex_digit (code c mod 16)])
    element.

(** Parsing a text that is known to parse. *)
Definition parsed (uriString : string) : Uri :=
  match parse uriString with
  | Some u => u
  | None => Uri_new
  end.

(** Resolving the reference text [r] against the base text [b] and
    writing the result out. *)
Definition resolve_text (b r : string) : option string :=
  match parse b, parse r with
  | Some base, Some reference =>
    Some (show (GenerateString (Resolve base reference)))
  | _, _ => None
  end.

(** The path rebuilt by [NormalizePath] once the segments [prefix] have
    gone through its loop. *)
Definition emitted (prefix : list bytes) : list bytes :=
  fst (NormalizePath_loop prefix ([], false)).

(** A segment that is neither ["."] nor [".."]. *)
Definition plain (segment : bytes) : bool :=
  (negb (bytes_eqb segment (str ".")) && negb (bytes_eqb segment (str "..")))%bool.

(** The path is non-empty and its last segment is empty. *)
Definition ends_in_empty (p : list bytes) : bool :=
  match p with
  | [] => false
  | _ => empty (last p [])
  end.

(** No two neighbouring segments are both empty. *)
Fixpoint no_adjacent_empty (p : list bytes) : Prop :=
  match p with
  | a :: (b :: _) as t => ~ (a = [] /\ b = []) /\ no_adjacent_empty t
  | _ => True
  end.

(** A path on which [NormalizePath] has nothing left to do. *)
Definition normal_path (p : list bytes) : Prop :=
  Forall (fun s => plain s = true) p /\ no_adjacent_empty p.

(** The authority parse of [authorityString] on a fresh value: the
    presence flag and number of the port, when the parse succeeds. *)
Definition authority_port (authorityString : string) : option (bool * Z) :=
  option_map (fun u => (hasPort u, port u))
    (ParseAuthority (str authorityString) Uri_new).

(** Writing the parse of [uriString] out, reading it back into a fresh
    value and comparing with [operator==]: [None] when [uriString] does
    not parse, [Some None] when the written form does not. *)
Definition reparse_equal (uriString : string) : option (option bool) :=
  match parse uriString with
  | None => None
  | Some u =>
    Some (option_map (fun u' => Uri_eqb u' u)
            (ParseFromString (GenerateString u) Uri_new))
  end.

(** ** Notions used in the proofs *)

(** Decoding the three characters written for [c] yields [c]. *)
Definition triplet_decodes (c : ascii) : bool :=
  match NextEncodedCharacter newDecoder (MakeHexDigit (N.shiftr (code c) 4)) with
  | None => false
  | Some d1 =>
    negb (Done d1)
    && match NextEncodedCharacter d1 (MakeHexDigit (N.land (code c) 15)) with
       | None => false
       | Some d2 => Done d2 && char_eqb (GetDecodedCharacter d2) c
       end
  end.

(** For a relative path: the rebuilt path stays relative, and it is
    empty only while the directory-level flag is set. *)
Definition relative_state (st : list bytes * bool) : Prop :=
  IsPathAbsolute (fst st) = false /\ (fst st = [] -> snd st = true).

(** What the first pass maintains: the rebuilt path is normal, and
    outside a directory-level context it does not end in an empty
    segment. *)
Definition normal_state (st : list bytes * bool) : Prop :=
  normal_path (fst st) /\ (snd st = false -> ends_in_empty (fst st) = false).

(** No character of [s] is [c]. *)
Definition avoids (c : ascii) (s : bytes) : Prop :=
  Forall (fun x => char_eqb x c = false) s.

(** The characters [EncodeElement] can write for the set [S]. *)
Definition encoded_char (S : CharacterSet) (x : ascii) : bool :=
  (Contains S x || char_eqb x "%" || Contains HEXDIG x)%bool.

(** [c] is not among the characters written for [S]. *)
Definition never_written (S : CharacterSet) (c : ascii) : bool :=
  forallb (fun x => implb (encoded_char S x) (negb (char_eqb x c))) all_ascii.

(** A decimal digit. *)
Definition is_digit (x : ascii) : bool := Contains DIGIT x.

(** The number [read_digits] has read so far. *)
Definition acc_value (a : option Z) : Z :=
  match a with Some v => v | None => 0%Z end.

(** The segments separated by ['/']. *)
Fixpoint join (segs : list bytes) : bytes :=
  match segs with
  | [] => []
  | s :: rest =>
    match rest with
    | [] => s
    | _ => s ++ "/" :: join rest
    end
  end.

(** The segments as [GenerateString] encodes them. *)
Definition encode_segments (p : list bytes) : list bytes :=
  map (fun s => EncodeElement s PCHAR_NOT_PCT_ENCODED) p.

(** What [GenerateString] writes for the path. *)
Definition path_text (p : list bytes) : bytes :=
  (if (IsPathAbsolute p && (length p =? 1))%bool then ["/"] else [])
  ++ GenerateString_path p 0 (length p).

(** A hexadecimal digit, a colon or a dot. *)
Definition ipv6_char (x : ascii) : bool :=
  (Contains HEXDIG x || char_eqb x ":" || char_eqb x ".")%bool.

(** One class of bytes lies within another. *)
Definition within (C P : ascii -> bool) : bool :=
  forallb (fun x => implb (C x) (P x)) all_ascii.

(** What [GenerateString] writes for the scheme. *)
Definition scheme_text (u : Uri) : bytes :=
  if negb (empty (scheme u)) then scheme u ++ [":"] else [].

(** What [GenerateString] writes for the user info. *)
Definition userInfo_text (u : Uri) : bytes :=
  if negb (empty (userInfo u))
  then EncodeElement (userInfo u) USER_INFO_NOT_PCT_ENCODED ++ ["@"]
  else [].

(** What [GenerateString] writes for the host. *)
Definition host_text (u : Uri) : bytes :=
  if negb (empty (host u)) then
    if ValidateIpv6Address (host u)
    then ["["] ++ lowercase (host u) ++ ["]"]
    else EncodeElement (host u) REG_NAME_NOT_PCT_ENCODED
  else [].

(** What [GenerateString] writes for the port. *)
Definition port_text (u : Uri) : bytes :=
  if hasPort u then [":"] ++ print_port (port u) else [].

(** What [GenerateString] writes after the authority marker. *)
Definition authority_text (u : Uri) : bytes :=
  userInfo_text u ++ host_text u ++ port_text u.

(** What [GenerateString] writes for the query. *)
Definition query_text (u : Uri) : bytes :=
  if hasQuery u
  then ["?"] ++ EncodeElement (query u) QUERY_NOT_PCT_ENCODED_WITHOUT_PLUS
  else [].

(** What [GenerateString] writes for the fragment. *)
Definition fragment_text (u : Uri) : bytes :=
  if hasFragment u
  then ["#"] ++ EncodeElement (fragment u) QUERY_OR_FRAGMENT_NOT_PCT_ENCODED
  else [].

(** A state in which the loop of [ParseAuthority] may end. *)
Definition final_state_ok (st : HostParsingState) : bool :=
  match st with
  | FIRST_CHARACTER | NOT_IP_LITERAL | GARBAGE_CHECK | PORT => true
  | _ => false
  end.

(** The scan found the host and the port of [u]. *)
Definition scan_result (u : Uri) (s : HostScan) : Prop :=
  final_state_ok (hostParsingState s) = true
  /\ (if hostIsRegName s then lowercase (scanHost s) else scanHost s) = host u
  /\ portString s = if hasPort u then print_port (port u) else [].

(** A byte that is none of ['/'], ['?'], ['#'] and ['@']. *)
Definition plain_authority_char (x : ascii) : bool :=
  negb (existsb (char_eqb x) (str "/?#@")).

(** A scheme as [ParseScheme] stores it: legal and in lower case. *)
Definition scheme_ok (sc : bytes) : Prop :=
  FailsMatch sc LegalSchemeCheckStrategy true = false /\ lowercase sc = sc.

(** The path string is empty or starts with ['/']. *)
Definition rooted (pathString : bytes) : Prop :=
  pathString = [] \/ exists t, pathString = "/" :: t.

(** The invariants of a parsed value that writing and reading back
    rely on. *)
Definition parsed_ok (u : Uri) : Prop :=
  (scheme u = [] \/ scheme_ok (scheme u))
  /\ (hasPort u = true -> (0 <= port u <= 65535)%Z)
  /\ (HasAuthority u = true -> path u = [] \/ IsPathAbsolute (path u) = true)
  /\ (host u <> [] -> path u <> []).

(** The path begins with two empty segments. *)
Definition begins_with_two_empty (p : list bytes) : bool :=
  match p with
  | [] :: [] :: _ => true
  | _ => false
  end.

(** A byte that is neither ['?'] nor ['#']. *)
Definition before_query (s : bytes) : Prop :=
  Forall (fun x => existsb (char_eqb x) (str "?#") = false) s.

(** What [GenerateString] writes between scheme and path. *)
Definition authority_part (u : Uri) : bytes :=
  if HasAuthority u then str "//" ++ authority_text u else [].

(** ** Remaining accessors and mutators *)

(** [Uri::operator!=]. *)
Definition Uri_neqb (a b : Uri) : bool := negb (Uri_eqb a b).

Definition IsRelativeReference (u : Uri) : bool := empty (scheme u).

Definition ContainsRelativePath (u : Uri) : bool :=
  negb (IsPathAbsolute (path u)).

Definition SetScheme (v : bytes) (u : Uri) : Uri := with_scheme v u.
Definition SetUserInfo (v : bytes) (u : Uri) : Uri := with_userInfo v u.
Definition SetHost (v : bytes) (u : Uri) : Uri := with_host v u.
Definition SetPath (v : list bytes) (u : Uri) : Uri := with_path v u.

(** ** Further notions used to state properties *)

(** A scheme as RFC 3986 has it: a letter, then letters, digits,
    ['+'], ['-'] and ['.']. *)
Definition legal_scheme (sc : bytes) : Prop :=
  exists c rest,
    sc = c :: rest
    /\ Contains ALPHA c = true
    /\ Forall (fun x => Contains SCHEME_NOT_FIRST x = true) rest.

(** Two values that [operator==] cannot tell apart, field by field. *)
Definition same_uri (a b : Uri) : Prop :=
  scheme a = scheme b /\ userInfo a = userInfo b /\ host a = host b
  /\ hasPort a = hasPort b /\ (hasPort a = true -> port a = port b)
  /\ path a = path b
  /\ hasQuery a = hasQuery b /\ (hasQuery a = true -> query a = query b)
  /\ hasFragment a = hasFragment b
  /\ (hasFragment a = true -> fragment a = fragment b).

(** What [ParseAuthority] decides, taken from [v] and put onto [u]: the
    user info, the host, the port flag, and the port number when there
    is a port. *)
Definition authority_onto (v u : Uri) : Uri :=
  with_port (if hasPort v then port v else port u)
    (with_hasPort (hasPort v)
      (with_host (host v) (with_userInfo (userInfo v) u))).

(** The same without the user info: what the second half of
    [ParseAuthority] decides. *)
Definition host_port_onto (v u : Uri) : Uri :=
  with_port (if hasPort v then port v else port u)
    (with_hasPort (hasPort v) (with_host (host v) u)).

(** The result [u] of a parse, as it comes out when the same string is
    parsed into an object whose port number was [stale]. *)
Definition with_stale_port (stale : Z) (u : Uri) : Uri :=
  with_port (if hasPort u then port u else stale) u.

(** The number of segments the finished path will have. *)
Definition NormalizePath_size (st : list bytes * bool) : nat :=
  length (NormalizePath_finish st).

(** The part of the authority string that [ParseAuthority] scans for
    host and port: what follows the first ['@'], or all of it. *)
Definition hostPort_of (authorityString : bytes) : bytes :=
  match find "@" authorityString with
  | Some d => substr_from (d + 1) authorityString
  | None => authorityString
  end.

(** The text opens an IP literal. *)
Definition opens_literal (hostPortString : bytes) : bool :=
  match hostPortString with
  | c :: _ => char_eqb c "["
  | [] => false
  end.



(** The number a run of decimal digits denotes. *)
Definition decimal_value (g : bytes) : Z :=
  fold_left (fun v c => (v * 10 + Z.of_N (code c - code "0"))%Z) g 0%Z.

(** A non-empty text that [ValidateOctet] accepts. *)
Definition octet_text (g : bytes) : Prop :=
  g <> [] /\ ValidateOctet g = true.

(** Each group followed by a dot. *)
Definition dotted (groups : list bytes) : bytes :=
  concat (map (fun g => g ++ ["."]) groups).

(** One group of an IPv6 address: one to four hexadecimal digits. *)
Definition hex_group (g : bytes) : Prop :=
  g <> [] /\ length g <= 4 /\ Forall (fun c => Contains HEXDIG c = true) g.

(** The groups separated by [':']. *)
Fixpoint colon_join (groups : list bytes) : bytes :=
  match groups with
  | [] => []
  | g :: rest =>
    match rest with
    | [] => g
    | _ => g ++ ":" :: colon_join rest
    end
  end.

(** The scan of [ValidateIpv6Address] is inside a group. *)
Definition in_group (st : ValidationState) : bool :=
  match st with
  | IN_GROUP_NOT_IPV4 | IN_GROUP_COULD_BE_IPV4 => true
  | _ => false
  end.

(** The scan of [ValidateIpv6Address] is where a group may begin. *)
Definition group_may_begin (st : ValidationState) : bool :=
  match st with
  | NO_GROUPS_YET | AFTER_DOUBLE_COLON | COLON_AFTER_GROUP => true
  | _ => false
  end.


(* ================================================================== *)
(** * Part II: the properties *)
(* ================================================================== *)

(** ** Bytes and byte strings *)

Lemma forall_ascii (P : ascii -> bool) :
  forallb P all_ascii = true -> forall c, P c = true.
Proof.
  intros H c.
  rewrite forallb_forall in H. apply H.
  unfold all_ascii.
  rewrite <- (ascii_nat_embedding c).
  apply in_map, in_seq.
  pose proof (nat_ascii_bounded c). lia.
Qed.

(** Settles a closed fact about all 256 bytes by evaluation. *)
Ltac by_all_bytes :=
  match goal with
  | |- forall c : ascii, @?P c = true =>
    exact (forall_ascii P ltac:(vm_compute; reflexivity))
  end.

Lemma char_eqb_eq (a b : ascii) : char_eqb a b = true <-> a = b.
Proof. apply Ascii.eqb_eq. Qed.

Lemma char_eqb_refl (a : ascii) : char_eqb a a = true.
Proof. apply char_eqb_eq. reflexivity. Qed.

Lemma char_eqb_neq (a b : ascii) : char_eqb a b = false <-> a <> b.
Proof. apply Ascii.eqb_neq. Qed.

Lemma bytes_eqb_eq (a b : bytes) : bytes_eqb a b = true <-> a = b.
Proof.
  revert b. induction a as [|x a IH]; intros [|y b]; simpl;
    try (split; [discriminate | discriminate]); try tauto.
  rewrite andb_true_iff, char_eqb_eq, IH.
  split; [intros [-> ->]; reflexivity | intros E; inversion E; auto].
Qed.

Lemma bytes_eqb_refl (a : bytes) : bytes_eqb a a = true.
Proof. apply bytes_eqb_eq. reflexivity. Qed.

Lemma path_eqb_eq (a b : list bytes) : path_eqb a b = true <-> a = b.
Proof.
  revert b. induction a as [|x a IH]; intros [|y b]; simpl;
    try (split; [discriminate | discriminate]); try tauto.
  rewrite andb_true_iff, bytes_eqb_eq, IH.
  split; [intros [-> ->]; reflexivity | intros E; inversion E; auto].
Qed.

Lemma path_eqb_refl (a : list bytes) : path_eqb a a = true.
Proof. apply path_eqb_eq. reflexivity. Qed.

(** ** The element codec *)

Lemma triplet_decodes_all : forall c, triplet_decodes c = true.
Proof. by_all_bytes. Qed.

Lemma MakeHexDigit_upper :
  forall c,
    (char_eqb (MakeHexDigit (N.shiftr (code c) 4))
              (upper_hex_digit (code c / 16))
     && char_eqb (MakeHexDigit (N.land (code c) 15))
                 (upper_hex_digit (code c mod 16)))%bool = true.
Proof. by_all_bytes. Qed.

Lemma DecodeElement_loop_pec (S : CharacterSet) (s : bytes) :
  forall pec1 pec2 acc,
    DecodeElement_loop S s false pec1 acc
    = DecodeElement_loop S s false pec2 acc.
Proof.
  induction s as [|c s IH]; intros pec1 pec2 acc; simpl; [reflexivity|].
  destruct (char_eqb c "%"); [reflexivity|].
  destruct (Contains S c); [apply IH | reflexivity].
Qed.

Section Codec.
(** Encoding with the set [S], decoding with a set [S'] that allows at
    least the characters of [S]; the escape character is not in [S]. *)
Variables S S' : CharacterSet.
Hypothesis S_no_percent : Contains S "%" = false.
Hypothesis S_sub : forall c, Contains S c = true -> Contains S' c = true.

Lemma DecodeElement_loop_encoded (s tail : bytes) :
  forall pec acc,
    DecodeElement_loop S' (EncodeElement s S ++ tail) false pec acc
    = DecodeElement_loop S' tail false pec (acc ++ s).
Proof.
  induction s as [|c s IH]; intros pec acc; simpl.
  - rewrite app_nil_r. reflexivity.
  - destruct (Contains S c) eqn:Hc.
    + simpl.
      assert (Hne : char_eqb c "%" = false).
      { apply char_eqb_neq. intros ->. congruence. }
      rewrite Hne, (S_sub _ Hc), IH, <- app_assoc. reflexivity.
    + simpl.
      pose proof (triplet_decodes_all c) as T. unfold triplet_decodes in T.
      destruct (NextEncodedCharacter newDecoder _) as [d1|]; [|discriminate].
      apply andb_true_iff in T. destruct T as [T1 T2].
      apply negb_true_iff in T1. rewrite T1.
      destruct (NextEncodedCharacter d1 _) as [d2|]; [|discriminate].
      apply andb_true_iff in T2. destruct T2 as [T2 T3].
      rewrite T2. apply char_eqb_eq in T3. rewrite T3.
      rewrite (DecodeElement_loop_pec S' _ d2 pec).
      rewrite IH, <- app_assoc. reflexivity.
Qed.

Lemma DecodeElement_EncodeElement (s : bytes) :
  DecodeElement (EncodeElement s S) S' = Some s.
Proof.
  unfold DecodeElement.
  rewrite <- (app_nil_r (EncodeElement s S)).
  rewrite DecodeElement_loop_encoded. reflexivity.
Qed.
End Codec.

Lemma EncodeElement_spec (s : bytes) (S : CharacterSet) :
  EncodeElement s S = Encode_spec s S.
Proof.
  induction s as [|c s IH]; [reflexivity|].
  change (Encode_spec (c :: s) S)
    with ((if Contains S c then [c]
           else ["%"; upper_hex_digit (code c / 16);
                 upper_hex_digit (code c mod 16)]) ++ Encode_spec s S).
  cbn [EncodeElement]. rewrite IH.
  destruct (Contains S c); [reflexivity|].
  pose proof (MakeHexDigit_upper c) as H.
  apply andb_true_iff in H. destruct H as [H1 H2].
  apply char_eqb_eq in H1, H2. rewrite H1, H2. reflexivity.
Qed.

Lemma element_set_no_percent (e : ElementSet) :
  Contains (element_set e) "%" = false.
Proof. destruct e; vm_compute; reflexivity. Qed.

(** C9: for every byte string and every character set the library
    encodes with (none of which contains ['%']), decoding the encoded
    string with the same set succeeds and gives the string back; the
    encoder is total and writes each byte outside the set as ['%']
    followed by two upper-case hexadecimal digits, high nibble first. *)
Theorem C9_encode_decode_roundtrip (e : ElementSet) (s : bytes) :
  Contains (element_set e) "%" = false
  /\ DecodeElement (EncodeElement s (element_set e)) (element_set e) = Some s
  /\ EncodeElement s (element_set e) = Encode_spec s (element_set e).
Proof.
  split; [apply element_set_no_percent|].
  split; [|apply EncodeElement_spec].
  apply DecodeElement_EncodeElement; [apply element_set_no_percent | auto].
Qed.

(** ** Equality *)

(** C8: two Uris that agree on scheme, user info, host and path, and
    whose port, query and fragment presence flags are all cleared, are
    equal under [operator==], whatever stale port number, query string or
    fragment string each still stores. *)
Theorem C8_equality_ignores_stale_values (a b : Uri) :
  scheme a = scheme b -> userInfo a = userInfo b ->
  host a = host b -> path a = path b ->
  hasPort a = false -> hasPort b = false ->
  hasQuery a = false -> hasQuery b = false ->
  hasFragment a = false -> hasFragment b = false ->
  Uri_eqb a b = true.
Proof.
  intros Hs Hu Hh Hp Pa Pb Qa Qb Fa Fb.
  unfold Uri_eqb.
  rewrite Hs, Hu, Hh, Hp, Pa, Pb, Qa, Qb, Fa, Fb.
  rewrite !bytes_eqb_refl, path_eqb_refl. reflexivity.
Qed.

(** An instance: a port, a query and a fragment that were set and then
    cleared leave their values behind, and the result still equals a Uri
    that never had them. *)
Lemma C8_witness :
  port (ClearPort (SetPort 8080 Uri_new)) <> port Uri_new
  /\ query (ClearQuery (SetQuery (str "q") Uri_new)) <> query Uri_new
  /\ Uri_eqb
       (ClearFragment (SetFragment (str "f")
          (ClearQuery (SetQuery (str "q")
             (ClearPort (SetPort 8080 Uri_new))))))
       Uri_new = true.
Proof.
  split; [simpl; discriminate|].
  split; [simpl; discriminate|].
  apply C8_equality_ignores_stale_values; reflexivity.
Defined.

(** ** Reference resolution *)

(** C4: for a reference with no scheme, an empty host and an empty
    path, the target keeps the base's path, takes the reference's query
    when that query string is non-empty and the base's query otherwise
    (flag and value), takes scheme and authority from the base, and takes
    the fragment (flag and value) from the reference.  Against the base
    [http://a/b/c/d;p?q] the empty reference resolves to the base itself
    and [?y] to [http://a/b/c/d;p?y]. *)
Theorem C4_resolve_empty_path :
  (forall base reference : Uri,
     scheme reference = [] -> host reference = [] -> path reference = [] ->
     let target := Resolve base reference in
     path target = path base
     /\ (hasQuery target, query target)
        = (if negb (empty (query reference))
           then (hasQuery reference, query reference)
           else (hasQuery base, query base))
     /\ scheme target = scheme base
     /\ (userInfo target, host target, hasPort target, port target)
        = (userInfo base, host base, hasPort base, port base)
     /\ (hasFragment target, fragment target)
        = (hasFragment reference, fragment reference))
  /\ resolve_text "http://a/b/c/d;p?q" "" = Some "http://a/b/c/d;p?q"%string
  /\ resolve_text "http://a/b/c/d;p?q" "?y" = Some "http://a/b/c/d;p?y"%string.
Proof.
  split; [|split; vm_compute; reflexivity].
  intros base reference Hs Hh Hp. unfold Resolve. rewrite Hs, Hh, Hp.
  cbn [empty negb].
  destruct (empty (query reference)); cbn; repeat split; reflexivity.
Qed.

(** The general part at the reference [?y#s], resolved against
    [http://a/b/c/d;p?q]. *)
Lemma C4_witness :
  let base := parsed "http://a/b/c/d;p?q" in
  let reference := parsed "?y#s" in
  path (Resolve base reference) = path base
  /\ (hasQuery (Resolve base reference), query (Resolve base reference))
     = (true, str "y")
  /\ scheme (Resolve base reference) = str "http".
Proof.
  pose proof (proj1 C4_resolve_empty_path
                (parsed "http://a/b/c/d;p?q") (parsed "?y#s")
                ltac:(vm_compute; reflexivity)
                ltac:(vm_compute; reflexivity)
                ltac:(vm_compute; reflexivity)) as (P & Q & S & _).
  split; [exact P|]. split; [exact Q | exact S].
Defined.

(** ** Path normalization *)

Lemma empty_true {A} (l : list A) : empty l = true <-> l = [].
Proof. destruct l; simpl; split; congruence. Qed.

Lemma empty_false {A} (l : list A) : empty l = false <-> l <> [].
Proof. destruct l; simpl; split; congruence. Qed.

Lemma NormalizePath_loop_app (a b : list bytes) (st : list bytes * bool) :
  NormalizePath_loop (a ++ b) st = NormalizePath_loop b (NormalizePath_loop a st).
Proof. apply fold_left_app. Qed.

(** An invariant of the loop's state that every step keeps holds at the
    end of the loop. *)
Lemma NormalizePath_loop_invariant (P : list bytes * bool -> Prop) :
  (forall st seg, P st -> P (NormalizePath_step st seg)) ->
  forall l st, P st -> P (NormalizePath_loop l st).
Proof.
  intros Hstep l. induction l as [|seg l IH]; intros st H; simpl.
  - exact H.
  - apply IH, Hstep, H.
Qed.

Lemma IsPathAbsolute_snoc (p : list bytes) (s : bytes) :
  p <> [] -> IsPathAbsolute (p ++ [s]) = IsPathAbsolute p.
Proof. destruct p; [congruence | reflexivity]. Qed.

Lemma IsPathAbsolute_removelast (p : list bytes) :
  1 < length p -> IsPathAbsolute (removelast p) = IsPathAbsolute p.
Proof.
  destruct p as [|a [|b p]]; intros H; try (simpl in H; lia). reflexivity.
Qed.

(** What a [".."] segment does to the path rebuilt so far. *)
Lemma NormalizePath_step_dotdot (p : list bytes) (d : bool) :
  NormalizePath_step (p, d) (str "..")
  = ((if (negb (empty p)
          && (negb (IsPathAbsolute p) || (1 <? length p)))%bool
      then removelast p else p), true).
Proof.
  unfold NormalizePath_step, CanNavigatePathUpOneLevel. simpl.
  destruct (empty p); reflexivity.
Qed.

Lemma dotdot_keeps_absoluteness (p : list bytes) :
  IsPathAbsolute
    (if (negb (empty p) && (negb (IsPathAbsolute p) || (1 <? length p)))%bool
     then removelast p else p)
  = IsPathAbsolute p.
Proof.
  destruct p as [|a [|b p]]; [reflexivity | |];
    simpl; destruct (bytes_eqb a []) eqn:E; simpl; try rewrite E; reflexivity.
Qed.

(** C5: a [".."] segment removes the last segment rebuilt so far exactly
    when the rebuilt path is non-empty and is either not absolute or
    longer than one segment; the leading empty segment of an absolute
    path is therefore never removed.  [a/b/../c] normalizes to [a/c] and
    [/a/b/../../../g] to [/g]. *)
Theorem C5_dotdot_navigation :
  (forall prefix : list bytes,
     let p := emitted prefix in
     emitted (prefix ++ [str ".."])
     = if (negb (empty p) && (negb (IsPathAbsolute p) || (1 <? length p)))%bool
       then removelast p else p)
  /\ (forall prefix : list bytes,
        IsPathAbsolute (emitted (prefix ++ [str ".."]))
        = IsPathAbsolute (emitted prefix))
  /\ NormalizePath_path [str "a"; str "b"; str ".."; str "c"]
     = [str "a"; str "c"]
  /\ option_map (fun u => show (GenerateString (NormalizePath u)))
       (parse "/a/b/../../../g") = Some "/g"%string.
Proof.
  assert (E : forall prefix,
             emitted (prefix ++ [str ".."])
             = if (negb (empty (emitted prefix))
                   && (negb (IsPathAbsolute (emitted prefix))
                       || (1 <? length (emitted prefix))))%bool
               then removelast (emitted prefix) else emitted prefix).
  { intros prefix. unfold emitted. rewrite NormalizePath_loop_app.
    destruct (NormalizePath_loop prefix ([], false)) as [p d].
    cbn [NormalizePath_loop fold_left]. rewrite NormalizePath_step_dotdot.
    reflexivity. }
  split; [exact E|].
  split; [|split; vm_compute; reflexivity].
  intros prefix. rewrite E. apply dotdot_keeps_absoluteness.
Qed.

(** Absoluteness of the rebuilt path, once the first segment is in. *)
Lemma NormalizePath_step_absolute (st : list bytes * bool) (seg : bytes) :
  IsPathAbsolute (fst st) = true ->
  IsPathAbsolute (fst (NormalizePath_step st seg)) = true.
Proof.
  destruct st as [p d]. unfold NormalizePath_step. cbn [fst]. intros H.
  destruct (bytes_eqb seg (str ".")); [exact H|].
  destruct (bytes_eqb seg (str "..")); cbn [fst].
  - unfold CanNavigatePathUpOneLevel. rewrite H.
    destruct p as [|a [|b p]]; simpl in *; auto.
  - destruct (negb d || negb (empty seg))%bool; [|exact H].
    rewrite IsPathAbsolute_snoc; [exact H|].
    destruct p; [discriminate | congruence].
Qed.

Lemma IsPathAbsolute_removelast_false (p : list bytes) :
  IsPathAbsolute p = false -> IsPathAbsolute (removelast p) = false.
Proof. destruct p as [|a [|b p]]; simpl; auto. Qed.

Lemma NormalizePath_step_relative (st : list bytes * bool) (seg : bytes) :
  relative_state st -> relative_state (NormalizePath_step st seg).
Proof.
  destruct st as [p d]. unfold relative_state, NormalizePath_step.
  cbn [fst snd]. intros [H1 H2].
  destruct (bytes_eqb seg (str ".")); cbn [fst snd]; [auto|].
  destruct (bytes_eqb seg (str "..")); cbn [fst snd].
  - split; [|auto].
    destruct (negb (empty p)); [|exact H1].
    destruct (CanNavigatePathUpOneLevel p); [|exact H1].
    apply IsPathAbsolute_removelast_false, H1.
  - destruct seg as [|c seg]; cbn [empty negb].
    + rewrite orb_false_r. destruct d; cbn [negb]; [auto|].
      destruct p as [|a p]; [specialize (H2 eq_refl); discriminate|].
      split; [exact H1 | discriminate].
    + rewrite orb_true_r. split.
      * destruct p; [reflexivity | exact H1].
      * destruct p; discriminate.
Qed.

Lemma NormalizePath_finish_absolute (st : list bytes * bool) :
  IsPathAbsolute (NormalizePath_finish st) = IsPathAbsolute (fst st).
Proof.
  destruct st as [q d]. unfold NormalizePath_finish. cbn [fst].
  destruct (d && (negb (empty q) && negb (empty (last q []))))%bool eqn:E;
    [|reflexivity].
  apply IsPathAbsolute_snoc. intros ->. rewrite andb_false_r in E.
  discriminate.
Qed.

(** C10: the path is absolute after [NormalizePath] exactly when it was
    absolute before. *)
Theorem C10_normalize_preserves_absoluteness (p : list bytes) :
  IsPathAbsolute (NormalizePath_path p) = IsPathAbsolute p
  /\ (forall u : Uri,
        IsPathAbsolute (path (NormalizePath u)) = IsPathAbsolute (path u)).
Proof.
  assert (E : forall q, IsPathAbsolute (NormalizePath_path q) = IsPathAbsolute q).
  { clear p. intros p. unfold NormalizePath_path.
    rewrite NormalizePath_finish_absolute.
    destruct p as [|first rest]; [reflexivity|].
    change (NormalizePath_loop (first :: rest) ([], false))
      with (NormalizePath_loop rest (NormalizePath_step ([], false) first)).
    destruct (IsPathAbsolute (first :: rest)) eqn:A.
    - (* absolute: the first step pushes the empty segment *)
      simpl in A. apply bytes_eqb_eq in A. subst first.
      apply (NormalizePath_loop_invariant
               (fun st => IsPathAbsolute (fst st) = true)
               NormalizePath_step_absolute).
      reflexivity.
    - (* relative: after the first step the state is a relative one *)
      apply (NormalizePath_loop_invariant relative_state
               NormalizePath_step_relative).
      simpl in A. unfold relative_state, NormalizePath_step.
      destruct (bytes_eqb first (str ".")); [split; auto|].
      destruct (bytes_eqb first (str "..")); [split; auto|].
      destruct first as [|c first]; [discriminate|].
      cbn. split; [reflexivity | discriminate]. }
  split; [apply E | intros u; apply E].
Qed.

(** *** Idempotence *)

Lemma ends_in_empty_snoc (q : list bytes) (s : bytes) :
  ends_in_empty (q ++ [s]) = empty s.
Proof.
  unfold ends_in_empty. rewrite last_last.
  destruct q; reflexivity.
Qed.

Lemma ends_in_empty_cons (a b : bytes) (t : list bytes) :
  ends_in_empty (a :: b :: t) = ends_in_empty (b :: t).
Proof. reflexivity. Qed.

Lemma no_adjacent_empty_snoc (q : list bytes) (s : bytes) :
  no_adjacent_empty (q ++ [s])
  <-> no_adjacent_empty q /\ ~ (ends_in_empty q = true /\ s = []).
Proof.
  induction q as [|a q IH]; [simpl; intuition discriminate|].
  destruct q as [|b q].
  - simpl. rewrite empty_true. tauto.
  - change ((a :: b :: q) ++ [s]) with (a :: (b :: q) ++ [s]).
    rewrite ends_in_empty_cons.
    change (no_adjacent_empty (a :: (b :: q) ++ [s]))
      with (~ (a = [] /\ b = []) /\ no_adjacent_empty ((b :: q) ++ [s])).
    change (no_adjacent_empty (a :: b :: q))
      with (~ (a = [] /\ b = []) /\ no_adjacent_empty (b :: q)).
    rewrite IH. tauto.
Qed.

Lemma no_adjacent_empty_removelast (q : list bytes) :
  no_adjacent_empty q -> no_adjacent_empty (removelast q).
Proof.
  induction q as [|a q IH]; [auto|].
  destruct q as [|b q]; [simpl; auto|].
  destruct q as [|c q]; [simpl; auto|].
  intros [H1 H2]. specialize (IH H2).
  change (removelast (a :: b :: c :: q)) with (a :: b :: removelast (c :: q)).
  change (removelast (b :: c :: q)) with (b :: removelast (c :: q)) in IH.
  split; assumption.
Qed.

Lemma no_adjacent_empty_app_l (a b : list bytes) :
  no_adjacent_empty (a ++ b) -> no_adjacent_empty a.
Proof.
  induction a as [|x a IH]; [simpl; auto|].
  destruct a as [|y a]; [simpl; auto|].
  intros [H1 H2]. split; [exact H1 | apply IH, H2].
Qed.

Lemma Forall_removelast {A} (P : A -> Prop) (q : list A) :
  Forall P q -> Forall P (removelast q).
Proof.
  induction 1 as [|a q Ha Hq IH]; [constructor|].
  destruct q; [constructor|]. simpl. constructor; assumption.
Qed.

Lemma plain_not_dots (s : bytes) :
  plain s = true ->
  bytes_eqb s (str ".") = false /\ bytes_eqb s (str "..") = false.
Proof.
  unfold plain. rewrite andb_true_iff, !negb_true_iff. tauto.
Qed.

Lemma NormalizePath_step_normal (st : list bytes * bool) (seg : bytes) :
  normal_state st -> normal_state (NormalizePath_step st seg).
Proof.
  destruct st as [q d]. unfold normal_state, normal_path, NormalizePath_step.
  cbn [fst snd]. intros [[F N] D].
  destruct (bytes_eqb seg (str ".")) eqn:E1; cbn [fst snd].
  { repeat split; auto. discriminate. }
  destruct (bytes_eqb seg (str "..")) eqn:E2; cbn [fst snd].
  { split; [|discriminate].
    destruct (negb (empty q)); [|auto].
    destruct (CanNavigatePathUpOneLevel q); [|auto].
    split; [apply Forall_removelast, F | apply no_adjacent_empty_removelast, N]. }
  assert (P : plain seg = true) by (unfold plain; rewrite E1, E2; reflexivity).
  destruct (negb d || negb (empty seg))%bool eqn:C.
  - split.
    + split.
      * apply Forall_app. split; [exact F | repeat constructor; exact P].
      * apply no_adjacent_empty_snoc. split; [exact N|].
        intros [L ->]. cbn [empty negb] in C. rewrite orb_false_r in C.
        apply negb_true_iff in C. rewrite (D C) in L. discriminate.
    + intros Hs. rewrite ends_in_empty_snoc. exact Hs.
  - split; [auto|].
    intros Hs. apply orb_false_iff in C. destruct C as [_ C].
    apply negb_false_iff in C. congruence.
Qed.

Lemma NormalizePath_path_normal (p : list bytes) :
  normal_path (NormalizePath_path p).
Proof.
  unfold NormalizePath_path.
  assert (H : normal_state (NormalizePath_loop p ([], false))).
  { apply NormalizePath_loop_invariant; [apply NormalizePath_step_normal|].
    split; [split; [constructor | exact I] | reflexivity]. }
  destruct (NormalizePath_loop p ([], false)) as [q d].
  destruct H as [[F N] D]. cbn [fst snd] in *.
  unfold NormalizePath_finish.
  destruct (d && (negb (empty q) && negb (empty (last q []))))%bool eqn:C;
    [|split; assumption].
  split.
  - apply Forall_app. split; [exact F | repeat constructor].
  - apply no_adjacent_empty_snoc. split; [exact N|].
    intros [L _]. apply andb_true_iff in C. destruct C as [_ C].
    apply andb_true_iff in C. destruct C as [C1 C2].
    unfold ends_in_empty in L. destruct q; [discriminate|].
    rewrite L in C2. discriminate.
Qed.

(** On a normal path the loop copies every segment. *)
Lemma NormalizePath_loop_normal (l : list bytes) :
  forall q, normal_path (q ++ l) ->
    NormalizePath_loop l (q, ends_in_empty q)
    = (q ++ l, ends_in_empty (q ++ l)).
Proof.
  induction l as [|s l IH]; intros q [F N].
  - rewrite app_nil_r. reflexivity.
  - cbn [NormalizePath_loop fold_left].
    assert (P : plain s = true).
    { rewrite Forall_app in F. destruct F as [_ F]. inversion F; assumption. }
    apply plain_not_dots in P. destruct P as [P1 P2].
    unfold NormalizePath_step. rewrite P1, P2.
    replace (q ++ s :: l) with ((q ++ [s]) ++ l) in *
      by (rewrite <- app_assoc; reflexivity).
    assert (C : (negb (ends_in_empty q) || negb (empty s))%bool = true).
    { apply no_adjacent_empty_app_l, no_adjacent_empty_snoc in N.
      destruct N as [_ N].
      destruct (ends_in_empty q); [|reflexivity].
      destruct s; [exfalso; apply N; split; reflexivity | reflexivity]. }
    rewrite C, <- (ends_in_empty_snoc q s).
    apply (IH (q ++ [s])). split; assumption.
Qed.

Lemma NormalizePath_path_fixed (p : list bytes) :
  normal_path p -> NormalizePath_path p = p.
Proof.
  intros H. unfold NormalizePath_path.
  pose proof (NormalizePath_loop_normal p [] H) as E.
  cbn [app ends_in_empty] in E. rewrite E.
  unfold NormalizePath_finish, ends_in_empty.
  destruct p as [|a p]; [reflexivity|].
  destruct (empty (last (a :: p) [])); reflexivity.
Qed.

(** C7: [NormalizePath] is idempotent: normalizing the result of a
    normalization leaves it unchanged. *)
Theorem C7_normalize_idempotent (p : list bytes) :
  NormalizePath_path (NormalizePath_path p) = NormalizePath_path p
  /\ (forall u : Uri, NormalizePath (NormalizePath u) = NormalizePath u).
Proof.
  assert (E : forall q,
             NormalizePath_path (NormalizePath_path q) = NormalizePath_path q).
  { intros q. apply NormalizePath_path_fixed, NormalizePath_path_normal. }
  split; [apply E|].
  intros u. unfold NormalizePath. destruct u; unfold with_path; cbn.
  rewrite E. reflexivity.
Qed.

(** ** Behaviour at the inputs where the code leaves its documentation *)

(** C2: [SetDefaultPathIfAuthorityPresentAndPathEmpty] tests the host
    alone.  A successful parse of [//user@] or of [//:80] has an
    authority (user info, respectively a port) and keeps the empty path;
    with a host, as in [//h], the path becomes the single empty
    segment. *)
Theorem C2_default_path_needs_host :
  (exists u, parse "//user@" = Some u
             /\ HasAuthority u = true /\ path u = [])
  /\ (exists u, parse "//:80" = Some u
                /\ HasAuthority u = true /\ path u = [])
  /\ (exists u, parse "//h" = Some u
                /\ HasAuthority u = true /\ path u = [[]]
                /\ show (GenerateString u) = "//h/"%string).
Proof.
  repeat split; eexists; (split; [vm_compute; reflexivity|]);
    repeat split; reflexivity.
Qed.

(** C3: the port text goes through [std::stoi], which skips leading
    white space, takes a sign and stops at the first character that is
    not a digit.  [65535] is accepted, [65536], [-1] and [abc] are
    rejected, but [80abc], [+80], [ 80] and [-0] are accepted as ports
    80, 80, 80 and 0. *)
Theorem C3_port_text_through_stoi :
  authority_port "h:65535" = Some (true, 65535%Z)
  /\ authority_port "h:65536" = None
  /\ authority_port "h:-1" = None
  /\ authority_port "h:abc" = None
  /\ authority_port "h:80abc" = Some (true, 80%Z)
  /\ authority_port "h:+80" = Some (true, 80%Z)
  /\ authority_port "h: 80" = Some (true, 80%Z)
  /\ authority_port "h:-0" = Some (true, 0%Z)
  /\ option_map (fun u => (hasPort u, port u)) (parse "//h:80abc/")
     = Some (true, 80%Z).
Proof. repeat split; vm_compute; reflexivity. Qed.

(** C6: an address that reaches an embedded IPv4 literal leaves the loop
    in state [IN_GROUP_COULD_BE_IPV4], so the trailing-group count fires
    before the two groups of the literal are added: the literal weighs
    three groups.  Six groups and an IPv4 literal are rejected, five
    groups and an IPv4 literal are accepted.  The four addresses without
    an IPv4 literal that the specification lists are judged as it says. *)
Theorem C6_ipv6_group_count :
  ValidateIpv6Address (str "1:2:3:4:5:6:7:8") = true
  /\ ValidateIpv6Address (str "1:2:3:4:5:6:7:8:9") = false
  /\ ValidateIpv6Address (str "::1") = true
  /\ ValidateIpv6Address (str "1::2::3") = false
  /\ ValidateIpv4Address (str "1.2.3.4") = true
  /\ Ipv6_final_numGroups (str "1:2:3:4:5:6:1.2.3.4") = Some 9
  /\ ValidateIpv6Address (str "1:2:3:4:5:6:1.2.3.4") = false
  /\ Ipv6_final_numGroups (str "1:2:3:4:5:1.2.3.4") = Some 8
  /\ ValidateIpv6Address (str "1:2:3:4:5:1.2.3.4") = true
  /\ parse "http://[1:2:3:4:5:6:1.2.3.4]/" = None.
Proof. repeat split; vm_compute; reflexivity. Qed.

(** ** Searching and cutting strings *)

Lemma find_avoids (c : ascii) (s : bytes) : avoids c s -> find c s = None.
Proof.
  induction 1 as [|x s Hx _ IH]; simpl; [reflexivity|].
  rewrite Hx, IH. reflexivity.
Qed.

Lemma find_app_found (c : ascii) (a b : bytes) :
  avoids c a -> find c (a ++ c :: b) = Some (length a).
Proof.
  induction 1 as [|x a Hx _ IH]; simpl.
  - rewrite char_eqb_refl. reflexivity.
  - rewrite Hx, IH. reflexivity.
Qed.

Lemma find_app_avoids (c : ascii) (a b : bytes) :
  avoids c a -> find c (a ++ b) = option_map (Nat.add (length a)) (find c b).
Proof.
  induction 1 as [|x a Hx _ IH]; simpl.
  - destruct (find c b); reflexivity.
  - rewrite Hx, IH. destruct (find c b); reflexivity.
Qed.

Lemma find_first_of_none (set s : bytes) :
  Forall (fun x => existsb (char_eqb x) set = false) s ->
  find_first_of set s = None.
Proof.
  induction 1 as [|x s Hx _ IH]; simpl; [reflexivity|].
  rewrite Hx, IH. reflexivity.
Qed.

Lemma find_first_of_app_found (set a b : bytes) (c : ascii) :
  Forall (fun x => existsb (char_eqb x) set = false) a ->
  existsb (char_eqb c) set = true ->
  find_first_of set (a ++ c :: b) = Some (length a).
Proof.
  intros H Hc. induction H as [|x a Hx _ IH]; simpl.
  - rewrite Hc. reflexivity.
  - rewrite Hx, IH. reflexivity.
Qed.

Lemma substr_to_app (a b : bytes) : substr_to (length a) (a ++ b) = a.
Proof.
  unfold substr_to. induction a as [|x a IH]; simpl.
  - reflexivity.
  - rewrite IH. reflexivity.
Qed.

Lemma substr_from_app (a b : bytes) : substr_from (length a) (a ++ b) = b.
Proof.
  unfold substr_from. induction a as [|x a IH]; simpl; auto.
Qed.

Lemma substr_from_app_S (a b : bytes) (c : ascii) :
  substr_from (length a + 1) (a ++ c :: b) = b.
Proof.
  replace (a ++ c :: b) with ((a ++ [c]) ++ b)
    by (rewrite <- app_assoc; reflexivity).
  replace (length a + 1) with (length (a ++ [c]))
    by (rewrite length_app; reflexivity).
  apply substr_from_app.
Qed.

Lemma avoids_app (c : ascii) (a b : bytes) :
  avoids c (a ++ b) <-> avoids c a /\ avoids c b.
Proof. apply Forall_app. Qed.

(** ** Character classes of the written text *)

Lemma MakeHexDigit_is_hex :
  forall c,
    (Contains HEXDIG (MakeHexDigit (N.shiftr (code c) 4))
     && Contains HEXDIG (MakeHexDigit (N.land (code c) 15)))%bool = true.
Proof. by_all_bytes. Qed.

Lemma EncodeElement_chars (S : CharacterSet) (s : bytes) :
  Forall (fun x => encoded_char S x = true) (EncodeElement s S).
Proof.
  induction s as [|c s IH]; cbn [EncodeElement]; [constructor|].
  destruct (Contains S c) eqn:Hc.
  - constructor; [|exact IH]. unfold encoded_char. rewrite Hc. reflexivity.
  - pose proof (MakeHexDigit_is_hex c) as H. apply andb_true_iff in H.
    destruct H as [H1 H2].
    repeat (apply Forall_cons); try exact IH; unfold encoded_char.
    + rewrite char_eqb_refl, orb_true_r. reflexivity.
    + rewrite H1. apply orb_true_r.
    + rewrite H2. apply orb_true_r.
Qed.

Lemma EncodeElement_avoids (S : CharacterSet) (c : ascii) (s : bytes) :
  never_written S c = true -> avoids c (EncodeElement s S).
Proof.
  intros H. unfold avoids.
  eapply Forall_impl; [|apply EncodeElement_chars].
  intros x Hx. pose proof (forall_ascii _ H x) as I. cbv beta in I.
  rewrite Hx in I. simpl in I. apply negb_true_iff in I. exact I.
Qed.

Lemma EncodeElement_nil (S : CharacterSet) (s : bytes) :
  EncodeElement s S = [] -> s = [].
Proof.
  destruct s as [|c s]; [reflexivity|]. cbn [EncodeElement].
  destruct (Contains S c); discriminate.
Qed.

(** A property of bytes that holds of every byte written for [S]. *)
Lemma EncodeElement_Forall (S : CharacterSet) (P : ascii -> bool) (s : bytes) :
  forallb (fun x => implb (encoded_char S x) (P x)) all_ascii = true ->
  Forall (fun x => P x = true) (EncodeElement s S).
Proof.
  intros H. eapply Forall_impl; [|apply EncodeElement_chars].
  intros x Hx. pose proof (forall_ascii _ H x) as I. cbv beta in I.
  rewrite Hx in I. exact I.
Qed.

(** ** Writing and reading the port *)

Lemma digit_char (k : N) :
  (k < 10)%N ->
  is_digit (ascii_of_N (code "0" + k)) = true
  /\ (code (ascii_of_N (code "0" + k)) - code "0")%N = k.
Proof.
  intros H.
  assert (C : (k = 0 \/ k = 1 \/ k = 2 \/ k = 3 \/ k = 4 \/ k = 5 \/ k = 6
               \/ k = 7 \/ k = 8 \/ k = 9)%N) by lia.
  repeat (destruct C as [-> | C]; [split; reflexivity|]).
  subst k. split; reflexivity.
Qed.

Lemma decimal_digits_digits (fuel : nat) :
  forall n acc,
    Forall (fun x => is_digit x = true) acc ->
    Forall (fun x => is_digit x = true) (decimal_digits fuel n acc).
Proof.
  induction fuel as [|fuel IH]; intros n acc H; cbn [decimal_digits]; [exact H|].
  assert (D : Forall (fun x => is_digit x = true)
                (ascii_of_N (code "0" + n mod 10) :: acc)).
  { constructor; [|exact H]. apply digit_char. apply N.mod_lt. discriminate. }
  destruct (n / 10 =? 0)%N; [exact D | apply IH, D].
Qed.

Lemma decimal_digits_nonempty (fuel : nat) :
  forall n acc, decimal_digits (S fuel) n acc <> [].
Proof.
  induction fuel as [|fuel IH]; intros n acc; cbn [decimal_digits].
  - destruct (n / 10 =? 0)%N; discriminate.
  - destruct (n / 10 =? 0)%N; [discriminate|].
    apply IH.
Qed.

Lemma read_digits_cons_digit (c : ascii) (s : bytes) (a : option Z) :
  is_digit c = true ->
  read_digits (c :: s) a
  = read_digits s (Some (acc_value a * 10 + Z.of_N (code c - code "0"))%Z).
Proof.
  intros H. cbn [read_digits]. unfold is_digit in H. rewrite H.
  destruct a; reflexivity.
Qed.

(** Reading back the digits written for [n]: the number read so far is
    shifted left and [n] is added. *)
Lemma read_decimal_digits (fuel : nat) :
  forall (n : N) (acc : bytes) (a : option Z),
    (n < 10 ^ N.of_nat fuel)%N -> 0 < fuel ->
    exists m : Z,
      read_digits (decimal_digits fuel n acc) a
      = read_digits acc (Some (acc_value a * m + Z.of_N n)%Z).
Proof.
  induction fuel as [|fuel IH]; intros n acc a Hn Hf; [lia|].
  cbn [decimal_digits].
  assert (Hm : (n mod 10 < 10)%N) by (apply N.mod_lt; discriminate).
  destruct (digit_char _ Hm) as [D1 D2].
  pose proof (N.div_mod n 10 ltac:(discriminate)) as E.
  destruct (n / 10 =? 0)%N eqn:Q.
  - apply N.eqb_eq in Q. exists 10%Z.
    rewrite read_digits_cons_digit by exact D1. rewrite D2.
    do 3 f_equal. lia.
  - apply N.eqb_neq in Q.
    assert (Hq : (n / 10 < 10 ^ N.of_nat fuel)%N).
    { apply N.Div0.div_lt_upper_bound.
      rewrite Nat2N.inj_succ, N.pow_succ_r' in Hn. exact Hn. }
    assert (Hf' : 0 < fuel).
    { destruct fuel; [|lia]. simpl in Hq. lia. }
    destruct (IH (n / 10)%N (ascii_of_N (code "0" + n mod 10) :: acc) a Hq Hf')
      as [m Hr].
    exists (m * 10)%Z. rewrite Hr.
    rewrite read_digits_cons_digit by exact D1. rewrite D2.
    cbn [acc_value]. do 2 f_equal. lia.
Qed.

Lemma read_digits_stop (s : bytes) (a : option Z) :
  match s with [] => True | c :: _ => is_digit c = false end ->
  read_digits s a = a.
Proof.
  destruct s as [|c s]; [reflexivity|]. intros H. cbn [read_digits].
  unfold is_digit in H. rewrite H. reflexivity.
Qed.

Lemma print_port_digits (p : Z) :
  Forall (fun x => is_digit x = true) (print_port p).
Proof. apply decimal_digits_digits. constructor. Qed.

Lemma print_port_nonempty (p : Z) : print_port p <> [].
Proof. apply decimal_digits_nonempty. Qed.

Lemma digit_not_space_or_sign :
  forall x,
    implb (is_digit x)
      (negb (isspace x) && negb (char_eqb x "-") && negb (char_eqb x "+"))%bool
    = true.
Proof. by_all_bytes. Qed.

Lemma stoi_print_port (p : Z) :
  (0 <= p <= 65535)%Z -> stoi (print_port p) = Some p.
Proof.
  intros Hp. unfold stoi.
  pose proof (print_port_digits p) as D.
  pose proof (print_port_nonempty p) as NE.
  destruct (read_decimal_digits 5 (Z.to_N p) [] None) as [m R]; [| lia |].
  { change (10 ^ N.of_nat 5)%N with 100000%N. lia. }
  fold (print_port p) in R.
  destruct (print_port p) as [|c s] eqn:E; [congruence|].
  inversion D as [|? ? Dc Ds]; subst.
  pose proof (digit_not_space_or_sign c) as F. rewrite Dc in F. simpl in F.
  apply andb_true_iff in F. destruct F as [F F3].
  apply andb_true_iff in F. destruct F as [F1 F2].
  apply negb_true_iff in F1, F2, F3.
  cbn [skip_spaces]. rewrite F1, F2, F3, R.
  cbn [read_digits acc_value]. rewrite Z2N.id by lia.
  replace (0 * m + p)%Z with p by lia.
  destruct ((p <? -2147483648) || (2147483647 <? p))%Z%bool eqn:B;
    [|reflexivity].
  apply orb_true_iff in B. destruct B as [B | B]; apply Z.ltb_lt in B; lia.
Qed.

(** ** Writing and reading the path *)

Lemma find_Some_lt (c : ascii) (s : bytes) :
  forall i, find c s = Some i -> i < length s.
Proof.
  induction s as [|x s IH]; intros i H; [discriminate|].
  cbn [find] in H. destruct (char_eqb x c).
  - injection H as <-. cbn. lia.
  - destruct (find c s) as [j|]; [|discriminate].
    injection H as <-. cbn. specialize (IH j eq_refl). lia.
Qed.

(** The fuel [ParsePath] gives its loop is enough: any larger amount
    yields the same segments. *)
Lemma ParsePath_split_fuel (fuel : nat) :
  forall fuel' s acc,
    length s < fuel -> length s < fuel' ->
    ParsePath_split fuel s acc = ParsePath_split fuel' s acc.
Proof.
  induction fuel as [|fuel IH]; intros fuel' s acc H H'; [lia|].
  destruct fuel' as [|fuel']; [lia|].
  cbn [ParsePath_split]. destruct (find "/" s) as [d|] eqn:F; [|reflexivity].
  apply find_Some_lt in F.
  apply IH; unfold substr_from; rewrite length_skipn; lia.
Qed.

Lemma GenerateString_path_join (segs : list bytes) :
  forall i,
    GenerateString_path segs i (i + length segs)
    = join (encode_segments segs).
Proof.
  induction segs as [|s rest IH]; intros i; [reflexivity|].
  cbn [GenerateString_path encode_segments map join length].
  replace (i + S (length rest)) with (S i + length rest) by lia.
  rewrite IH.
  destruct rest as [|t rest].
  - cbn [length encode_segments map join].
    replace (i + 1 <? S i + 0) with false
      by (symmetry; apply Nat.ltb_ge; lia).
    rewrite !app_nil_r. reflexivity.
  - cbn [length].
    replace (i + 1 <? S i + S (length rest)) with true
      by (symmetry; apply Nat.ltb_lt; lia).
    reflexivity.
Qed.

Lemma join_length (segs : list bytes) : length segs <= S (length (join segs)).
Proof.
  induction segs as [|s rest IH]; [simpl; lia|].
  destruct rest as [|t rest]; [simpl; lia|].
  change (join (s :: t :: rest)) with (s ++ "/" :: join (t :: rest)).
  rewrite length_app. cbn [length] in *. lia.
Qed.

Lemma ParsePath_split_join (segs : list bytes) :
  segs <> [] -> Forall (avoids "/") segs ->
  forall fuel acc, length segs <= fuel ->
    ParsePath_split fuel (join segs) acc = acc ++ segs.
Proof.
  induction segs as [|s rest IH]; [congruence|].
  intros _ F fuel acc Hf. inversion F as [|? ? Fs Fr]; subst.
  destruct fuel as [|fuel]; [simpl in Hf; lia|].
  destruct rest as [|t rest].
  - cbn [join ParsePath_split]. rewrite (find_avoids _ _ Fs). reflexivity.
  - change (join (s :: t :: rest)) with (s ++ "/" :: join (t :: rest)).
    cbn [ParsePath_split]. rewrite (find_app_found _ _ _ Fs).
    rewrite substr_from_app_S, substr_to_app.
    rewrite IH; [| discriminate | exact Fr | simpl in *; lia].
    rewrite <- app_assoc. reflexivity.
Qed.

Lemma ParsePath_decode_encoded (p : list bytes) :
  ParsePath_decode (encode_segments p) = Some p.
Proof.
  induction p as [|s p IH]; [reflexivity|].
  cbn [encode_segments map ParsePath_decode].
  rewrite DecodeElement_EncodeElement; [| reflexivity | auto].
  fold (encode_segments p). rewrite IH. reflexivity.
Qed.

Lemma encode_segments_avoid_slash (p : list bytes) :
  Forall (avoids "/") (encode_segments p).
Proof.
  induction p as [|s p IH]; [constructor|].
  constructor; [|exact IH].
  apply EncodeElement_avoids. vm_compute. reflexivity.
Qed.

Lemma join_nil (segs : list bytes) :
  join segs = [] -> segs = [] \/ segs = [[]].
Proof.
  destruct segs as [|s [|t rest]]; [auto | simpl; intros ->; auto |].
  change (join (s :: t :: rest)) with (s ++ "/" :: join (t :: rest)).
  intros H. apply app_eq_nil in H. destruct H; discriminate.
Qed.

Lemma join_slash (segs : list bytes) :
  Forall (avoids "/") segs -> join segs = ["/"] -> segs = [[]; []].
Proof.
  intros F. destruct segs as [|s [|t rest]].
  - discriminate.
  - simpl. intros ->. inversion F as [|? ? Fs _]; subst.
    inversion Fs as [|? ? Hc _]; subst. discriminate.
  - change (join (s :: t :: rest)) with (s ++ "/" :: join (t :: rest)).
    inversion F as [|? ? Fs _]; subst.
    destruct s as [|c s].
    + cbn [app]. intros H.
      assert (J : join (t :: rest) = []) by congruence.
      apply join_nil in J.
      destruct J as [J | J]; [discriminate | inversion J; reflexivity].
    + cbn [app]. intros H. inversion H as [[Hc Hs]]. subst c.
      inversion Fs as [|? ? Hc _]; subst. discriminate.
Qed.

Lemma encode_segments_two_empty (p : list bytes) :
  encode_segments p = [[]; []] -> p = [[]; []].
Proof.
  destruct p as [|a [|b [|c p]]]; try discriminate.
  cbn [encode_segments map]. intros H. injection H as Ha Hb.
  apply EncodeElement_nil in Ha, Hb. subst. reflexivity.
Qed.

Lemma path_text_join (p : list bytes) :
  p <> [[]] -> path_text p = join (encode_segments p).
Proof.
  intros H. unfold path_text.
  change (length p) with (0 + length p) at 2.
  rewrite (GenerateString_path_join p 0).
  destruct p as [|a [|b p]]; [reflexivity | |].
  - destruct a; [exfalso; apply H; reflexivity | reflexivity].
  - cbn [length Nat.eqb]. rewrite andb_false_r. reflexivity.
Qed.

(** Parsing the written path gives the path back, except for the path
    of two empty segments, which is written like the path of one. *)
Lemma ParsePath_path_text (p : list bytes) (u : Uri) :
  p <> [[]; []] -> ParsePath (path_text p) u = Some (with_path p u).
Proof.
  intros H2. unfold ParsePath.
  destruct (list_eq_dec (list_eq_dec ascii_dec) p [[]]) as [-> | H1];
    [reflexivity|].
  rewrite path_text_join by exact H1.
  destruct (bytes_eqb (join (encode_segments p)) (str "/")) eqn:E.
  { apply bytes_eqb_eq in E.
    apply join_slash in E; [|apply encode_segments_avoid_slash].
    apply encode_segments_two_empty in E. contradiction. }
  destruct (empty (join (encode_segments p))) eqn:N; cbn [negb].
  { apply empty_true in N. apply join_nil in N. destruct N as [N | N].
    - destruct p; [reflexivity | discriminate].
    - destruct p as [|a [|b p]]; try discriminate.
      cbn [encode_segments map] in N. injection N as Ha.
      apply EncodeElement_nil in Ha. subst. exfalso. apply H1. reflexivity. }
  rewrite ParsePath_split_join.
  - cbn [app]. rewrite ParsePath_decode_encoded. reflexivity.
  - intros Hn. rewrite Hn in N. discriminate.
  - apply encode_segments_avoid_slash.
  - apply join_length.
Qed.

Lemma path_text_avoids (p : list bytes) (c : ascii) :
  never_written PCHAR_NOT_PCT_ENCODED c = true -> char_eqb "/" c = false ->
  avoids c (path_text p).
Proof.
  intros Hw Hs. unfold path_text. apply avoids_app. split.
  - destruct (IsPathAbsolute p && (length p =? 1))%bool; repeat constructor.
    exact Hs.
  - generalize 0 (length p). induction p as [|s p IH]; intros i n.
    + constructor.
    + cbn [GenerateString_path]. apply avoids_app. split.
      * apply EncodeElement_avoids, Hw.
      * apply avoids_app. split; [|apply IH].
        destruct (i + 1 <? n); repeat constructor. exact Hs.
Qed.

(** The written path is empty or starts with ['/'] when the path is
    empty or absolute. *)
Lemma path_text_absolute (p : list bytes) :
  IsPathAbsolute p = true -> exists t, path_text p = "/" :: t.
Proof.
  destruct p as [|a p]; [discriminate|]. simpl. intros H.
  apply bytes_eqb_eq in H. subst a.
  destruct p as [|b p]; [exists []; reflexivity|].
  unfold path_text. simpl. eexists. reflexivity.
Qed.

(** ** The characters of an accepted IPv6 address *)

Lemma within_spec (C P : ascii -> bool) :
  within C P = true -> forall x, C x = true -> P x = true.
Proof.
  intros H x Hx. pose proof (forall_ascii _ H x) as I. cbv beta in I.
  rewrite Hx in I. exact I.
Qed.

Lemma Forall_within (C P : ascii -> bool) (s : bytes) :
  within C P = true ->
  Forall (fun x => C x = true) s -> Forall (fun x => P x = true) s.
Proof.
  intros H. apply Forall_impl. apply within_spec, H.
Qed.

Lemma ValidateIpv4Address_loop_chars (address : bytes) :
  forall n st buf r,
    st <= 1 ->
    ValidateIpv4Address_loop address n st buf = Some r ->
    Forall (fun x => ipv6_char x = true) address.
Proof.
  induction address as [|c rest IH]; intros n st buf r Hst H; [constructor|].
  cbn [ValidateIpv4Address_loop] in H.
  assert (D : Contains DIGIT c = true -> ipv6_char c = true).
  { apply (within_spec (Contains DIGIT)). vm_compute. reflexivity. }
  destruct st as [|[|st]]; [| |lia].
  - destruct (Contains DIGIT c) eqn:Hc; [|discriminate].
    constructor; [auto|]. eapply IH; [|exact H]. lia.
  - destruct (char_eqb c ".") eqn:Hd.
    + destruct (4 <=? n); [discriminate|].
      destruct (negb (ValidateOctet buf)); [discriminate|].
      constructor; [|eapply IH; [|exact H]; lia].
      unfold ipv6_char. rewrite Hd. apply orb_true_r.
    + destruct (Contains DIGIT c) eqn:Hc; [|discriminate].
      constructor; [auto|]. eapply IH; [|exact H]. lia.
Qed.

Lemma ValidateIpv4Address_chars (address : bytes) :
  ValidateIpv4Address address = true ->
  Forall (fun x => ipv6_char x = true) address.
Proof.
  unfold ValidateIpv4Address.
  destruct (ValidateIpv4Address_loop address 0 0 []) as [r|] eqn:E;
    [|discriminate].
  intros _. eapply ValidateIpv4Address_loop_chars; [|exact E]. lia.
Qed.

(** What one pass through the [switch] guarantees. *)
Lemma Ipv6_switch_facts (s s' : Ipv6Scan) (c : ascii) :
  Ipv6_switch s c = Some s' ->
  ipv6_char c = true
  /\ position s' = position s
  /\ (potentialIpv4AddressStart s <= position s ->
      potentialIpv4AddressStart s' <= position s').
Proof.
  assert (D : forall x, Contains DIGIT x = true -> Contains HEXDIG x = true).
  { apply (within_spec (Contains DIGIT)). vm_compute. reflexivity. }
  unfold Ipv6_switch, bump_digit, ipv6_char. intros H.
  destruct (state s);
    repeat match type of H with
           | context [if ?b then _ else _] => destruct b eqn:?
           end;
    try discriminate; inversion H; subst; clear H;
    (split;
     [ repeat match goal with
              | E : Contains DIGIT c = true |- _ => apply D in E
              end;
       repeat match goal with
              | E : _ = true |- _ => rewrite E; clear E
              end;
       rewrite ?orb_true_r; reflexivity
     | cbn; split; [reflexivity | intros; lia] ]).
Qed.

Lemma ValidateIpv6Address_loop_chars (address : bytes) :
  forall s s',
    ValidateIpv6Address_loop address s = Some s' ->
    potentialIpv4AddressStart s <= position s ->
    potentialIpv4AddressStart s' <= position s'
    /\ position s <= position s'
    /\ Forall (fun x => ipv6_char x = true)
         (firstn (position s' - position s) address)
    /\ (ipv4AddressEncountered s' = false ->
        Forall (fun x => ipv6_char x = true) address).
Proof.
  induction address as [|c rest IH]; intros s s' H Hs.
  - cbn in H. injection H as <-.
    split; [exact Hs|]. split; [lia|]. split; [|constructor].
    rewrite firstn_nil. constructor.
  - cbn [ValidateIpv6Address_loop] in H.
    destruct (Ipv6_switch s c) as [s1|] eqn:E; [|discriminate].
    destruct (Ipv6_switch_facts _ _ _ E) as (Hc & Hp & Hq).
    specialize (Hq Hs).
    destruct (ipv4AddressEncountered s1) eqn:F.
    + injection H as <-. rewrite Hp, Nat.sub_diag.
      split; [lia|]. split; [lia|]. split; [constructor|].
      intros F'. congruence.
    + apply IH in H; [|cbn; lia]. cbn in H.
      destruct H as (H1 & H2 & H3 & H4).
      split; [exact H1|]. split; [lia|]. split.
      * replace (position s' - position s)
          with (S (position s' - S (position s1))) by lia.
        cbn [firstn]. constructor; assumption.
      * intros F'. constructor; auto.
Qed.

Lemma Forall_firstn_skipn {A} (P : A -> Prop) (l : list A) :
  forall n m, m <= n ->
    Forall P (firstn n l) -> Forall P (skipn m l) -> Forall P l.
Proof.
  induction l as [|x l IH]; intros n m Hmn Hf Hs; [constructor|].
  destruct m as [|m]; [exact Hs|].
  destruct n as [|n]; [lia|].
  cbn in Hf, Hs. inversion Hf; subst.
  constructor; [assumption|]. apply (IH n m); [lia | assumption | assumption].
Qed.

Lemma ValidateIpv6Address_chars (address : bytes) :
  ValidateIpv6Address address = true ->
  address <> [] /\ Forall (fun x => ipv6_char x = true) address.
Proof.
  intros H. split; [intros ->; discriminate|].
  unfold ValidateIpv6Address in H.
  destruct (ValidateIpv6Address_loop address Ipv6Scan_init) as [s|] eqn:E;
    [|discriminate].
  apply ValidateIpv6Address_loop_chars in E; [|cbn; lia].
  destruct E as (E1 & _ & E3 & E4). cbn [position Ipv6Scan_init] in E3.
  rewrite Nat.sub_0_r in E3.
  destruct (ipv4AddressEncountered s) eqn:F; [|auto].
  set (s1 := if (ValidationState_eqb (state s) IN_GROUP_NOT_IPV4
                 || ValidationState_eqb (state s) IN_GROUP_COULD_BE_IPV4)%bool
             then set_numGroups (S (numGroups s)) s else s) in H.
  assert (S1 : ipv4AddressEncountered s1 = true
               /\ potentialIpv4AddressStart s1 = potentialIpv4AddressStart s).
  { subst s1. destruct (_ || _)%bool; cbn; auto. }
  destruct S1 as [S1 S2]. cbv zeta in H. rewrite S1, S2 in H.
  destruct ((position s1 =? length address) && _)%bool; [discriminate|].
  destruct (ValidateIpv4Address
              (substr_from (potentialIpv4AddressStart s) address)) eqn:V;
    [|discriminate].
  apply ValidateIpv4Address_chars in V.
  eapply Forall_firstn_skipn; [exact E1 | exact E3 | exact V].
Qed.

(** ** The pieces of the written string *)

Lemma GenerateString_parts (u : Uri) :
  GenerateString u
  = scheme_text u
    ++ (if HasAuthority u then str "//" ++ authority_text u else [])
    ++ path_text (path u) ++ query_text u ++ fragment_text u.
Proof.
  unfold GenerateString, scheme_text, authority_text, userInfo_text,
    host_text, port_text, path_text, query_text, fragment_text.
  rewrite <- (app_assoc (if (IsPathAbsolute _ && _)%bool then _ else _)).
  reflexivity.
Qed.

#[local] Arguments Contains : simpl never.
#[local] Arguments char_eqb : simpl never.
#[local] Arguments ValidateIpv6Address : simpl never.
#[local] Arguments NextEncodedCharacter : simpl never.
#[local] Arguments MakeHexDigit : simpl never.
#[local] Arguments print_port : simpl never.
#[local] Arguments lowercase : simpl never.

(** ** Scanning the written host and port *)

Lemma Host_loop_port (digits : bytes) :
  forall h pec r ps,
    Host_loop digits (Build_HostScan PORT h pec r ps)
    = Some (Build_HostScan PORT h pec r (ps ++ digits)).
Proof.
  induction digits as [|d digits IH]; intros h pec r ps.
  - rewrite app_nil_r. reflexivity.
  - cbn. unfold push_port. cbn. rewrite IH, <- app_assoc. reflexivity.
Qed.

Lemma Host_loop_ipv6 (h tail : bytes) :
  avoids "]" h ->
  forall acc pec r ps,
    Host_loop (h ++ tail) (Build_HostScan IPV6_ADDRESS acc pec r ps)
    = Host_loop tail (Build_HostScan IPV6_ADDRESS (acc ++ h) pec r ps).
Proof.
  induction 1 as [|c h Hc _ IH]; intros acc pec r ps.
  - rewrite app_nil_r. reflexivity.
  - cbn. unfold case_IPV6_ADDRESS. rewrite Hc. unfold push_host. cbn.
    rewrite IH, <- app_assoc. reflexivity.
Qed.

Ltac scan_fields :=
  unfold Host_switch, case_NOT_IP_LITERAL, case_IPV6_ADDRESS,
    set_hostParsingState, set_pecDecoder, set_hostIsRegName,
    push_host, push_port;
  cbn [hostParsingState scanHost pecDecoder hostIsRegName portString].

Lemma Host_loop_cons (c : ascii) (rest : bytes) (s : HostScan) :
  Host_loop (c :: rest) s
  = match Host_switch s c with
    | None => None
    | Some s' => Host_loop rest s'
    end.
Proof. reflexivity. Qed.

Lemma Host_switch_percent acc pec r ps :
  Host_switch (Build_HostScan NOT_IP_LITERAL acc pec r ps) "%"
  = Some (Build_HostScan PERCENT_ENCODED_CHARACTER acc newDecoder r ps).
Proof. reflexivity. Qed.

Lemma Host_switch_first_digit acc pec r ps x d1 :
  NextEncodedCharacter pec x = Some d1 -> Done d1 = false ->
  Host_switch (Build_HostScan PERCENT_ENCODED_CHARACTER acc pec r ps) x
  = Some (Build_HostScan PERCENT_ENCODED_CHARACTER acc d1 r ps).
Proof. intros H1 H2. scan_fields. rewrite H1, H2. reflexivity. Qed.

Lemma Host_switch_second_digit acc pec r ps x d2 :
  NextEncodedCharacter pec x = Some d2 -> Done d2 = true ->
  Host_switch (Build_HostScan PERCENT_ENCODED_CHARACTER acc pec r ps) x
  = Some (Build_HostScan NOT_IP_LITERAL (acc ++ [GetDecodedCharacter d2])
            d2 r ps).
Proof. intros H1 H2. scan_fields. rewrite H1, H2. reflexivity. Qed.

Lemma Host_switch_plain acc pec r ps x :
  Contains REG_NAME_NOT_PCT_ENCODED x = true ->
  Host_switch (Build_HostScan NOT_IP_LITERAL acc pec r ps) x
  = Some (Build_HostScan NOT_IP_LITERAL (acc ++ [x]) pec r ps).
Proof.
  intros Hc. scan_fields.
  assert (P : forall y,
             implb (Contains REG_NAME_NOT_PCT_ENCODED y)
               (negb (char_eqb y "%") && negb (char_eqb y ":"))%bool = true)
    by by_all_bytes.
  specialize (P x). rewrite Hc in P. cbn [implb] in P.
  apply andb_true_iff in P. destruct P as [P1 P2].
  apply negb_true_iff in P1, P2. rewrite P1, P2, Hc. reflexivity.
Qed.

Lemma Host_switch_colon st acc pec r ps :
  st = NOT_IP_LITERAL \/ st = GARBAGE_CHECK ->
  Host_switch (Build_HostScan st acc pec r ps) ":"
  = Some (Build_HostScan PORT acc pec r ps).
Proof. intros [-> | ->]; reflexivity. Qed.

Lemma reg_name_char_plain :
  forall x,
    implb (Contains REG_NAME_NOT_PCT_ENCODED x)
      (negb (char_eqb x "%") && negb (char_eqb x ":")
       && negb (char_eqb x "["))%bool = true.
Proof. by_all_bytes. Qed.

Lemma Host_loop_reg_name (h tail : bytes) :
  forall acc pec r ps,
    exists pec',
      Host_loop (EncodeElement h REG_NAME_NOT_PCT_ENCODED ++ tail)
        (Build_HostScan NOT_IP_LITERAL acc pec r ps)
      = Host_loop tail (Build_HostScan NOT_IP_LITERAL (acc ++ h) pec' r ps).
Proof.
  induction h as [|c h IH]; intros acc pec r ps.
  - exists pec. rewrite app_nil_r. reflexivity.
  - cbn [EncodeElement].
    destruct (Contains REG_NAME_NOT_PCT_ENCODED c) eqn:Hc.
    + destruct (IH (acc ++ [c]) pec r ps) as [pec' E].
      exists pec'. cbn [app]. rewrite Host_loop_cons.
      rewrite (Host_switch_plain _ _ _ _ _ Hc), E, <- app_assoc. reflexivity.
    + pose proof (triplet_decodes_all c) as T. unfold triplet_decodes in T.
      destruct (NextEncodedCharacter newDecoder _) as [d1|] eqn:N1;
        [|discriminate].
      apply andb_true_iff in T. destruct T as [T1 T2].
      apply negb_true_iff in T1.
      destruct (NextEncodedCharacter d1 _) as [d2|] eqn:N2; [|discriminate].
      apply andb_true_iff in T2. destruct T2 as [T2 T3].
      apply char_eqb_eq in T3.
      destruct (IH (acc ++ [c]) d2 r ps) as [pec' E].
      exists pec'. cbn [app].
      rewrite Host_loop_cons, Host_switch_percent.
      rewrite Host_loop_cons, (Host_switch_first_digit _ _ _ _ _ _ N1 T1).
      rewrite Host_loop_cons, (Host_switch_second_digit _ _ _ _ _ _ N2 T2).
      rewrite T3, E, <- app_assoc. reflexivity.
Qed.

Lemma ipv6_char_plain :
  forall x,
    implb (ipv6_char x) (negb (char_eqb x "v") && negb (char_eqb x "]"))%bool
    = true.
Proof. by_all_bytes. Qed.

Lemma Host_switch_open_bracket :
  Host_switch HostScan_init "["
  = Some (Build_HostScan IP_LITERAL [] newDecoder false []).
Proof. reflexivity. Qed.

Lemma Host_switch_literal_first x :
  char_eqb x "v" = false -> char_eqb x "]" = false ->
  Host_switch (Build_HostScan IP_LITERAL [] newDecoder false []) x
  = Some (Build_HostScan IPV6_ADDRESS [x] newDecoder false []).
Proof. intros H1 H2. scan_fields. rewrite H1, H2. reflexivity. Qed.

Lemma Host_switch_close_bracket acc pec r ps :
  ValidateIpv6Address acc = true ->
  Host_switch (Build_HostScan IPV6_ADDRESS acc pec r ps) "]"
  = Some (Build_HostScan GARBAGE_CHECK acc pec r ps).
Proof.
  intros V. scan_fields. change (char_eqb "]" "]") with true.
  cbn [negb]. rewrite V. reflexivity.
Qed.

Lemma Host_switch_first_reg x :
  char_eqb x "[" = false ->
  Host_switch HostScan_init x
  = Host_switch (Build_HostScan NOT_IP_LITERAL [] newDecoder true []) x.
Proof.
  intros H. unfold Host_switch at 1.
  cbn [hostParsingState HostScan_init]. rewrite H. reflexivity.
Qed.

Lemma Host_switch_first_colon :
  Host_switch HostScan_init ":"
  = Some (Build_HostScan PORT [] newDecoder true []).
Proof. reflexivity. Qed.

(** The port text, scanned from a state that accepts a port. *)
Lemma Host_loop_port_text (u : Uri) st acc pec r :
  st = NOT_IP_LITERAL \/ st = GARBAGE_CHECK ->
  exists s,
    Host_loop (port_text u) (Build_HostScan st acc pec r []) = Some s
    /\ final_state_ok (hostParsingState s) = true
    /\ scanHost s = acc /\ hostIsRegName s = r
    /\ portString s = if hasPort u then print_port (port u) else [].
Proof.
  intros Hst. unfold port_text. destruct (hasPort u).
  - eexists. split.
    + cbn [app]. rewrite Host_loop_cons, (Host_switch_colon _ _ _ _ _ Hst).
      apply Host_loop_port.
    + cbn. auto.
  - eexists. split; [reflexivity|].
    cbn. destruct Hst as [-> | ->]; auto.
Qed.

Lemma host_port_scan (u : Uri) :
  lowercase (host u) = host u ->
  exists s,
    Host_loop (host_text u ++ port_text u) HostScan_init = Some s
    /\ scan_result u s.
Proof.
  intros L. unfold host_text, scan_result.
  destruct (host u) as [|h0 hs] eqn:Hh; cbn [empty negb].
  - (* no host *)
    cbn [app]. unfold port_text. destruct (hasPort u).
    + eexists. split.
      * cbn [app]. rewrite Host_loop_cons, Host_switch_first_colon.
        apply Host_loop_port.
      * cbn. auto.
    + eexists. split; [reflexivity|]. cbn. auto.
  - destruct (ValidateIpv6Address (h0 :: hs)) eqn:V.
    + (* an IPv6 literal *)
      rewrite L.
      destruct (ValidateIpv6Address_chars _ V) as [_ F].
      assert (A : avoids "]" (h0 :: hs)).
      { eapply Forall_impl; [|exact F]. intros x Hx.
        pose proof (ipv6_char_plain x) as P. rewrite Hx in P. cbn in P.
        apply andb_true_iff in P. destruct P as [_ P].
        apply negb_true_iff in P. exact P. }
      assert (Hv : char_eqb h0 "v" = false).
      { inversion F as [|? ? Hx _]; subst.
        pose proof (ipv6_char_plain h0) as P. rewrite Hx in P. cbn in P.
        apply andb_true_iff in P. destruct P as [P _].
        apply negb_true_iff in P. exact P. }
      inversion A as [|? ? A0 A1]; subst.
      destruct (Host_loop_port_text u GARBAGE_CHECK (h0 :: hs) newDecoder
                  false (or_intror eq_refl)) as (s & E & S1 & S2 & S3 & S4).
      exists s. split.
      * cbn [app]. rewrite Host_loop_cons, Host_switch_open_bracket.
        rewrite Host_loop_cons, (Host_switch_literal_first _ Hv A0).
        rewrite <- app_assoc, (Host_loop_ipv6 _ _ A1).
        cbn [app]. rewrite Host_loop_cons, (Host_switch_close_bracket _ _ _ _ V).
        exact E.
      * rewrite S3, S2. auto.
    + (* a registered name *)
      destruct (Host_loop_reg_name (h0 :: hs) (port_text u)
                  [] newDecoder true []) as [pec' E].
      destruct (Host_loop_port_text u NOT_IP_LITERAL (h0 :: hs) pec'
                  true (or_introl eq_refl)) as (s & E' & S1 & S2 & S3 & S4).
      exists s. split.
      * cbn [app] in E. rewrite <- E', <- E.
        destruct (EncodeElement (h0 :: hs) REG_NAME_NOT_PCT_ENCODED)
          as [|x r] eqn:Ex.
        { apply EncodeElement_nil in Ex. discriminate. }
        assert (Hx : char_eqb x "[" = false).
        { pose proof (EncodeElement_avoids REG_NAME_NOT_PCT_ENCODED "["
                        (h0 :: hs) ltac:(vm_compute; reflexivity)) as A.
          rewrite Ex in A. inversion A; assumption. }
        cbn [app]. rewrite !Host_loop_cons, (Host_switch_first_reg _ Hx).
        reflexivity.
      * rewrite S3, S2. auto.
Qed.

(** ** Parsing the written authority *)

Lemma host_text_chars (u : Uri) :
  lowercase (host u) = host u ->
  Forall (fun x => plain_authority_char x = true) (host_text u).
Proof.
  intros L. unfold host_text.
  destruct (negb (empty (host u))); [|constructor].
  destruct (ValidateIpv6Address (host u)) eqn:V.
  - rewrite L. apply Forall_app. split; [repeat constructor|].
    apply Forall_app. split; [|repeat constructor].
    apply (Forall_within ipv6_char); [vm_compute; reflexivity|].
    apply ValidateIpv6Address_chars, V.
  - apply EncodeElement_Forall. vm_compute. reflexivity.
Qed.

Lemma port_text_chars (u : Uri) :
  Forall (fun x => plain_authority_char x = true) (port_text u).
Proof.
  unfold port_text. destruct (hasPort u); [|constructor].
  apply Forall_app. split; [repeat constructor|].
  apply (Forall_within is_digit); [vm_compute; reflexivity|].
  apply print_port_digits.
Qed.

Lemma userInfo_chars (s : bytes) :
  Forall (fun x => plain_authority_char x = true)
    (EncodeElement s USER_INFO_NOT_PCT_ENCODED).
Proof. apply EncodeElement_Forall. vm_compute. reflexivity. Qed.

Lemma plain_authority_avoids (c : ascii) (s : bytes) :
  existsb (char_eqb c) (str "/?#@") = true ->
  Forall (fun x => plain_authority_char x = true) s -> avoids c s.
Proof.
  intros Hc. apply Forall_impl. intros x Hx.
  destruct (char_eqb x c) eqn:E; [|reflexivity].
  apply char_eqb_eq in E. subst x.
  unfold plain_authority_char in Hx. rewrite Hc in Hx. discriminate.
Qed.

Lemma authority_text_chars (u : Uri) (c : ascii) :
  lowercase (host u) = host u ->
  existsb (char_eqb c) (str "/?#") = true ->
  avoids c (authority_text u).
Proof.
  intros L Hc.
  assert (Hc' : existsb (char_eqb c) (str "/?#@") = true).
  { apply existsb_exists in Hc. destruct Hc as (x & Hin & Hx).
    apply existsb_exists. exists x. split; [|exact Hx].
    cbn in Hin |- *. tauto. }
  assert (Hat : char_eqb "@" c = false).
  { destruct (char_eqb "@" c) eqn:E; [|reflexivity].
    apply char_eqb_eq in E. subst c. discriminate. }
  unfold authority_text. apply avoids_app. split; [|apply avoids_app; split].
  - unfold userInfo_text. destruct (negb (empty (userInfo u))); [|constructor].
    apply avoids_app. split; [|repeat constructor; exact Hat].
    apply (plain_authority_avoids _ _ Hc'), userInfo_chars.
  - apply (plain_authority_avoids _ _ Hc'), host_text_chars, L.
  - apply (plain_authority_avoids _ _ Hc'), port_text_chars.
Qed.

Lemma ParseAuthority_hostPort_written (u u1 : Uri) :
  lowercase (host u) = host u ->
  (hasPort u = true -> (0 <= port u <= 65535)%Z) ->
  exists u2,
    ParseAuthority_hostPort (host_text u ++ port_text u) u1 = Some u2
    /\ host u2 = host u /\ hasPort u2 = hasPort u
    /\ (hasPort u = true -> port u2 = port u)
    /\ userInfo u2 = userInfo u1 /\ scheme u2 = scheme u1.
Proof.
  intros L P. unfold ParseAuthority_hostPort.
  destruct (host_port_scan u L) as (s & E & S1 & S2 & S3).
  rewrite E.
  assert (K : forall (k : option Uri),
             match hostParsingState s with
             | FIRST_CHARACTER | NOT_IP_LITERAL | GARBAGE_CHECK | PORT => k
             | _ => None
             end = k).
  { intros k. destruct (hostParsingState s); try reflexivity; discriminate. }
  rewrite K, S2, S3. clear K.
  destruct (hasPort u) eqn:HP.
  - specialize (P eq_refl).
    destruct (print_port (port u)) eqn:PP;
      [exfalso; exact (print_port_nonempty _ PP)|].
    cbn [empty]. rewrite <- PP, (stoi_print_port _ P).
    replace ((port u <? 0) || (65535 <? port u))%Z%bool with false.
    + eexists. split; [reflexivity|]. cbn. auto.
    + symmetry. apply orb_false_iff. split; apply Z.ltb_ge; lia.
  - cbn [empty]. eexists. split; [reflexivity|]. cbn.
    repeat split; auto. discriminate.
Qed.

Lemma ParseAuthority_written (u u1 : Uri) :
  lowercase (host u) = host u ->
  (hasPort u = true -> (0 <= port u <= 65535)%Z) ->
  exists u2,
    ParseAuthority (authority_text u) u1 = Some u2
    /\ userInfo u2 = userInfo u /\ host u2 = host u
    /\ hasPort u2 = hasPort u
    /\ (hasPort u = true -> port u2 = port u)
    /\ scheme u2 = scheme u1.
Proof.
  intros L P. unfold ParseAuthority, authority_text, userInfo_text.
  assert (A : avoids "@" (host_text u ++ port_text u)).
  { apply avoids_app. split;
      apply (plain_authority_avoids "@"); try reflexivity;
      [apply host_text_chars, L | apply port_text_chars]. }
  destruct (userInfo u) as [|i0 ui] eqn:U; cbn [empty negb].
  - cbn [app]. rewrite (find_avoids _ _ A).
    destruct (ParseAuthority_hostPort_written u (with_userInfo [] u1) L P)
      as (u2 & E & H1 & H2 & H3 & H4 & H5).
    exists u2. rewrite E. repeat split; auto.
  - rewrite <- app_assoc. cbn [app].
    rewrite find_app_found
      by (apply (plain_authority_avoids "@"); [reflexivity|];
          apply userInfo_chars).
    rewrite substr_to_app, substr_from_app_S.
    rewrite DecodeElement_EncodeElement; [| reflexivity | auto].
    destruct (ParseAuthority_hostPort_written u
                (with_userInfo (i0 :: ui) (with_userInfo [] u1)) L P)
      as (u2 & E & H1 & H2 & H3 & H4 & H5).
    exists u2. rewrite E. repeat split; auto.
Qed.

(** ** The scheme *)

Lemma FailsMatch_scheme_chars (sc : bytes) :
  forall b,
    FailsMatch sc LegalSchemeCheckStrategy b = false ->
    Forall (fun x => Contains SCHEME_NOT_FIRST x = true) sc
    /\ (b = true -> sc <> []).
Proof.
  induction sc as [|c sc IH]; intros b H.
  - cbn in H. destruct b; [discriminate|]. split; [constructor | discriminate].
  - cbn [FailsMatch LegalSchemeCheckStrategy] in H.
    destruct (if b then Contains ALPHA c else Contains SCHEME_NOT_FIRST c)
      eqn:C; [|discriminate].
    apply IH in H. destruct H as [H _].
    split; [|discriminate]. constructor; [|exact H].
    destruct b; [|exact C].
    revert C. apply (within_spec (Contains ALPHA)). vm_compute. reflexivity.
Qed.

Lemma tolower_keeps_scheme_class :
  forall c,
    (implb (Contains ALPHA c) (Contains ALPHA (tolower c))
     && implb (Contains SCHEME_NOT_FIRST c)
          (Contains SCHEME_NOT_FIRST (tolower c)))%bool = true.
Proof. by_all_bytes. Qed.

Lemma FailsMatch_lowercase (sc : bytes) :
  forall b,
    FailsMatch sc LegalSchemeCheckStrategy b = false ->
    FailsMatch (lowercase sc) LegalSchemeCheckStrategy b = false.
Proof.
  induction sc as [|c sc IH]; intros b H; [exact H|].
  change (lowercase (c :: sc)) with (tolower c :: lowercase sc).
  cbn [FailsMatch LegalSchemeCheckStrategy] in H |- *.
  pose proof (tolower_keeps_scheme_class c) as T.
  apply andb_true_iff in T. destruct T as [T1 T2].
  destruct b.
  - destruct (Contains ALPHA c); [|discriminate].
    cbn in T1. rewrite T1. apply IH, H.
  - destruct (Contains SCHEME_NOT_FIRST c); [|discriminate].
    cbn in T2. rewrite T2. apply IH, H.
Qed.

Lemma tolower_idempotent :
  forall c, char_eqb (tolower (tolower c)) (tolower c) = true.
Proof. by_all_bytes. Qed.

Lemma lowercase_idempotent (s : bytes) : lowercase (lowercase s) = lowercase s.
Proof.
  induction s as [|c s IH]; [reflexivity|].
  change (lowercase (c :: s)) with (tolower c :: lowercase s).
  change (lowercase (tolower c :: lowercase s))
    with (tolower (tolower c) :: lowercase (lowercase s)).
  rewrite IH. f_equal. apply char_eqb_eq, tolower_idempotent.
Qed.

Lemma ParseScheme_scheme (s : bytes) (u0 u1 : Uri) (rest : bytes) :
  ParseScheme s u0 = Some (u1, rest) ->
  scheme u1 = [] \/ scheme_ok (scheme u1).
Proof.
  unfold ParseScheme. destruct (schemeEnd s) as [e|].
  - destruct (FailsMatch (substr_to e s) LegalSchemeCheckStrategy true) eqn:F;
      [discriminate|].
    intros H. injection H as <- _. right. cbn. split.
    + apply FailsMatch_lowercase, F.
    + apply lowercase_idempotent.
  - intros H. injection H as <- _. left. reflexivity.
Qed.

Lemma find_firstn_found (c : ascii) (a b : bytes) :
  avoids c a -> forall n, length a < n ->
  find c (firstn n (a ++ c :: b)) = Some (length a).
Proof.
  induction 1 as [|x a Hx _ IH]; intros n Hn.
  - destruct n; [lia|]. cbn. rewrite char_eqb_refl. reflexivity.
  - destruct n; [cbn in Hn; lia|]. cbn [app firstn find length].
    rewrite Hx, IH by (cbn in Hn; lia). reflexivity.
Qed.

Lemma scheme_chars_plain (sc : bytes) (c : ascii) :
  Contains SCHEME_NOT_FIRST c = false ->
  Forall (fun x => Contains SCHEME_NOT_FIRST x = true) sc -> avoids c sc.
Proof.
  intros Hc. apply Forall_impl. intros x Hx.
  destruct (char_eqb x c) eqn:E; [|reflexivity].
  apply char_eqb_eq in E. congruence.
Qed.

(** [ParseScheme] on a written scheme followed by anything. *)
Lemma ParseScheme_written (sc R : bytes) (u1 : Uri) :
  scheme_ok sc ->
  ParseScheme (sc ++ ":" :: R) u1 = Some (with_scheme sc u1, R).
Proof.
  intros [F L].
  destruct (FailsMatch_scheme_chars _ _ F) as [C _].
  pose proof (scheme_chars_plain sc "/" eq_refl C) as A1.
  pose proof (scheme_chars_plain sc ":" eq_refl C) as A2.
  assert (E : schemeEnd (sc ++ ":" :: R) = Some (length sc)).
  { unfold schemeEnd, substr_to. apply find_firstn_found; [exact A2|].
    rewrite (find_app_avoids _ _ _ A1). cbn [find].
    change (char_eqb ":" "/") with false.
    destruct (find "/" R); cbn; [lia|].
    rewrite length_app. cbn. lia. }
  unfold ParseScheme. rewrite E, substr_to_app, substr_from_app_S, F, L.
  reflexivity.
Qed.

(** ** What a successful parse guarantees *)

Lemma ParseAuthority_hostPort_fields (hp : bytes) (u u' : Uri) :
  ParseAuthority_hostPort hp u = Some u' ->
  scheme u' = scheme u
  /\ (hasPort u' = true -> (0 <= port u' <= 65535)%Z).
Proof.
  unfold ParseAuthority_hostPort.
  destruct (Host_loop hp HostScan_init) as [s|]; [|discriminate].
  intros H.
  assert (G : (let parsedHost :=
                 if hostIsRegName s then lowercase (scanHost s)
                 else scanHost s in
               let v := with_host parsedHost u in
               if empty (portString s) then Some (with_hasPort false v)
               else
                 match stoi (portString s) with
                 | None => None
                 | Some portAsInt =>
                   if ((portAsInt <? 0) || (65535 <? portAsInt))%Z%bool
                   then None
                   else Some (with_hasPort true (with_port portAsInt v))
                 end) = Some u').
  { destruct (hostParsingState s); try discriminate; exact H. }
  clear H. cbv zeta in G.
  destruct (empty (portString s)).
  - injection G as <-. cbn. split; [reflexivity | discriminate].
  - destruct (stoi (portString s)) as [p|]; [|discriminate].
    destruct ((p <? 0) || (65535 <? p))%Z%bool eqn:B; [discriminate|].
    injection G as <-. cbn. split; [reflexivity|]. intros _.
    apply orb_false_iff in B. destruct B as [B1 B2].
    apply Z.ltb_ge in B1, B2. lia.
Qed.

Lemma ParseAuthority_fields (a : bytes) (u u' : Uri) :
  ParseAuthority a u = Some u' ->
  scheme u' = scheme u
  /\ (hasPort u' = true -> (0 <= port u' <= 65535)%Z).
Proof.
  unfold ParseAuthority. destruct (find "@" a) as [d|].
  - destruct (DecodeElement _ _) as [decoded|]; [|discriminate].
    intros H. apply ParseAuthority_hostPort_fields in H. exact H.
  - intros H. apply ParseAuthority_hostPort_fields in H. exact H.
Qed.

Lemma find_Some_skipn (c : ascii) (s : bytes) :
  forall i, find c s = Some i -> exists t, skipn i s = c :: t.
Proof.
  induction s as [|x s IH]; intros i H; [discriminate|].
  cbn [find] in H. destruct (char_eqb x c) eqn:E.
  - injection H as <-. apply char_eqb_eq in E. subst x. exists s. reflexivity.
  - destruct (find c s) as [j|]; [|discriminate].
    injection H as <-. cbn [skipn]. apply IH. reflexivity.
Qed.

Lemma SplitAuthority_fields (ap : bytes) (u u' : Uri) (ps : bytes) :
  SplitAuthorityFromPathAndParseIt ap u = Some (u', ps) ->
  scheme u' = scheme u
  /\ (hasPort u' = true -> (0 <= port u' <= 65535)%Z)
  /\ (HasAuthority u' = true -> rooted ps).
Proof.
  unfold SplitAuthorityFromPathAndParseIt.
  destruct (bytes_eqb (substr_to 2 ap) (str "//")).
  - assert (R : rooted (substr_from
                          match find "/" (substr_from 2 ap) with
                          | Some i => i
                          | None => length (substr_from 2 ap)
                          end (substr_from 2 ap))).
    { unfold rooted, substr_from.
      destruct (find "/" (skipn 2 ap)) as [i|] eqn:F.
      - right. apply find_Some_skipn, F.
      - left. apply skipn_all. }
    destruct (ParseAuthority _ u) as [v|] eqn:E; [|discriminate].
    intros H. injection H as <- <-.
    apply ParseAuthority_fields in E. destruct E as [E1 E2].
    split; [exact E1|]. split; [exact E2|]. intros _. exact R.
  - intros H. injection H as <- <-. cbn.
    split; [reflexivity|]. split; discriminate.
Qed.

Lemma ParsePath_split_acc (fuel : nat) :
  forall s first acc,
    ParsePath_split fuel s (first :: acc)
    = first :: ParsePath_split fuel s acc.
Proof.
  induction fuel as [|fuel IH]; intros s first acc; [reflexivity|].
  cbn [ParsePath_split]. destruct (find "/" s); [|reflexivity].
  cbn [app]. apply IH.
Qed.

Lemma ParsePath_fields (ps : bytes) (u u' : Uri) :
  ParsePath ps u = Some u' ->
  exists p,
    u' = with_path p u
    /\ (rooted ps -> p = [] \/ IsPathAbsolute p = true).
Proof.
  unfold ParsePath.
  set (segments := if bytes_eqb ps (str "/") then [[]]
                   else if negb (empty ps)
                        then ParsePath_split (S (length ps)) ps [] else []).
  destruct (ParsePath_decode segments) as [p|] eqn:D; [|discriminate].
  intros H. injection H as <-. exists p. split; [reflexivity|].
  intros [-> | [t ->]].
  - cbn in D. injection D as <-. left. reflexivity.
  - right. assert (S : exists rest, segments = [] :: rest).
    { subst segments. destruct (bytes_eqb ("/" :: t) (str "/"));
        [eexists; reflexivity|].
      cbn [empty negb ParsePath_split find].
      change (char_eqb "/" "/") with true. cbn [app].
      rewrite ParsePath_split_acc. eexists. reflexivity. }
    destruct S as [rest S]. rewrite S in D.
    cbn [ParsePath_decode] in D.
    change (DecodeElement [] PCHAR_NOT_PCT_ENCODED) with (Some ([] : bytes)) in D.
    destruct (ParsePath_decode rest); [|discriminate].
    injection D as <-. reflexivity.
Qed.

Lemma ParseFragment_fields (qf : bytes) (u u' : Uri) (rest : bytes) :
  ParseFragment qf u = Some (u', rest) ->
  exists b f, u' = with_fragment f (with_hasFragment b u).
Proof.
  unfold ParseFragment.
  destruct (find "#" qf) as [d|];
    (destruct (DecodeQueryOrFragment _) as [decoded|]; [|discriminate]);
    intros H; injection H as <- _; eexists; eexists; reflexivity.
Qed.

Lemma ParseQuery_fields (q : bytes) (u u' : Uri) :
  ParseQuery q u = Some u' ->
  exists b f, u' = with_query f (with_hasQuery b u).
Proof.
  unfold ParseQuery.
  destruct (DecodeQueryOrFragment _) as [decoded|]; [|discriminate].
  intros H. injection H as <-. eexists. eexists. reflexivity.
Qed.

Lemma SetDefaultPath_fields (u : Uri) :
  let u' := SetDefaultPathIfAuthorityPresentAndPathEmpty u in
  scheme u' = scheme u /\ userInfo u' = userInfo u /\ host u' = host u
  /\ hasPort u' = hasPort u /\ port u' = port u
  /\ (host u <> [] -> path u' <> [])
  /\ (path u = [] \/ IsPathAbsolute (path u) = true ->
      path u' = [] \/ IsPathAbsolute (path u') = true).
Proof.
  unfold SetDefaultPathIfAuthorityPresentAndPathEmpty.
  destruct (negb (empty (host u)) && empty (path u))%bool eqn:C.
  - apply andb_true_iff in C. destruct C as [_ C]. apply empty_true in C.
    cbn. rewrite C.
    repeat split; try reflexivity;
      [intros _; discriminate | intros _; right; reflexivity].
  - cbv zeta. repeat split; try reflexivity; [|auto].
    intros Hh Hp. apply andb_false_iff in C. destruct C as [C | C].
    + apply negb_false_iff, empty_true in C. contradiction.
    + apply empty_false in C. contradiction.
Qed.

Theorem ParseFromString_parsed_ok (s : bytes) (u0 u : Uri) :
  ParseFromString s u0 = Some u -> parsed_ok u.
Proof.
  unfold ParseFromString.
  destruct (ParseScheme s u0) as [[u1 rest]|] eqn:E1; [|discriminate].
  destruct (SplitAuthorityFromPathAndParseIt _ u1) as [[u2 ps]|] eqn:E2;
    [|discriminate].
  destruct (ParsePath ps u2) as [u3|] eqn:E3; [|discriminate].
  destruct (ParseFragment _ _) as [[u5 rest']|] eqn:E5; [|discriminate].
  intros E6.
  apply ParseScheme_scheme in E1.
  apply SplitAuthority_fields in E2. destruct E2 as (S1 & S2 & S3).
  apply ParsePath_fields in E3. destruct E3 as (p & -> & P).
  apply ParseFragment_fields in E5. destruct E5 as (b5 & f5 & ->).
  apply ParseQuery_fields in E6. destruct E6 as (b6 & f6 & ->).
  destruct (SetDefaultPath_fields (with_path p u2))
    as (D1 & D2 & D3 & D4 & D5 & D6 & D7).
  set (u4 := SetDefaultPathIfAuthorityPresentAndPathEmpty (with_path p u2)) in *.
  unfold parsed_ok, HasAuthority. cbn.
  cbn in D1, D2, D3, D4, D5, D6, D7.
  rewrite D1, D2, D3, D4, D5, S1.
  split; [exact E1|]. split; [exact S2|]. split; [|exact D6].
  intros A. apply D7, P, S3, A.
Qed.

(** ** Reading back the written string *)

Lemma encoded_segment_head (c : ascii) (s : bytes) :
  exists x r,
    EncodeElement (c :: s) PCHAR_NOT_PCT_ENCODED = x :: r
    /\ char_eqb x "/" = false.
Proof.
  pose proof (EncodeElement_avoids PCHAR_NOT_PCT_ENCODED "/" (c :: s)
                ltac:(vm_compute; reflexivity)) as A.
  destruct (EncodeElement (c :: s) PCHAR_NOT_PCT_ENCODED) as [|x r] eqn:E.
  - apply EncodeElement_nil in E. discriminate.
  - exists x, r. split; [reflexivity|]. inversion A; assumption.
Qed.

Lemma bytes_eqb_marker_head (x : ascii) (r : bytes) :
  char_eqb x "/" = false -> bytes_eqb (substr_to 2 (x :: r)) (str "//") = false.
Proof. intros H. cbn. rewrite H. reflexivity. Qed.

Lemma bytes_eqb_marker_second (x : ascii) (r : bytes) :
  char_eqb x "/" = false ->
  bytes_eqb (substr_to 2 ("/" :: x :: r)) (str "//") = false.
Proof.
  intros H. cbn. rewrite H. change (char_eqb "/" "/") with true. reflexivity.
Qed.

(** Without two leading empty segments the written path does not start
    with the authority marker. *)
Lemma path_text_no_marker (p : list bytes) :
  begins_with_two_empty p = false ->
  bytes_eqb (substr_to 2 (path_text p)) (str "//") = false.
Proof.
  intros H.
  destruct (list_eq_dec (list_eq_dec ascii_dec) p [[]]) as [-> | H1];
    [reflexivity|].
  rewrite path_text_join by exact H1.
  destruct p as [|a [|b t]]; [reflexivity | |].
  - destruct a as [|c a]; [exfalso; apply H1; reflexivity|].
    cbn [encode_segments map join].
    destruct (encoded_segment_head c a) as (x & r & -> & Hx).
    apply bytes_eqb_marker_head, Hx.
  - change (join (encode_segments (a :: b :: t)))
      with (EncodeElement a PCHAR_NOT_PCT_ENCODED
            ++ "/" :: join (encode_segments (b :: t))).
    destruct a as [|c a].
    + destruct b as [|d b]; [discriminate|].
      cbn [EncodeElement app].
      assert (J : exists x r, join (encode_segments ((d :: b) :: t)) = x :: r
                              /\ char_eqb x "/" = false).
      { destruct (encoded_segment_head d b) as (x & r & E & Hx).
        cbn [encode_segments map join]. rewrite E.
        destruct (map _ t); [exists x, r; auto|].
        eexists x, _. split; [reflexivity | exact Hx]. }
      destruct J as (x & r & -> & Hx).
      apply bytes_eqb_marker_second, Hx.
    + destruct (encoded_segment_head c a) as (x & r & -> & Hx).
      apply bytes_eqb_marker_head, Hx.
Qed.

Lemma before_query_avoids (s : bytes) :
  avoids "?" s -> avoids "#" s -> before_query s.
Proof.
  intros A B. unfold before_query. induction s as [|x s IH]; [constructor|].
  inversion A; inversion B; subst. constructor; [|auto].
  cbn. rewrite H1, H5. reflexivity.
Qed.

Lemma cut_at_query (ap qf : bytes) :
  before_query ap ->
  (qf = [] \/ exists c t, qf = c :: t
                          /\ existsb (char_eqb c) (str "?#") = true) ->
  match find_first_of (str "?#") (ap ++ qf) with
  | None => ap ++ qf
  | Some pathEnd => substr_to pathEnd (ap ++ qf)
  end = ap.
Proof.
  intros B [-> | (c & t & -> & Hc)].
  - rewrite app_nil_r, find_first_of_none by exact B. reflexivity.
  - rewrite (find_first_of_app_found _ _ _ _ B Hc). apply substr_to_app.
Qed.

Lemma query_fragment_shape (u : Uri) :
  let qf := query_text u ++ fragment_text u in
  qf = [] \/ exists c t, qf = c :: t
                         /\ existsb (char_eqb c) (str "?#") = true.
Proof.
  unfold query_text, fragment_text.
  destruct (hasQuery u); [right; eexists; eexists; split; reflexivity|].
  destruct (hasFragment u); [right; eexists; eexists; split; reflexivity|].
  left. reflexivity.
Qed.

Lemma ParseFragment_written (u v : Uri) :
  ParseFragment (query_text u ++ fragment_text u) v
  = Some (with_fragment (if hasFragment u then fragment u else [])
            (with_hasFragment (hasFragment u) v),
          query_text u).
Proof.
  assert (A : avoids "#" (query_text u)).
  { unfold query_text. destruct (hasQuery u); [|constructor].
    apply avoids_app. split; [repeat constructor|].
    apply EncodeElement_avoids. vm_compute. reflexivity. }
  unfold ParseFragment, fragment_text. destruct (hasFragment u).
  - cbn [app]. rewrite (find_app_found _ _ _ A).
    rewrite substr_from_app_S, substr_to_app.
    unfold DecodeQueryOrFragment.
    rewrite DecodeElement_EncodeElement; [reflexivity | reflexivity | auto].
  - rewrite app_nil_r, (find_avoids _ _ A). reflexivity.
Qed.

Lemma query_set_sub :
  forall c,
    implb (Contains QUERY_NOT_PCT_ENCODED_WITHOUT_PLUS c)
          (Contains QUERY_OR_FRAGMENT_NOT_PCT_ENCODED c) = true.
Proof. by_all_bytes. Qed.

Lemma ParseQuery_written (u v : Uri) :
  ParseQuery (query_text u) v
  = Some (with_query (if hasQuery u then query u else [])
            (with_hasQuery (hasQuery u) v)).
Proof.
  unfold ParseQuery, query_text. destruct (hasQuery u); [|reflexivity].
  cbn [app empty negb substr_from skipn]. unfold DecodeQueryOrFragment.
  rewrite DecodeElement_EncodeElement; [reflexivity | reflexivity |].
  intros c Hc. pose proof (query_set_sub c) as Q. rewrite Hc in Q. exact Q.
Qed.

Lemma HasAuthority_false (u : Uri) :
  HasAuthority u = false ->
  userInfo u = [] /\ host u = [] /\ hasPort u = false.
Proof.
  unfold HasAuthority. intros H.
  apply orb_false_iff in H. destruct H as [H H3].
  apply orb_false_iff in H. destruct H as [H1 H2].
  apply negb_false_iff, empty_true in H1, H2. auto.
Qed.

Lemma Split_written (u v : Uri) :
  lowercase (host u) = host u ->
  (hasPort u = true -> (0 <= port u <= 65535)%Z) ->
  (HasAuthority u = true -> path u = [] \/ IsPathAbsolute (path u) = true) ->
  (HasAuthority u = false -> begins_with_two_empty (path u) = false) ->
  exists u2,
    SplitAuthorityFromPathAndParseIt (authority_part u ++ path_text (path u)) v
    = Some (u2, path_text (path u))
    /\ userInfo u2 = userInfo u /\ host u2 = host u
    /\ hasPort u2 = hasPort u
    /\ (hasPort u = true -> port u2 = port u)
    /\ scheme u2 = scheme v.
Proof.
  intros L P R M. unfold SplitAuthorityFromPathAndParseIt, authority_part.
  destruct (HasAuthority u) eqn:A.
  - change (substr_to 2 ((str "//" ++ authority_text u) ++ path_text (path u)))
      with (str "//").
    change (bytes_eqb (str "//") (str "//")) with true. cbv iota.
    change (substr_from 2
              ((str "//" ++ authority_text u) ++ path_text (path u)))
      with (authority_text u ++ path_text (path u)).
    pose proof (authority_text_chars u "/" L eq_refl) as S.
    destruct (ParseAuthority_written u v L P) as (u2 & E & F).
    assert (T : path_text (path u) = [] \/ exists t, path_text (path u) = "/" :: t).
    { destruct (R eq_refl) as [-> | Ab]; [left; reflexivity|].
      right. apply path_text_absolute, Ab. }
    destruct T as [-> | [t ->]].
    + rewrite app_nil_r, (find_avoids _ _ S).
      unfold substr_from, substr_to. rewrite skipn_all, firstn_all, E.
      exists u2. split; [reflexivity | exact F].
    + rewrite (find_app_found _ _ _ S), substr_from_app, substr_to_app, E.
      exists u2. split; [reflexivity | exact F].
  - cbn [app]. rewrite (path_text_no_marker _ (M eq_refl)).
    destruct (HasAuthority_false _ A) as (-> & -> & ->).
    eexists. split; [reflexivity|]. cbn. repeat split; auto. discriminate.
Qed.

(** ** The round trip *)

Lemma SetDefaultPath_unchanged (v : Uri) :
  (host v <> [] -> path v <> []) ->
  SetDefaultPathIfAuthorityPresentAndPathEmpty v = v.
Proof.
  intros H. unfold SetDefaultPathIfAuthorityPresentAndPathEmpty.
  destruct (host v) as [|h0 hs]; [reflexivity|].
  destruct (path v) as [|p0 pp]; [|reflexivity].
  exfalso. apply H; [discriminate | reflexivity].
Qed.

Lemma authority_part_before_query (u : Uri) :
  lowercase (host u) = host u ->
  before_query (authority_part u ++ path_text (path u)).
Proof.
  intros L. apply before_query_avoids; apply avoids_app; split.
  - unfold authority_part. destruct (HasAuthority u); [|constructor].
    apply avoids_app. split; [repeat constructor|].
    apply authority_text_chars; [exact L | reflexivity].
  - apply path_text_avoids; [vm_compute|]; reflexivity.
  - unfold authority_part. destruct (HasAuthority u); [|constructor].
    apply avoids_app. split; [repeat constructor|].
    apply authority_text_chars; [exact L | reflexivity].
  - apply path_text_avoids; [vm_compute|]; reflexivity.
Qed.

(** C1, as the code has it: a successfully parsed Uri is written and
    read back to an equal Uri, provided that its host has no upper-case
    letter, its path is not the pair of two empty segments, its path
    does not begin with two empty segments when it has no authority, and,
    when it has no scheme, its written form has no [':'] before the
    first ['/'].  The read-back may run on an object in any state. *)
Theorem C1_roundtrip_on_canonical (s : bytes) (u0 u u1 : Uri) :
  ParseFromString s u0 = Some u ->
  lowercase (host u) = host u ->
  path u <> [[]; []] ->
  (HasAuthority u = false -> begins_with_two_empty (path u) = false) ->
  (scheme u = [] -> schemeEnd (GenerateString u) = None) ->
  exists u',
    ParseFromString (GenerateString u) u1 = Some u'
    /\ Uri_eqb u' u = true.
Proof.
  intros Hp L H4 H2 H3.
  destruct (ParseFromString_parsed_ok _ _ _ Hp) as (I1 & I2 & I4 & I5).
  set (AP := authority_part u ++ path_text (path u)).
  set (QF := query_text u ++ fragment_text u).
  assert (E1 : ParseScheme (GenerateString u) u1
               = Some (with_scheme (scheme u) u1, AP ++ QF)).
  { assert (G : GenerateString u = scheme_text u ++ AP ++ QF).
    { rewrite GenerateString_parts. subst AP QF. fold (authority_part u).
      rewrite <- app_assoc. reflexivity. }
    unfold scheme_text in G. destruct (scheme u) as [|c sc] eqn:Sc.
    - specialize (H3 eq_refl). unfold ParseScheme. rewrite H3, G. reflexivity.
    - rewrite G. cbn [empty negb]. rewrite <- app_assoc. cbn [app].
      apply (ParseScheme_written (c :: sc) (AP ++ QF) u1).
      destruct I1; [discriminate | assumption]. }
  pose proof (authority_part_before_query u L) as B. fold AP in B.
  pose proof (cut_at_query AP QF B (query_fragment_shape u)) as E2.
  destruct (Split_written u (with_scheme (scheme u) u1) L I2 I4 H2)
    as (u2 & E3 & F1 & F2 & F3 & F4 & F5).
  fold AP in E3.
  unfold ParseFromString. rewrite E1. cbv zeta. rewrite E2.
  rewrite substr_from_app, E3.
  rewrite (ParsePath_path_text _ u2 H4).
  rewrite SetDefaultPath_unchanged by (cbn; rewrite F2; exact I5).
  subst QF. rewrite ParseFragment_written, ParseQuery_written.
  eexists. split; [reflexivity|].
  unfold Uri_eqb. cbn. rewrite F1, F2, F3, F5. cbn.
  rewrite !bytes_eqb_refl, path_eqb_refl. cbn.
  destruct (hasPort u) eqn:HP.
  - rewrite (F4 eq_refl), Z.eqb_refl. cbn.
    destruct (hasQuery u), (hasFragment u); cbn;
      rewrite ?bytes_eqb_refl; reflexivity.
  - cbn. destruct (hasQuery u), (hasFragment u); cbn;
      rewrite ?bytes_eqb_refl; reflexivity.
Qed.

(** The round trip fails on parseable strings: an IP literal with an
    upper-case letter is written in lower case ([//[::F]]) or as a
    registered name ([//[v1.X]]); a path of two empty segments is written
    as ["/"] ([/%4], whose cut-off escape decodes to nothing); a path
    that begins with two empty segments under an empty authority is read
    back as an authority ([////]); and a [':'] decoded into the first
    segment, the query or the fragment of a reference without scheme and
    authority is read back as a scheme delimiter ([a%3Ab], [?a%3Ab]). *)
Lemma C1_counterexample :
  reparse_equal "//[::F]" = Some (Some false)
  /\ reparse_equal "//[v1.X]" = Some (Some false)
  /\ reparse_equal "/%4" = Some (Some false)
  /\ reparse_equal "////" = Some (Some false)
  /\ reparse_equal "a%3Ab" = Some (Some false)
  /\ reparse_equal "?a%3Ab" = Some None.
Proof. repeat split; vm_compute; reflexivity. Qed.

(** The theorem at two inputs: a full URI, and a relative reference
    with neither scheme nor authority. *)
Lemma C1_witness :
  (exists u',
     ParseFromString
       (GenerateString
          (parsed "HTTP://User@EXAMPLE.com:8080/a%2Fb/c?x=1+2#frag"))
       Uri_new = Some u'
     /\ Uri_eqb u' (parsed "HTTP://User@EXAMPLE.com:8080/a%2Fb/c?x=1+2#frag")
        = true)
  /\ (exists u',
        ParseFromString (GenerateString (parsed "a/b%20c?x:y")) Uri_new
        = Some u'
        /\ Uri_eqb u' (parsed "a/b%20c?x:y") = true).
Proof.
  split.
  - apply (C1_roundtrip_on_canonical
             (str "HTTP://User@EXAMPLE.com:8080/a%2Fb/c?x=1+2#frag") Uri_new).
    + vm_compute. reflexivity.
    + vm_compute. reflexivity.
    + vm_compute. discriminate.
    + intros _. vm_compute. reflexivity.
    + intros H. vm_compute in H. discriminate.
  - apply (C1_roundtrip_on_canonical (str "a/b%20c?x:y") Uri_new).
    + vm_compute. reflexivity.
    + vm_compute. reflexivity.
    + vm_compute. discriminate.
    + intros _. vm_compute. reflexivity.
    + intros _. vm_compute. reflexivity.
Defined.

(* ================================================================== *)
(** * Part III: further properties of the code *)
(* ================================================================== *)

(** ** Equality *)

Lemma presence_eqb (ha hb : bool) (eqv : bool) :
  ((negb ha && negb hb) || ((ha && hb) && eqv))%bool = true
  <-> ha = hb /\ (ha = true -> eqv = true).
Proof.
  destruct ha, hb, eqv; cbn; split; try tauto; try discriminate;
    try (intros [H1 H2]; try discriminate; specialize (H2 eq_refl);
         discriminate).
Qed.

Lemma Uri_eqb_same (a b : Uri) : Uri_eqb a b = true <-> same_uri a b.
Proof.
  unfold Uri_eqb, same_uri.
  rewrite !andb_true_iff, !presence_eqb, !bytes_eqb_eq, path_eqb_eq, Z.eqb_eq.
  tauto.
Qed.

(** X1: [operator==] is an equivalence relation on Uri values, and
    [operator!=] is its negation. *)
Theorem X1_equality_is_equivalence :
  (forall a, Uri_eqb a a = true)
  /\ (forall a b, Uri_eqb a b = Uri_eqb b a)
  /\ (forall a b c, Uri_eqb a b = true -> Uri_eqb b c = true ->
                    Uri_eqb a c = true)
  /\ (forall a b, Uri_neqb a b = true <-> Uri_eqb a b = false).
Proof.
  split; [|split; [|split]].
  - intros a. apply Uri_eqb_same. unfold same_uri. tauto.
  - assert (S : forall a b, Uri_eqb a b = true -> Uri_eqb b a = true).
    { intros a b H. apply Uri_eqb_same in H. apply Uri_eqb_same.
      unfold same_uri in *.
      destruct H as (H1 & H2 & H3 & H4 & H5 & H6 & H7 & H8 & H9 & H10).
      rewrite <- H4, <- H7, <- H9.
      repeat split; auto; intros E; symmetry; auto. }
    intros a b. destruct (Uri_eqb a b) eqn:E1, (Uri_eqb b a) eqn:E2;
      try reflexivity.
    + apply S in E1. congruence.
    + apply S in E2. congruence.
  - intros a b c H1 H2. apply Uri_eqb_same in H1, H2. apply Uri_eqb_same.
    unfold same_uri in *.
    destruct H1 as (A1 & A2 & A3 & A4 & A5 & A6 & A7 & A8 & A9 & A10).
    destruct H2 as (B1 & B2 & B3 & B4 & B5 & B6 & B7 & B8 & B9 & B10).
    repeat split; try congruence.
    + intros E. rewrite (A5 E). apply B5. congruence.
    + intros E. rewrite (A8 E). apply B8. congruence.
    + intros E. rewrite (A10 E). apply B10. congruence.
  - intros a b. unfold Uri_neqb. apply negb_true_iff.
Qed.

(** X2: two values that are equal under [operator==] are written to
    the same string by [GenerateString]. *)
Theorem X2_equal_values_same_string (a b : Uri) :
  Uri_eqb a b = true -> GenerateString a = GenerateString b.
Proof.
  intros H. apply Uri_eqb_same in H.
  destruct H as (H1 & H2 & H3 & H4 & H5 & H6 & H7 & H8 & H9 & H10).
  unfold GenerateString, HasAuthority.
  rewrite <- H1, <- H2, <- H3, <- H4, <- H6, <- H7, <- H9.
  destruct (hasPort a); [rewrite <- (H5 eq_refl)|];
    (destruct (hasQuery a); [rewrite <- (H8 eq_refl)|]);
    (destruct (hasFragment a); [rewrite <- (H10 eq_refl)|]); reflexivity.
Qed.

(** A value with stale port, query and fragment behind cleared flags
    is written like the value that never had them. *)
Lemma X2_witness :
  GenerateString
    (ClearFragment (SetFragment (str "f")
       (ClearQuery (SetQuery (str "q")
          (ClearPort (SetPort 8080 (SetHost (str "h") Uri_new)))))))
  = GenerateString (SetHost (str "h") Uri_new).
Proof.
  apply X2_equal_values_same_string. vm_compute. reflexivity.
Defined.

(** ** The scheme *)

Lemma FailsMatch_not_first (sc : bytes) :
  FailsMatch sc LegalSchemeCheckStrategy false = false
  <-> Forall (fun x => Contains SCHEME_NOT_FIRST x = true) sc.
Proof.
  induction sc as [|c sc IH]; cbn [FailsMatch LegalSchemeCheckStrategy].
  - cbn. split; [constructor | reflexivity].
  - destruct (Contains SCHEME_NOT_FIRST c) eqn:C.
    + rewrite IH. split; [intros H; constructor; assumption|].
      intros H. inversion H; assumption.
    + split; [discriminate|]. intros H. inversion H. congruence.
Qed.

Lemma FailsMatch_legal (sc : bytes) :
  FailsMatch sc LegalSchemeCheckStrategy true = false <-> legal_scheme sc.
Proof.
  unfold legal_scheme. destruct sc as [|c sc].
  - cbn. split; [discriminate|]. intros (c & rest & H & _). discriminate.
  - cbn [FailsMatch LegalSchemeCheckStrategy].
    destruct (Contains ALPHA c) eqn:C.
    + rewrite FailsMatch_not_first. split.
      * intros H. exists c, sc. auto.
      * intros (c' & rest & E & _ & H). injection E as <- <-. exact H.
    + split; [discriminate|].
      intros (c' & rest & E & A & _). injection E as <- <-. congruence.
Qed.

(** X3: the scheme check ([FailsMatch] driven by
    [LegalSchemeCheckStrategy]) passes exactly the non-empty strings
    that start with a letter and continue with letters, digits, ['+'],
    ['-'] and ['.']; in particular it fails the empty string. *)
Theorem X3_scheme_check (sc : bytes) :
  (FailsMatch sc LegalSchemeCheckStrategy true = false <-> legal_scheme sc)
  /\ FailsMatch [] LegalSchemeCheckStrategy true = true.
Proof.
  split; [apply FailsMatch_legal | reflexivity].
Qed.

Lemma find_Some_split (c : ascii) (s : bytes) :
  forall i, find c s = Some i ->
    s = firstn i s ++ c :: skipn (i + 1) s /\ avoids c (firstn i s).
Proof.
  induction s as [|x s IH]; intros i H; [discriminate|].
  cbn [find] in H. destruct (char_eqb x c) eqn:E.
  - injection H as <-. apply char_eqb_eq in E. subst x.
    split; [reflexivity | constructor].
  - destruct (find c s) as [j|] eqn:F; [|discriminate].
    injection H as <-. destruct (IH j eq_refl) as [H1 H2].
    cbn [firstn skipn Nat.add app]. split.
    + f_equal. exact H1.
    + constructor; assumption.
Qed.

Lemma find_firstn_Some (c : ascii) (s : bytes) :
  forall n e, find c (firstn n s) = Some e -> find c s = Some e.
Proof.
  induction s as [|x s IH]; intros n e H.
  - rewrite firstn_nil in H. discriminate.
  - destruct n; [discriminate|]. cbn [firstn find] in H |- *.
    destruct (char_eqb x c); [exact H|].
    destruct (find c (firstn n s)) as [j|] eqn:F; [|discriminate].
    rewrite (IH n j F). exact H.
Qed.

Lemma legal_scheme_chars (sc : bytes) :
  legal_scheme sc ->
  Forall (fun x => Contains SCHEME_NOT_FIRST x = true) sc.
Proof.
  intros (c & rest & -> & A & F). constructor; [|exact F].
  revert A. apply (within_spec (Contains ALPHA)). vm_compute. reflexivity.
Qed.

(** X4: a legal scheme in any letter case, followed by [':'], is split
    off by [ParseScheme] and stored in lower case; the rest of the
    string is handed on untouched. *)
Theorem X4_ParseScheme_accepts (raw R : bytes) (u : Uri) :
  legal_scheme raw ->
  ParseScheme (raw ++ ":" :: R) u = Some (with_scheme (lowercase raw) u, R).
Proof.
  intros Hl. pose proof (legal_scheme_chars _ Hl) as C.
  apply FailsMatch_legal in Hl.
  pose proof (scheme_chars_plain raw "/" eq_refl C) as A1.
  pose proof (scheme_chars_plain raw ":" eq_refl C) as A2.
  assert (E : schemeEnd (raw ++ ":" :: R) = Some (length raw)).
  { unfold schemeEnd, substr_to. apply find_firstn_found; [exact A2|].
    rewrite (find_app_avoids _ _ _ A1). cbn [find].
    change (char_eqb ":" "/") with false.
    destruct (find "/" R); cbn; [lia|].
    rewrite length_app. cbn. lia. }
  unfold ParseScheme. rewrite E, substr_to_app, substr_from_app_S, Hl.
  reflexivity.
Qed.

(** The scheme of [HTTP://x/] is stored as [http]. *)
Lemma X4_witness :
  ParseScheme (str "HTTP" ++ ":" :: str "//x/") Uri_new
  = Some (with_scheme (str "http") Uri_new, str "//x/").
Proof.
  apply (X4_ParseScheme_accepts (str "HTTP") (str "//x/") Uri_new).
  exists "H", (str "TTP"). split; [reflexivity|].
  split; [reflexivity|]. repeat constructor.
Defined.

(** X5: when [ParseScheme] succeeds it changes the scheme only; either
    there is no [':'] before the first ['/'], the scheme is empty and
    the whole string is handed on, or the string is a legal scheme, a
    [':'] and the rest, and the scheme is stored in lower case. *)
Theorem X5_ParseScheme_sound (s : bytes) (u u' : Uri) (rest : bytes) :
  ParseScheme s u = Some (u', rest) ->
  u' = with_scheme (scheme u') u
  /\ lowercase (scheme u') = scheme u'
  /\ ((schemeEnd s = None /\ scheme u' = [] /\ rest = s)
      \/ exists raw,
           s = raw ++ ":" :: rest /\ legal_scheme raw
           /\ avoids "/" raw /\ scheme u' = lowercase raw).
Proof.
  unfold ParseScheme. destruct (schemeEnd s) as [e|] eqn:E.
  - destruct (FailsMatch (substr_to e s) LegalSchemeCheckStrategy true) eqn:F;
      [discriminate|].
    intros H. injection H as <- <-. cbn [scheme with_scheme].
    split; [reflexivity|]. split; [apply lowercase_idempotent|].
    right. exists (substr_to e s).
    unfold schemeEnd in E. apply find_firstn_Some in E.
    destruct (find_Some_split _ _ _ E) as [S _].
    split; [exact S|]. split; [apply FailsMatch_legal, F|].
    split; [|reflexivity].
    apply (scheme_chars_plain _ "/" eq_refl).
    apply legal_scheme_chars, FailsMatch_legal, F.
  - intros H. injection H as <- <-. cbn [scheme with_scheme].
    split; [reflexivity|]. split; [reflexivity|]. left. auto.
Qed.

Lemma X5_witness :
  exists raw,
    str "FTP:a:b" = raw ++ ":" :: str "a:b" /\ legal_scheme raw
    /\ lowercase raw = str "ftp".
Proof.
  destruct (X5_ParseScheme_sound (str "FTP:a:b") Uri_new
              (with_scheme (str "ftp") Uri_new) (str "a:b")
              ltac:(vm_compute; reflexivity))
    as (_ & _ & [(E & _) | (raw & E & L & _ & Sc)]).
  - vm_compute in E. discriminate.
  - exists raw. split; [exact E|]. split; [exact L|].
    symmetry. exact Sc.
Defined.

(** ** What a successful parse leaves in the object *)

Lemma DecodeElement_nil (S : CharacterSet) : DecodeElement [] S = Some [].
Proof. reflexivity. Qed.

Lemma ParseFragment_cleared (qf : bytes) (u u' : Uri) (rest : bytes) :
  ParseFragment qf u = Some (u', rest) ->
  hasFragment u' = false -> fragment u' = [].
Proof.
  unfold ParseFragment. destruct (find "#" qf) as [d|].
  - destruct (DecodeQueryOrFragment _); [|discriminate].
    intros H. injection H as <- _. cbn. discriminate.
  - unfold DecodeQueryOrFragment. rewrite DecodeElement_nil.
    intros H. injection H as <- _. reflexivity.
Qed.

Lemma ParseQuery_cleared (q : bytes) (u u' : Uri) :
  ParseQuery q u = Some u' ->
  (hasQuery u' = false -> query u' = [])
  /\ hasFragment u' = hasFragment u /\ fragment u' = fragment u.
Proof.
  unfold ParseQuery. destruct q as [|c q]; cbn [empty negb].
  - unfold DecodeQueryOrFragment. rewrite DecodeElement_nil.
    intros H. injection H as <-. cbn. auto.
  - destruct (DecodeQueryOrFragment _); [|discriminate].
    intros H. injection H as <-. cbn. split; [discriminate | auto].
Qed.

(** X6: what every successfully parsed Uri satisfies.  The scheme is
    empty or a legal scheme in lower case; a port lies in 0..65535; with
    a host the path is absolute, and with any authority it is empty or
    absolute; a query or fragment that is absent is stored empty. *)
Theorem X6_parse_invariants (s : bytes) (u0 u : Uri) :
  ParseFromString s u0 = Some u ->
  (scheme u = [] \/ legal_scheme (scheme u))
  /\ lowercase (scheme u) = scheme u
  /\ (hasPort u = true -> (0 <= port u <= 65535)%Z)
  /\ (host u <> [] -> ContainsRelativePath u = false)
  /\ (HasAuthority u = true -> path u = [] \/ IsPathAbsolute (path u) = true)
  /\ (hasQuery u = false -> query u = [])
  /\ (hasFragment u = false -> fragment u = []).
Proof.
  intros H.
  destruct (ParseFromString_parsed_ok _ _ _ H) as (I1 & I2 & I4 & I5).
  assert (Sc : (scheme u = [] \/ legal_scheme (scheme u))
               /\ lowercase (scheme u) = scheme u).
  { destruct I1 as [E | [F L]].
    - rewrite E. split; [left|]; reflexivity.
    - split; [right; apply FailsMatch_legal, F | exact L]. }
  destruct Sc as [Sc1 Sc2].
  split; [exact Sc1|]. split; [exact Sc2|]. split; [exact I2|].
  split.
  { intros Hh. unfold ContainsRelativePath. apply negb_false_iff.
    destruct (I4 ltac:(unfold HasAuthority; destruct (host u);
                       [contradiction | reflexivity])) as [E | E];
      [|exact E].
    exfalso. exact (I5 Hh E). }
  split; [exact I4|].
  revert H. unfold ParseFromString.
  destruct (ParseScheme s u0) as [[u1 rest]|]; [|discriminate].
  destruct (SplitAuthorityFromPathAndParseIt _ u1) as [[u2 ps]|];
    [|discriminate].
  destruct (ParsePath ps u2) as [u3|]; [|discriminate].
  destruct (ParseFragment _ _) as [[u5 rest']|] eqn:E5; [|discriminate].
  intros E6. pose proof (ParseFragment_cleared _ _ _ _ E5) as F5.
  apply ParseQuery_cleared in E6. destruct E6 as (Q1 & Q2 & Q3).
  split; [exact Q1|]. rewrite Q2, Q3. exact F5.
Qed.

Lemma X6_witness :
  lowercase (scheme (parsed "HTTP://h:80?x")) = scheme (parsed "HTTP://h:80?x")
  /\ (0 <= port (parsed "HTTP://h:80?x") <= 65535)%Z
  /\ ContainsRelativePath (parsed "HTTP://h:80?x") = false
  /\ fragment (parsed "HTTP://h:80?x") = [].
Proof.
  destruct (X6_parse_invariants (str "HTTP://h:80?x") Uri_new
              (parsed "HTTP://h:80?x") ltac:(vm_compute; reflexivity))
    as (_ & A & B & C & _ & _ & D).
  split; [exact A|]. split; [apply B; reflexivity|].
  split; [apply C; vm_compute; discriminate | apply D; reflexivity].
Defined.

(** ** The object's previous state *)

Lemma Uri_ext (a b : Uri) :
  scheme a = scheme b -> userInfo a = userInfo b -> host a = host b ->
  hasPort a = hasPort b -> port a = port b -> path a = path b ->
  hasQuery a = hasQuery b -> query a = query b ->
  hasFragment a = hasFragment b -> fragment a = fragment b -> a = b.
Proof.
  destruct a, b. cbn. intros. subst. reflexivity.
Qed.

Lemma ParseScheme_uniform (s : bytes) (u u1 : Uri) :
  ParseScheme s u1
  = option_map (fun r => (with_scheme (scheme (fst r)) u1, snd r))
      (ParseScheme s u).
Proof.
  unfold ParseScheme. destruct (schemeEnd s); [|reflexivity].
  destruct (FailsMatch _ _ _); reflexivity.
Qed.

Lemma ParseAuthority_hostPort_uniform (hp : bytes) (u u1 : Uri) :
  ParseAuthority_hostPort hp u1
  = option_map (fun v => host_port_onto v u1) (ParseAuthority_hostPort hp u).
Proof.
  unfold ParseAuthority_hostPort.
  destruct (Host_loop hp HostScan_init) as [s|]; [|reflexivity].
  destruct (hostParsingState s); try reflexivity;
    (destruct (empty (portString s)); [reflexivity|];
     destruct (stoi (portString s)) as [p|]; [|reflexivity];
     destruct ((p <? 0) || (65535 <? p))%Z%bool; reflexivity).
Qed.

Lemma ParseAuthority_uniform (a : bytes) (u u1 : Uri) :
  ParseAuthority a u1
  = option_map (fun v => authority_onto v u1) (ParseAuthority a u).
Proof.
  unfold ParseAuthority. destruct (find "@" a) as [d|].
  - destruct (DecodeElement _ _) as [decoded|]; [|reflexivity].
    rewrite (ParseAuthority_hostPort_uniform _
               (with_userInfo decoded (with_userInfo [] u))
               (with_userInfo decoded (with_userInfo [] u1))).
    destruct (ParseAuthority_hostPort _ _) as [v|] eqn:E; [|reflexivity].
    cbn [option_map]. f_equal.
    rewrite (ParseAuthority_hostPort_uniform _
               (with_userInfo decoded (with_userInfo [] u))
               (with_userInfo decoded (with_userInfo [] u))) in E.
    destruct (ParseAuthority_hostPort _ _) as [w|]; [|discriminate].
    injection E as <-. reflexivity.
  - rewrite (ParseAuthority_hostPort_uniform _ (with_userInfo [] u)
               (with_userInfo [] u1)).
    destruct (ParseAuthority_hostPort _ _) as [v|] eqn:E; [|reflexivity].
    cbn [option_map]. f_equal.
    rewrite (ParseAuthority_hostPort_uniform _ (with_userInfo [] u)
               (with_userInfo [] u)) in E.
    destruct (ParseAuthority_hostPort _ _) as [w|]; [|discriminate].
    injection E as <-. reflexivity.
Qed.

Lemma Split_uniform (ap : bytes) (u u1 : Uri) :
  SplitAuthorityFromPathAndParseIt ap u1
  = option_map (fun r => (authority_onto (fst r) u1, snd r))
      (SplitAuthorityFromPathAndParseIt ap u).
Proof.
  unfold SplitAuthorityFromPathAndParseIt.
  destruct (bytes_eqb (substr_to 2 ap) (str "//")); [|reflexivity].
  rewrite (ParseAuthority_uniform _ u u1).
  destruct (ParseAuthority _ u); reflexivity.
Qed.

Lemma ParsePath_uniform (ps : bytes) (u u1 : Uri) :
  ParsePath ps u1 = option_map (fun v => with_path (path v) u1) (ParsePath ps u).
Proof.
  unfold ParsePath. destruct (ParsePath_decode _); reflexivity.
Qed.

Lemma ParseFragment_uniform (qf : bytes) (u u1 : Uri) :
  ParseFragment qf u1
  = option_map
      (fun r => (with_fragment (fragment (fst r))
                   (with_hasFragment (hasFragment (fst r)) u1), snd r))
      (ParseFragment qf u).
Proof.
  unfold ParseFragment. destruct (find "#" qf);
    destruct (DecodeQueryOrFragment _); reflexivity.
Qed.

Lemma ParseQuery_uniform (q : bytes) (u u1 : Uri) :
  ParseQuery q u1
  = option_map
      (fun v => with_query (query v) (with_hasQuery (hasQuery v) u1))
      (ParseQuery q u).
Proof.
  unfold ParseQuery. destruct (DecodeQueryOrFragment _); reflexivity.
Qed.

Lemma SetDefaultPath_uniform (u u1 : Uri) :
  host u1 = host u -> path u1 = path u ->
  SetDefaultPathIfAuthorityPresentAndPathEmpty u1
  = with_path (path (SetDefaultPathIfAuthorityPresentAndPathEmpty u)) u1.
Proof.
  intros Hh Hp. unfold SetDefaultPathIfAuthorityPresentAndPathEmpty.
  rewrite Hh, Hp.
  destruct (negb (empty (host u)) && empty (path u))%bool; cbn [path with_path].
  - reflexivity.
  - rewrite <- Hp. destruct u1; reflexivity.
Qed.

Lemma shape_of_uniform {A} (f : Uri -> option A) (T : A -> Uri -> A) :
  (forall u u1, f u1 = option_map (fun v => T v u1) (f u)) ->
  forall u v, f u = Some v -> v = T v u.
Proof.
  intros U u v H. pose proof (U u u) as E. rewrite H in E.
  cbn in E. congruence.
Qed.

(** X7: the outcome of [ParseFromString] does not depend on the state
    the object was in, with one exception: when the string has no port,
    the stored port number is left as it was.  Success or failure, and
    every other field, are decided by the string alone. *)
Theorem X7_parse_ignores_previous_state (s : bytes) (u0 u1 : Uri) :
  ParseFromString s u1
  = option_map (with_stale_port (port u1)) (ParseFromString s u0).
Proof.
  unfold ParseFromString.
  rewrite (ParseScheme_uniform s u0 u1).
  destruct (ParseScheme s u0) as [[v1 rest]|] eqn:E1; [|reflexivity].
  cbn [option_map fst snd]. cbv zeta.
  set (ap := match find_first_of (str "?#") rest with
             | Some pathEnd => substr_to pathEnd rest
             | None => rest
             end).
  set (w1 := with_scheme (scheme v1) u1).
  rewrite (Split_uniform ap v1 w1).
  destruct (SplitAuthorityFromPathAndParseIt ap v1) as [[v2 ps]|] eqn:E2;
    [|reflexivity].
  cbn [option_map fst snd].
  set (w2 := authority_onto v2 w1).
  rewrite (ParsePath_uniform ps v2 w2).
  destruct (ParsePath ps v2) as [v3|] eqn:E3; [|reflexivity].
  cbn [option_map].
  pose proof (shape_of_uniform (ParsePath ps) (fun v u => with_path (path v) u)
                (ParsePath_uniform ps) _ _ E3) as S3.
  pose proof (shape_of_uniform (SplitAuthorityFromPathAndParseIt ap)
                (fun r u => (authority_onto (fst r) u, snd r))
                (Split_uniform ap) _ _ E2) as S2.
  cbn [fst snd] in S2. injection S2 as S2.
  assert (Hh : host (with_path (path v3) w2) = host v3).
  { rewrite S3. reflexivity. }
  rewrite (SetDefaultPath_uniform v3 (with_path (path v3) w2) Hh eq_refl).
  destruct (SetDefaultPath_fields v3) as (D1 & D2 & D3 & D4 & D5 & _).
  set (v4 := SetDefaultPathIfAuthorityPresentAndPathEmpty v3) in *.
  set (w4 := with_path (path v4) (with_path (path v3) w2)).
  set (qf := substr_from (length ap) rest).
  rewrite (ParseFragment_uniform qf v4 w4).
  destruct (ParseFragment qf v4) as [[v5 rest']|] eqn:E5; [|reflexivity].
  cbn [option_map fst snd].
  pose proof (shape_of_uniform (ParseFragment qf)
                (fun r u => (with_fragment (fragment (fst r))
                               (with_hasFragment (hasFragment (fst r)) u),
                             snd r))
                (ParseFragment_uniform qf) _ _ E5) as S5.
  cbn [fst snd] in S5. injection S5 as S5.
  set (w5 := with_fragment (fragment v5) (with_hasFragment (hasFragment v5) w4)).
  rewrite (ParseQuery_uniform rest' v5 w5).
  destruct (ParseQuery rest' v5) as [v6|] eqn:E6; [|reflexivity].
  cbn [option_map].
  pose proof (shape_of_uniform (ParseQuery rest')
                (fun v u => with_query (query v) (with_hasQuery (hasQuery v) u))
                (ParseQuery_uniform rest') _ _ E6) as S6.
  f_equal.
  assert (F6 : scheme v6 = scheme v5 /\ userInfo v6 = userInfo v5
               /\ host v6 = host v5 /\ hasPort v6 = hasPort v5
               /\ port v6 = port v5 /\ path v6 = path v5
               /\ hasFragment v6 = hasFragment v5
               /\ fragment v6 = fragment v5).
  { rewrite S6. cbn. repeat split. }
  assert (F5 : scheme v5 = scheme v4 /\ userInfo v5 = userInfo v4
               /\ host v5 = host v4 /\ hasPort v5 = hasPort v4
               /\ port v5 = port v4 /\ path v5 = path v4).
  { rewrite S5. cbn. repeat split. }
  assert (F3 : scheme v3 = scheme v2 /\ userInfo v3 = userInfo v2
               /\ host v3 = host v2 /\ hasPort v3 = hasPort v2
               /\ port v3 = port v2).
  { rewrite S3. cbn. repeat split. }
  assert (F2 : scheme v2 = scheme v1).
  { rewrite S2. reflexivity. }
  destruct F6 as (A1 & A2 & A3 & A4 & A5 & A6 & A7 & A8).
  destruct F5 as (B1 & B2 & B3 & B4 & B5 & B6).
  destruct F3 as (C1 & C2 & C3 & C4 & C5).
  unfold with_stale_port.
  apply Uri_ext; subst w5 w4 w2 w1; cbn; try congruence.
  rewrite A4, B4, D4, C4, A5, B5, D5, C5. reflexivity.
Qed.

(** ** More on path normalization *)

(** X8: the path [NormalizePath] leaves behind holds no ["."] and no
    [".."] segment and no two neighbouring empty segments, and the
    paths it leaves unchanged are exactly the paths of that shape. *)
Theorem X8_normalized_shape (p : list bytes) :
  (forall seg, In seg (NormalizePath_path p) ->
               seg <> str "." /\ seg <> str "..")
  /\ no_adjacent_empty (NormalizePath_path p)
  /\ (NormalizePath_path p = p <-> normal_path p).
Proof.
  pose proof (NormalizePath_path_normal p) as [F N].
  split; [|split; [exact N|]].
  - intros seg Hin. rewrite Forall_forall in F. specialize (F seg Hin).
    apply plain_not_dots in F. destruct F as [F1 F2].
    split; intros ->; discriminate.
  - split.
    + intros E. rewrite <- E. split; assumption.
    + apply NormalizePath_path_fixed.
Qed.

Lemma NormalizePath_size_step (st : list bytes * bool) (seg : bytes) :
  NormalizePath_size (NormalizePath_step st seg) <= S (NormalizePath_size st).
Proof.
  destruct st as [q d].
  assert (B : forall q' d', length q' <= length q ->
              NormalizePath_size (q', d') <= S (NormalizePath_size (q, d))).
  { intros q' d' H. unfold NormalizePath_size, NormalizePath_finish.
    destruct (d' && _)%bool, (d && _)%bool; rewrite ?length_app; cbn; lia. }
  unfold NormalizePath_step.
  destruct (bytes_eqb seg (str ".")); [apply B; lia|].
  destruct (bytes_eqb seg (str "..")).
  { apply B. destruct (negb (empty q)); [|lia].
    destruct (CanNavigatePathUpOneLevel q); [|lia].
    destruct q as [|a q]; [cbn; lia|].
    rewrite (app_removelast_last a (l := a :: q)) at 2 by discriminate.
    rewrite length_app. cbn [length]. lia. }
  destruct (negb d || negb (empty seg))%bool eqn:C; [|apply B; lia].
  unfold NormalizePath_size, NormalizePath_finish.
  rewrite last_last.
  destruct seg as [|c seg]; cbn [empty negb andb].
  - rewrite andb_false_r, length_app. cbn [length].
    destruct (d && _)%bool; rewrite ?length_app; cbn; lia.
  - rewrite length_app. cbn [length].
    destruct (d && _)%bool; rewrite ?length_app; cbn; lia.
Qed.

Lemma NormalizePath_size_loop (l : list bytes) :
  forall st,
    NormalizePath_size (NormalizePath_loop l st)
    <= length l + NormalizePath_size st.
Proof.
  induction l as [|seg l IH]; intros st; [cbn; lia|].
  cbn [NormalizePath_loop fold_left length].
  fold (NormalizePath_loop l (NormalizePath_step st seg)).
  pose proof (IH (NormalizePath_step st seg)).
  pose proof (NormalizePath_size_step st seg). lia.
Qed.

(** X9: [NormalizePath] never makes a path longer: the result has at
    most as many segments as the path it was given, the trailing empty
    segment it may add included. *)
Theorem X9_normalize_never_longer (p : list bytes) :
  length (NormalizePath_path p) <= length p.
Proof.
  unfold NormalizePath_path.
  pose proof (NormalizePath_size_loop p ([], false)) as H.
  unfold NormalizePath_size in H at 1. cbn in H. lia.
Qed.

(** ** More on reference resolution *)

Lemma NormalizePath_path_keeps_absoluteness (p : list bytes) :
  IsPathAbsolute (NormalizePath_path p) = IsPathAbsolute p.
Proof.
  unfold NormalizePath_path. rewrite NormalizePath_finish_absolute.
  destruct p as [|first rest]; [reflexivity|].
  change (NormalizePath_loop (first :: rest) ([], false))
    with (NormalizePath_loop rest (NormalizePath_step ([], false) first)).
  destruct (IsPathAbsolute (first :: rest)) eqn:A.
  - simpl in A. apply bytes_eqb_eq in A. subst first.
    apply (NormalizePath_loop_invariant
             (fun st => IsPathAbsolute (fst st) = true)
             NormalizePath_step_absolute).
    reflexivity.
  - apply (NormalizePath_loop_invariant relative_state
             NormalizePath_step_relative).
    simpl in A. unfold relative_state, NormalizePath_step.
    destruct (bytes_eqb first (str ".")); [split; auto|].
    destruct (bytes_eqb first (str "..")); [split; auto|].
    destruct first as [|c first]; [discriminate|].
    cbn. split; [reflexivity | discriminate].
Qed.

(** X10: a reference that has a scheme resolves to itself with its path
    normalized, whatever the base; a reference without scheme but with a
    host resolves to the same, under the base's scheme. *)
Theorem X10_resolve_reference_with_authority (base reference : Uri) :
  (scheme reference <> [] -> Resolve base reference = NormalizePath reference)
  /\ (scheme reference = [] -> host reference <> [] ->
      Resolve base reference
      = with_scheme (scheme base) (NormalizePath reference)).
Proof.
  unfold Resolve. split.
  - intros Hs. destruct (scheme reference) eqn:E; [contradiction|].
    cbn [empty negb]. destruct reference. cbn in E. subst. reflexivity.
  - intros Hs Hh. rewrite Hs. cbn [empty negb].
    destruct (host reference) eqn:E; [contradiction|].
    cbn [empty negb]. destruct reference. cbn in *. subst. reflexivity.
Qed.

Lemma X10_witness :
  Resolve (parsed "http://a/b/c/d;p?q") (parsed "ftp://x/y/../z?w")
  = NormalizePath (parsed "ftp://x/y/../z?w")
  /\ Resolve (parsed "http://a/b/c/d;p?q") (parsed "//x/y/../z?w")
     = with_scheme (str "http") (NormalizePath (parsed "//x/y/../z?w")).
Proof.
  split.
  - apply (proj1 (X10_resolve_reference_with_authority _ _)).
    vm_compute. discriminate.
  - apply (proj2 (X10_resolve_reference_with_authority
                    (parsed "http://a/b/c/d;p?q") (parsed "//x/y/../z?w"))).
    + vm_compute. reflexivity.
    + vm_compute. discriminate.
Defined.

(** X11: for a reference with neither scheme nor host, the target takes
    scheme, user info, host and port from the base and the fragment from
    the reference, whatever the reference's path; an authority of the
    reference that consists of user info or a port alone is dropped.
    When the reference's path is not empty, the target takes the
    reference's query, present or not. *)
Theorem X11_resolve_relative_reference (base reference : Uri) :
  scheme reference = [] -> host reference = [] ->
  let target := Resolve base reference in
  scheme target = scheme base
  /\ (userInfo target, host target, hasPort target, port target)
     = (userInfo base, host base, hasPort base, port base)
  /\ (hasFragment target, fragment target)
     = (hasFragment reference, fragment reference)
  /\ (path reference <> [] ->
      (hasQuery target, query target)
      = (hasQuery reference, query reference)).
Proof.
  intros Hs Hh. unfold Resolve. rewrite Hs, Hh. cbn [empty negb].
  destruct (path reference) as [|r0 rp]; cbn [empty].
  - destruct (negb (empty (query reference))); cbn; repeat split.
    intros H. contradiction.
  - destruct (IsPathAbsolute (r0 :: rp)); cbn; repeat split.
Qed.

(** The reference [//u@:8/x] has user info and a port but no host:
    the target keeps the authority of the base. *)
Lemma X11_witness :
  let base := parsed "http://a/b?q" in
  let reference := parsed "//u@:8/x" in
  let target := Resolve base reference in
  scheme target = scheme base
  /\ (userInfo target, host target, hasPort target, port target)
     = (userInfo base, host base, hasPort base, port base)
  /\ (hasFragment target, fragment target)
     = (hasFragment reference, fragment reference)
  /\ (path reference <> [] ->
      (hasQuery target, query target)
      = (hasQuery reference, query reference)).
Proof.
  apply (X11_resolve_relative_reference
           (parsed "http://a/b?q") (parsed "//u@:8/x"));
    vm_compute; reflexivity.
Defined.

(** X12: unless the reference has neither scheme, host nor path (the
    case in which the base's path is copied as it is), the path of the
    target is normalized: it holds no ["."] and [".."] segment and no
    two neighbouring empty segments. *)
Theorem X12_resolve_path_is_normal (base reference : Uri) :
  scheme reference <> [] \/ host reference <> [] \/ path reference <> [] ->
  normal_path (path (Resolve base reference)).
Proof.
  intros H. unfold Resolve.
  destruct (scheme reference) eqn:Es; cbn [empty negb];
    [|cbn; apply NormalizePath_path_normal].
  destruct (host reference) eqn:Eh; cbn [empty negb];
    [|cbn; apply NormalizePath_path_normal].
  destruct (path reference) eqn:Ep; cbn [empty].
  - destruct H as [H | [H | H]]; contradiction.
  - destruct (IsPathAbsolute (l :: l0)); cbn;
      apply NormalizePath_path_normal.
Qed.

Lemma X12_witness :
  normal_path
    (path (Resolve (parsed "http://a/b/c/d;p?q") (parsed "../.././g/."))).
Proof.
  apply X12_resolve_path_is_normal. right. right. vm_compute. discriminate.
Defined.

Lemma IsPathAbsolute_app_l (p q : list bytes) :
  p <> [] -> IsPathAbsolute (p ++ q) = IsPathAbsolute p.
Proof. destruct p; [congruence | reflexivity]. Qed.

(** X13: for a reference with neither scheme nor host, resolved against
    a base whose path is absolute, the path of the target is absolute:
    merging never climbs above the root. *)
Theorem X13_resolve_keeps_root (base reference : Uri) :
  scheme reference = [] -> host reference = [] ->
  IsPathAbsolute (path base) = true ->
  IsPathAbsolute (path (Resolve base reference)) = true.
Proof.
  intros Hs Hh Hb. unfold Resolve. rewrite Hs, Hh. cbn [empty negb].
  destruct (path reference) as [|r0 rp] eqn:Ep; cbn [empty].
  - destruct (negb (empty (query reference))); cbn; exact Hb.
  - change (path (CopyPath base Uri_new)) with (path base).
    destruct (IsPathAbsolute (r0 :: rp)) eqn:Er.
    + cbn. rewrite NormalizePath_path_keeps_absoluteness, Ep. exact Er.
    + destruct (1 <? length (path base)) eqn:L; cbn;
        rewrite NormalizePath_path_keeps_absoluteness.
      * rewrite IsPathAbsolute_app_l.
        -- rewrite IsPathAbsolute_removelast; [exact Hb|].
           apply Nat.ltb_lt, L.
        -- apply Nat.ltb_lt in L. destruct (path base) as [|a [|b t]];
             cbn in L; try lia. discriminate.
      * rewrite IsPathAbsolute_app_l; [exact Hb|].
        destruct (path base); discriminate.
Qed.

Lemma X13_witness :
  IsPathAbsolute
    (path (Resolve (parsed "http://a/b/c/d;p?q") (parsed "../../../../g")))
  = true.
Proof.
  apply X13_resolve_keeps_root; vm_compute; reflexivity.
Defined.

(** ** More on the element codec *)

Lemma EncodeElement_app (a b : bytes) (S : CharacterSet) :
  EncodeElement (a ++ b) S = EncodeElement a S ++ EncodeElement b S.
Proof.
  induction a as [|c a IH]; [reflexivity|].
  cbn [app EncodeElement]. rewrite IH.
  destruct (Contains S c); reflexivity.
Qed.

Lemma EncodeElement_length (s : bytes) (S : CharacterSet) :
  length (EncodeElement s S)
  = length s + 2 * length (filter (fun c => negb (Contains S c)) s).
Proof.
  induction s as [|c s IH]; [reflexivity|].
  cbn [EncodeElement filter]. destruct (Contains S c); cbn [negb length];
    rewrite IH; lia.
Qed.

(** X14: [EncodeElement] works byte by byte: the encoding of a
    concatenation is the concatenation of the encodings; the result has
    the length of the input plus two for every byte outside the allowed
    set, so between one and three times the input's length; and it is
    the input itself exactly when every byte is in the allowed set. *)
Theorem X14_encode_bytewise (S : CharacterSet) (a b : bytes) :
  EncodeElement (a ++ b) S = EncodeElement a S ++ EncodeElement b S
  /\ length (EncodeElement a S)
     = length a + 2 * length (filter (fun c => negb (Contains S c)) a)
  /\ length a <= length (EncodeElement a S) <= 3 * length a
  /\ (EncodeElement a S = a <-> Forall (fun c => Contains S c = true) a).
Proof.
  split; [apply EncodeElement_app|]. split; [apply EncodeElement_length|].
  pose proof (EncodeElement_length a S) as L.
  pose proof (filter_length_le (fun c => negb (Contains S c)) a) as F.
  split; [lia|]. split.
  - intros E. rewrite E in L.
    assert (Z : filter (fun c => negb (Contains S c)) a = []).
    { destruct (filter _ a); [reflexivity | cbn in L; lia]. }
    apply Forall_forall. intros c Hc.
    destruct (Contains S c) eqn:C; [reflexivity|].
    assert (I : In c (filter (fun c => negb (Contains S c)) a)).
    { apply filter_In. split; [exact Hc|]. rewrite C. reflexivity. }
    rewrite Z in I. destruct I.
  - clear L F. intros H. induction H as [|c s Hc _ IH]; [reflexivity|].
    cbn [EncodeElement]. rewrite Hc, IH. reflexivity.
Qed.

(** X15: for a set without ['%'], [EncodeElement] is injective: two
    different byte strings are never written alike. *)
Theorem X15_encode_injective (S : CharacterSet) (a b : bytes) :
  Contains S "%" = false ->
  a <> b -> EncodeElement a S <> EncodeElement b S.
Proof.
  intros HS Hab E. apply Hab.
  pose proof (DecodeElement_EncodeElement S S HS (fun c H => H) a) as Da.
  pose proof (DecodeElement_EncodeElement S S HS (fun c H => H) b) as Db.
  rewrite E in Da. congruence.
Qed.

(** The segment [a b] and the segment that reads [a%20b] are written
    differently. *)
Lemma X15_witness :
  EncodeElement (str "a b") PCHAR_NOT_PCT_ENCODED
  <> EncodeElement (str "a%20b") PCHAR_NOT_PCT_ENCODED.
Proof.
  apply X15_encode_injective; [vm_compute; reflexivity | discriminate].
Defined.

(** X16: the query that [GenerateString] writes never holds a literal
    ['+'], whatever the query is, and [ParseQuery] reads it back
    exactly, although it decodes with a larger character set than the
    one the query was encoded with. *)
Theorem X16_query_without_plus (q : bytes) (u : Uri) :
  avoids "+" (EncodeElement q QUERY_NOT_PCT_ENCODED_WITHOUT_PLUS)
  /\ ParseQuery ("?" :: EncodeElement q QUERY_NOT_PCT_ENCODED_WITHOUT_PLUS) u
     = Some (with_query q (with_hasQuery true u))
  /\ (forall v, hasQuery v = true -> query v = q ->
        exists before after,
          GenerateString v
          = before ++ "?" :: EncodeElement q QUERY_NOT_PCT_ENCODED_WITHOUT_PLUS
                   ++ after).
Proof.
  split; [apply EncodeElement_avoids; vm_compute; reflexivity|].
  split.
  - unfold ParseQuery. cbn [empty negb substr_from skipn].
    unfold DecodeQueryOrFragment.
    rewrite DecodeElement_EncodeElement; [reflexivity | reflexivity |].
    intros c Hc. pose proof (query_set_sub c) as Q. rewrite Hc in Q. exact Q.
  - intros v Hq <-. rewrite GenerateString_parts.
    unfold query_text. rewrite Hq.
    exists (scheme_text v ++ (if HasAuthority v
                              then str "//" ++ authority_text v else [])
            ++ path_text (path v)), (fragment_text v).
    rewrite <- !app_assoc. reflexivity.
Qed.

(** ** Edge cases of decoding *)






Lemma DecodeElement_loop_length (S : CharacterSet) (s : bytes) :
  forall b pec acc d,
    DecodeElement_loop S s b pec acc = Some d ->
    length d <= length acc + length s.
Proof.
  induction s as [|c s IH]; intros b pec acc d H.
  - cbn in H. injection H as <-. lia.
  - cbn [DecodeElement_loop] in H. cbn [length]. destruct b.
    + destruct (NextEncodedCharacter pec c) as [pec'|]; [|discriminate].
      destruct (Done pec'); apply IH in H; rewrite ?length_app in H;
        cbn in H; lia.
    + destruct (char_eqb c "%"); [apply IH in H; lia|].
      destruct (Contains S c); [|discriminate].
      apply IH in H. rewrite length_app in H. cbn in H. lia.
Qed.

Lemma DecodeElement_loop_plain (S : CharacterSet) (s : bytes) :
  avoids "%" s ->
  forall pec acc,
    DecodeElement_loop S s false pec acc
    = if forallb (Contains S) s then Some (acc ++ s) else None.
Proof.
  induction 1 as [|c s Hc _ IH]; intros pec acc.
  - cbn. rewrite app_nil_r. reflexivity.
  - cbn [DecodeElement_loop forallb]. rewrite Hc.
    destruct (Contains S c); [|reflexivity].
    rewrite IH, <- app_assoc. reflexivity.
Qed.

(** X18: [DecodeElement] never lengthens: a decoded element has at most
    as many bytes as the text it came from.  On a text without ['%'] it
    is the identity when every character is in the allowed set, and
    fails otherwise. *)
Theorem X18_decode_length_and_plain_text (S : CharacterSet) (s : bytes) :
  (forall d, DecodeElement s S = Some d -> length d <= length s)
  /\ (avoids "%" s ->
      DecodeElement s S = if forallb (Contains S) s then Some s else None).
Proof.
  split.
  - intros d H. apply DecodeElement_loop_length in H. exact H.
  - intros H. unfold DecodeElement.
    rewrite DecodeElement_loop_plain by exact H. reflexivity.
Qed.

Lemma X18_witness :
  DecodeElement (str "a;b=c") PCHAR_NOT_PCT_ENCODED = Some (str "a;b=c")
  /\ DecodeElement (str "a b") PCHAR_NOT_PCT_ENCODED = None.
Proof.
  split.
  - apply (proj2 (X18_decode_length_and_plain_text PCHAR_NOT_PCT_ENCODED
                    (str "a;b=c"))).
    repeat constructor.
  - apply (proj2 (X18_decode_length_and_plain_text PCHAR_NOT_PCT_ENCODED
                    (str "a b"))).
    repeat constructor.
Defined.

(** ** More on the authority *)

Lemma Host_switch_keeps_regname (s s' : HostScan) (c : ascii) :
  Host_switch s c = Some s' ->
  hostIsRegName s = true -> hostIsRegName s' = true.
Proof.
  unfold Host_switch, case_NOT_IP_LITERAL, case_IPV6_ADDRESS. intros H R.
  destruct (hostParsingState s);
    repeat match type of H with
           | context [if ?b then _ else _] => destruct b
           | context [match ?b with Some _ => _ | None => _ end] => destruct b
           end;
    try discriminate; injection H as <-; cbn; auto.
Qed.

Lemma Host_loop_keeps_regname (hp : bytes) :
  forall s s', Host_loop hp s = Some s' ->
    hostIsRegName s = true -> hostIsRegName s' = true.
Proof.
  induction hp as [|c hp IH]; intros s s' H R.
  - cbn in H. injection H as <-. exact R.
  - rewrite Host_loop_cons in H.
    destruct (Host_switch s c) as [s1|] eqn:E; [|discriminate].
    apply (IH _ _ H). apply (Host_switch_keeps_regname _ _ _ E R).
Qed.

Lemma Host_switch_first_regname (s' : HostScan) (c : ascii) :
  char_eqb c "[" = false ->
  Host_switch HostScan_init c = Some s' -> hostIsRegName s' = true.
Proof.
  intros Hc. unfold Host_switch, case_NOT_IP_LITERAL.
  cbn [hostParsingState HostScan_init]. rewrite Hc. intros H.
  repeat match type of H with
         | context [if ?b then _ else _] => destruct b
         end;
    try discriminate; injection H as <-; reflexivity.
Qed.

Lemma ParseAuthority_hostPort_host (hp : bytes) (u u' : Uri) :
  ParseAuthority_hostPort hp u = Some u' ->
  exists s,
    Host_loop hp HostScan_init = Some s
    /\ final_state_ok (hostParsingState s) = true
    /\ host u' = if hostIsRegName s then lowercase (scanHost s)
                 else scanHost s.
Proof.
  unfold ParseAuthority_hostPort.
  destruct (Host_loop hp HostScan_init) as [s|]; [|discriminate].
  intros H. exists s. split; [reflexivity|].
  destruct (hostParsingState s); try discriminate; cbn [final_state_ok];
    (split; [reflexivity|]);
    (destruct (empty (portString s));
     [injection H as <-; reflexivity|];
     destruct (stoi (portString s)) as [p|]; [|discriminate];
     destruct ((p <? 0) || (65535 <? p))%Z%bool; [discriminate|];
     injection H as <-; reflexivity).
Qed.

(** X19: a host that is not written as an IP literal is stored in lower
    case: when the authority parse succeeds and the text after the
    first ['@'] does not open with a bracket, the host holds no
    upper-case letter, percent-decoded bytes included. *)
Theorem X19_reg_name_host_is_lower_case (a : bytes) (u u' : Uri) :
  ParseAuthority a u = Some u' ->
  opens_literal (hostPort_of a) = false ->
  lowercase (host u') = host u'.
Proof.
  unfold ParseAuthority, hostPort_of. intros H O.
  assert (G : exists v, ParseAuthority_hostPort
                          match find "@" a with
                          | Some d => substr_from (d + 1) a
                          | None => a
                          end v = Some u').
  { destruct (find "@" a) as [d|].
    - destruct (DecodeElement _ _) as [decoded|]; [|discriminate].
      eexists. exact H.
    - eexists. exact H. }
  destruct G as [v G]. clear H.
  destruct (ParseAuthority_hostPort_host _ _ _ G) as (s & L & _ & Hh).
  rewrite Hh.
  destruct (match find "@" a with
            | Some d => substr_from (d + 1) a
            | None => a
            end) as [|c hp].
  - cbn in L. injection L as <-. reflexivity.
  - cbn [opens_literal] in O. rewrite Host_loop_cons in L.
    destruct (Host_switch HostScan_init c) as [s1|] eqn:E; [|discriminate].
    pose proof (Host_switch_first_regname _ _ O E) as R1.
    rewrite (Host_loop_keeps_regname _ _ _ L R1).
    apply lowercase_idempotent.
Qed.

Lemma X19_witness :
  exists u',
    ParseAuthority (str "Bob@EXAMPLE.%43om:80") Uri_new = Some u'
    /\ host u' = str "example.com"
    /\ lowercase (host u') = host u'.
Proof.
  eexists. split; [vm_compute; reflexivity|].
  split; [reflexivity|].
  apply (X19_reg_name_host_is_lower_case (str "Bob@EXAMPLE.%43om:80")
           Uri_new);
    vm_compute; reflexivity.
Defined.








(** ** The IPv4 validator *)

Lemma digit_value_small :
  forall c, implb (is_digit c) (code c - code "0" <? 10)%N = true.
Proof. by_all_bytes. Qed.

Lemma digit_value_bound (c : ascii) :
  is_digit c = true -> (0 <= Z.of_N (code c - code "0") <= 9)%Z.
Proof.
  intros H. pose proof (digit_value_small c) as D. rewrite H in D.
  cbn [implb] in D. apply N.ltb_lt in D. lia.
Qed.

Lemma wrap_int_small (z : Z) :
  (0 <= z < 2147483648)%Z -> wrap_int z = z.
Proof.
  intros H. unfold wrap_int. rewrite Z.mod_small; lia.
Qed.

Lemma ValidateOctet_loop_digits (g : bytes) :
  forall acc r, ValidateOctet_loop g acc = Some r ->
    Forall (fun c => is_digit c = true) g.
Proof.
  induction g as [|c g IH]; intros acc r H; [constructor|].
  cbn [ValidateOctet_loop] in H.
  destruct (Contains DIGIT c) eqn:D; [|discriminate].
  constructor; [exact D | exact (IH _ _ H)].
Qed.

Lemma ValidateOctet_digits (g : bytes) :
  ValidateOctet g = true -> Forall (fun c => is_digit c = true) g.
Proof.
  unfold ValidateOctet.
  destruct (ValidateOctet_loop g 0) as [r|] eqn:E; [|discriminate].
  intros _. exact (ValidateOctet_loop_digits _ _ _ E).
Qed.

Lemma ValidateOctet_loop_value (g : bytes) :
  Forall (fun c => is_digit c = true) g ->
  forall acc : Z,
    (0 <= acc)%Z ->
    ((acc + 1) * 10 ^ Z.of_nat (length g) <= 2147483648)%Z ->
    let v := fold_left
               (fun v c => (v * 10 + Z.of_N (code c - code "0"))%Z) g acc in
    ValidateOctet_loop g acc = Some v
    /\ (acc * 10 ^ Z.of_nat (length g) <= v
        < (acc + 1) * 10 ^ Z.of_nat (length g))%Z.
Proof.
  induction 1 as [|c g D _ IH]; intros acc A B.
  - cbn. split; [reflexivity|]. lia.
  - cbn [ValidateOctet_loop fold_left]. unfold is_digit in D. rewrite D.
    pose proof (digit_value_bound c D) as V.
    change (length (c :: g)) with (S (length g)) in *.
    rewrite Nat2Z.inj_succ, Z.pow_succ_r in * by lia.
    assert (P : (0 < 10 ^ Z.of_nat (length g))%Z)
      by (apply Z.pow_pos_nonneg; lia).
    assert (S1 : (acc * 10 + 9 < 2147483648)%Z) by nia.
    rewrite (wrap_int_small (acc * 10)) by lia.
    rewrite wrap_int_small by lia.
    destruct (IH (acc * 10 + Z.of_N (code c - code "0"))%Z) as [E R];
      [lia | nia |].
    split; [exact E|]. nia.
Qed.

(** X21: [ValidateOctet] accepts nothing but decimal digits (the empty
    text included), and on up to nine digits, where the [int] cannot
    overflow, it accepts exactly the numbers up to 255, leading zeros
    allowed. *)
Theorem X21_octet_is_a_number_up_to_255 (g : bytes) :
  (ValidateOctet g = true -> Forall (fun c => is_digit c = true) g)
  /\ (Forall (fun c => is_digit c = true) g -> length g <= 9 ->
      ValidateOctet g = (decimal_value g <=? 255)%Z).
Proof.
  split; [apply ValidateOctet_digits|].
  intros D L. unfold ValidateOctet, decimal_value.
  destruct (ValidateOctet_loop_value g D 0%Z) as [E _]; [lia | |].
  - change ((0 + 1) * 10 ^ Z.of_nat (length g))%Z
      with (1 * 10 ^ Z.of_nat (length g))%Z.
    rewrite Z.mul_1_l.
    apply Z.le_trans with (10 ^ 9)%Z; [|vm_compute; discriminate].
    apply Z.pow_le_mono_r; lia.
  - rewrite E. reflexivity.
Qed.

Lemma X21_witness :
  ValidateOctet (str "0255") = (decimal_value (str "0255") <=? 255)%Z
  /\ Forall (fun c => is_digit c = true) (str "0255").
Proof.
  split.
  - apply (proj2 (X21_octet_is_a_number_up_to_255 (str "0255")));
      [repeat constructor | cbn; lia].
  - apply (proj1 (X21_octet_is_a_number_up_to_255 (str "0255"))).
    vm_compute. reflexivity.
Defined.

Lemma dotted_cons (g : bytes) (groups : list bytes) :
  dotted (g :: groups) = g ++ "." :: dotted groups.
Proof.
  unfold dotted. cbn [map concat]. rewrite <- app_assoc. reflexivity.
Qed.

Lemma digit_not_dot (c : ascii) :
  is_digit c = true -> char_eqb c "." = false.
Proof.
  intros H.
  assert (P : forall y, implb (is_digit y) (negb (char_eqb y ".")) = true)
    by by_all_bytes.
  specialize (P c). rewrite H in P. apply negb_true_iff, P.
Qed.

(** What an accepted scan has read: the buffer and the rest of the text
    are whole groups, each followed by its dot, then the final buffer. *)
Lemma ValidateIpv4Address_loop_shape (address : bytes) :
  forall n st buf n' buf',
    ValidateIpv4Address_loop address n st buf = Some (n', buf') ->
    (st = 0 /\ buf = []
     \/ st = 1 /\ buf <> [] /\ Forall (fun c => is_digit c = true) buf) ->
    exists groups,
      Forall octet_text groups
      /\ buf ++ address = dotted groups ++ buf'
      /\ n' = n + length groups.
Proof.
  induction address as [|c address IH]; intros n st buf n' buf' H I.
  - cbn in H. injection H as <- <-. exists []. rewrite app_nil_r.
    cbn [dotted map concat app length].
    split; [constructor|]. split; [reflexivity | lia].
  - cbn [ValidateIpv4Address_loop] in H.
    destruct I as [[-> ->]|(-> & NE & D)].
    + destruct (Contains DIGIT c) eqn:Dc; [|discriminate].
      destruct (IH _ _ _ _ _ H) as (groups & G & E & N).
      { right. split; [reflexivity|]. split; [discriminate|].
        repeat constructor. exact Dc. }
      exists groups. split; [exact G|]. split; [exact E | exact N].
    + destruct (char_eqb c ".") eqn:Dot.
      * apply char_eqb_eq in Dot. subst c.
        destruct (4 <=? n) eqn:L; [discriminate|].
        destruct (ValidateOctet buf) eqn:V; [|discriminate].
        cbn [negb] in H.
        destruct (IH _ _ _ _ _ H) as (groups & G & E & N).
        { left. split; reflexivity. }
        exists (buf :: groups). rewrite dotted_cons.
        cbn [app] in E.
        split; [constructor; [split; assumption | exact G]|].
        split; [rewrite <- app_assoc; cbn [app]; rewrite <- E; reflexivity|].
        cbn [length]. lia.
      * destruct (Contains DIGIT c) eqn:Dc; [|discriminate].
        destruct (IH _ _ _ _ _ H) as (groups & G & E & N).
        { right. split; [reflexivity|]. split.
          - destruct buf; discriminate.
          - apply Forall_app. split; [exact D|]. repeat constructor.
            exact Dc. }
        exists groups. rewrite <- app_assoc in E.
        split; [exact G|]. split; [exact E | exact N].
Qed.

Lemma ValidateIpv4Address_loop_run (g : bytes) :
  Forall (fun c => is_digit c = true) g ->
  forall tail n buf,
    ValidateIpv4Address_loop (g ++ tail) n 1 buf
    = ValidateIpv4Address_loop tail n 1 (buf ++ g).
Proof.
  induction 1 as [|c g D _ IH]; intros tail n buf.
  - rewrite app_nil_r. reflexivity.
  - cbn [app ValidateIpv4Address_loop]. rewrite (digit_not_dot c D).
    unfold is_digit in D. rewrite D. rewrite IH, <- app_assoc. reflexivity.
Qed.

Lemma ValidateIpv4Address_loop_group (g tail : bytes) (n : nat) :
  g <> [] -> Forall (fun c => is_digit c = true) g ->
  ValidateIpv4Address_loop (g ++ tail) n 0 []
  = ValidateIpv4Address_loop tail n 1 g.
Proof.
  intros NE D. destruct D as [|c g Dc D]; [contradiction|].
  cbn [app ValidateIpv4Address_loop]. unfold is_digit in Dc. rewrite Dc.
  apply (ValidateIpv4Address_loop_run g D tail n [c]).
Qed.

Lemma ValidateIpv4Address_loop_groups (groups : list bytes) :
  Forall octet_text groups ->
  forall last n,
    n + length groups <= 4 ->
    Forall (fun c => is_digit c = true) last ->
    ValidateIpv4Address_loop (dotted groups ++ last) n 0 []
    = if empty last then Some (n + length groups, [])
      else Some (n + length groups, last).
Proof.
  induction 1 as [|g groups [NE V] _ IH]; intros last n L D.
  - cbn [dotted map concat app length]. rewrite Nat.add_0_r.
    destruct last as [|c last]; [reflexivity|].
    replace (ValidateIpv4Address_loop (c :: last) n 0 [])
      with (ValidateIpv4Address_loop ((c :: last) ++ []) n 0 [])
      by (rewrite app_nil_r; reflexivity).
    rewrite ValidateIpv4Address_loop_group by (auto; discriminate).
    reflexivity.
  - rewrite dotted_cons, <- app_assoc.
    rewrite ValidateIpv4Address_loop_group
      by (auto using ValidateOctet_digits).
    cbn [app ValidateIpv4Address_loop length] in *.
    change (char_eqb "." ".") with true. cbv iota.
    assert (L4 : (4 <=? n) = false) by (apply Nat.leb_gt; lia).
    rewrite L4, V. cbn [negb]. rewrite IH by (auto; lia).
    replace (S n + length groups) with (n + S (length groups)) by lia.
    reflexivity.
Qed.

(** X22: the texts [ValidateIpv4Address] accepts are exactly these:
    four non-empty decimal groups that [ValidateOctet] accepts, separated
    by dots, and optionally one more dot at the end. *)
Theorem X22_ipv4_accepted_language (address : bytes) :
  ValidateIpv4Address address = true
  <-> exists groups last,
        Forall octet_text groups
        /\ (last = [] /\ length groups = 4
            \/ octet_text last /\ length groups = 3)
        /\ address = dotted groups ++ last.
Proof.
  split.
  - unfold ValidateIpv4Address.
    destruct (ValidateIpv4Address_loop address 0 0 [])
      as [[n' buf']|] eqn:E; [|discriminate].
    destruct (ValidateIpv4Address_loop_shape _ _ _ _ _ _ E)
      as (groups & G & S & N); [left; auto|].
    cbn [app] in S. cbn [Nat.add] in N. subst n'.
    intros H. exists groups, buf'. split; [exact G|].
    split; [|exact S].
    destruct buf' as [|c buf'].
    + left. cbn in H. apply Nat.eqb_eq in H. auto.
    + right. cbn [empty negb] in H.
      change (negb (empty (c :: buf'))) with true in H. cbv iota in H.
      destruct (ValidateOctet (c :: buf')) eqn:V; [|discriminate].
      cbn [negb] in H. apply Nat.eqb_eq in H.
      split; [split; [discriminate | exact V] | lia].
  - intros (groups & last & G & C & ->).
    unfold ValidateIpv4Address.
    destruct C as [[-> L]|[[NE V] L]].
    + rewrite ValidateIpv4Address_loop_groups by (auto; lia).
      cbn [empty]. change (empty (@nil ascii)) with true. cbv iota.
      cbn [negb Nat.add]. rewrite L. reflexivity.
    + rewrite ValidateIpv4Address_loop_groups
        by (auto using ValidateOctet_digits; lia).
      destruct last as [|c last]; [contradiction|].
      change (empty (c :: last)) with false. cbv iota. cbn [negb].
      rewrite V. cbn [negb Nat.add]. rewrite L. reflexivity.
Qed.

(** ** The IPv6 validator on plain hexadecimal groups *)

Lemma hex_not_separator (c : ascii) :
  Contains HEXDIG c = true ->
  char_eqb c ":" = false /\ char_eqb c "." = false.
Proof.
  intros H.
  assert (P : forall y,
             implb (Contains HEXDIG y)
               (negb (char_eqb y ":") && negb (char_eqb y "."))%bool = true)
    by by_all_bytes.
  specialize (P c). rewrite H in P. cbn [implb] in P.
  apply andb_true_iff in P. destruct P as [P1 P2].
  split; apply negb_true_iff; assumption.
Qed.

Lemma ValidateIpv6Address_loop_cons (c : ascii) (rest : bytes) (s : Ipv6Scan) :
  ValidateIpv6Address_loop (c :: rest) s
  = match Ipv6_switch s c with
    | None => None
    | Some s' =>
      if ipv4AddressEncountered s' then Some s'
      else ValidateIpv6Address_loop rest (set_position (S (position s')) s')
    end.
Proof. reflexivity. Qed.

(** What the lemmas below keep track of. *)
Lemma Ipv6_switch_in_group_hex (s : Ipv6Scan) (c : ascii) :
  in_group (state s) = true -> Contains HEXDIG c = true ->
  numDigits s < 4 ->
  exists s',
    Ipv6_switch s c = Some s'
    /\ in_group (state s') = true
    /\ numDigits s' = S (numDigits s)
    /\ numGroups s' = numGroups s
    /\ doubleColonEncountered s' = doubleColonEncountered s
    /\ ipv4AddressEncountered s' = ipv4AddressEncountered s.
Proof.
  intros G H L. destruct (hex_not_separator c H) as [C D].
  assert (B : (4 <? S (numDigits s)) = false) by (apply Nat.ltb_ge; lia).
  unfold Ipv6_switch.
  destruct (state s); try discriminate; rewrite C, ?D;
    destruct (Contains DIGIT c); rewrite ?H; unfold bump_digit;
    cbn [numDigits set_numDigits]; rewrite B;
    eexists; (split; [reflexivity|]); cbn; auto.
Qed.

Lemma Ipv6_switch_begin_hex (s : Ipv6Scan) (c : ascii) :
  group_may_begin (state s) = true -> Contains HEXDIG c = true ->
  numDigits s = 0 ->
  exists s',
    Ipv6_switch s c = Some s'
    /\ in_group (state s') = true
    /\ numDigits s' = 1
    /\ numGroups s' = numGroups s
    /\ doubleColonEncountered s' = doubleColonEncountered s
    /\ ipv4AddressEncountered s' = ipv4AddressEncountered s.
Proof.
  intros G H Z. destruct (hex_not_separator c H) as [C D].
  unfold Ipv6_switch.
  destruct (state s); try discriminate; rewrite ?C;
    destruct (Contains DIGIT c); rewrite ?H; unfold bump_digit;
    cbn [numDigits set_numDigits set_potentialIpv4AddressStart];
    rewrite ?Z; change (4 <? 1) with false; cbv iota;
    eexists; (split; [reflexivity|]); cbn; auto.
Qed.

Lemma Ipv6_scan_digits (g : bytes) :
  Forall (fun c => Contains HEXDIG c = true) g ->
  forall tail s,
    in_group (state s) = true -> ipv4AddressEncountered s = false ->
    numDigits s + length g <= 4 ->
    exists s',
      ValidateIpv6Address_loop (g ++ tail) s
      = ValidateIpv6Address_loop tail s'
      /\ in_group (state s') = true
      /\ ipv4AddressEncountered s' = false
      /\ numGroups s' = numGroups s
      /\ doubleColonEncountered s' = doubleColonEncountered s.
Proof.
  induction 1 as [|c g H _ IH]; intros tail s G F L.
  - exists s. auto.
  - cbn [length] in L. cbn [app]. rewrite ValidateIpv6Address_loop_cons.
    destruct (Ipv6_switch_in_group_hex s c G H)
      as (s1 & E & G1 & D1 & N1 & C1 & F1); [lia|].
    rewrite E, F1, F.
    destruct (IH tail (set_position (S (position s1)) s1))
      as (s' & E' & G' & F' & N' & C'); cbn; try congruence; try lia.
    exists s'. rewrite E'. cbn in N', C'.
    repeat split; congruence.
Qed.

Lemma Ipv6_scan_group (g tail : bytes) (s : Ipv6Scan) :
  hex_group g ->
  group_may_begin (state s) = true -> ipv4AddressEncountered s = false ->
  numDigits s = 0 ->
  exists s',
    ValidateIpv6Address_loop (g ++ tail) s = ValidateIpv6Address_loop tail s'
    /\ in_group (state s') = true
    /\ ipv4AddressEncountered s' = false
    /\ numGroups s' = numGroups s
    /\ doubleColonEncountered s' = doubleColonEncountered s.
Proof.
  intros (NE & L & H) G F Z. destruct H as [|c g H Hg]; [contradiction|].
  cbn [length] in L. cbn [app]. rewrite ValidateIpv6Address_loop_cons.
  destruct (Ipv6_switch_begin_hex s c G H Z)
    as (s1 & E & G1 & D1 & N1 & C1 & F1).
  rewrite E, F1, F.
  destruct (Ipv6_scan_digits g Hg tail (set_position (S (position s1)) s1))
    as (s' & E' & G' & F' & N' & C'); cbn; try congruence; try lia.
  exists s'. rewrite E'. cbn in N', C'.
  repeat split; congruence.
Qed.

Lemma Ipv6_scan_colon (tail : bytes) (s : Ipv6Scan) :
  in_group (state s) = true -> ipv4AddressEncountered s = false ->
  exists s',
    ValidateIpv6Address_loop (":" :: tail) s
    = ValidateIpv6Address_loop tail s'
    /\ state s' = COLON_AFTER_GROUP
    /\ ipv4AddressEncountered s' = false
    /\ numDigits s' = 0
    /\ numGroups s' = S (numGroups s)
    /\ doubleColonEncountered s' = doubleColonEncountered s.
Proof.
  intros G F. rewrite ValidateIpv6Address_loop_cons. unfold Ipv6_switch.
  destruct (state s); try discriminate;
    change (char_eqb ":" ":") with true; cbv iota;
    cbn [ipv4AddressEncountered set_state set_numGroups set_numDigits];
    rewrite F; eexists; (split; [reflexivity|]); cbn; auto.
Qed.

Lemma Ipv6_scan_groups (groups : list bytes) :
  Forall hex_group groups -> groups <> [] ->
  forall tail s,
    group_may_begin (state s) = true -> ipv4AddressEncountered s = false ->
    numDigits s = 0 ->
    exists s',
      ValidateIpv6Address_loop (colon_join groups ++ tail) s
      = ValidateIpv6Address_loop tail s'
      /\ in_group (state s') = true
      /\ ipv4AddressEncountered s' = false
      /\ S (numGroups s') = numGroups s + length groups
      /\ doubleColonEncountered s' = doubleColonEncountered s.
Proof.
  induction 1 as [|g groups Hg Hgs IH]; intros NE tail s G F Z;
    [contradiction|].
  destruct groups as [|g1 groups].
  - cbn [colon_join length].
    destruct (Ipv6_scan_group g tail s Hg G F Z)
      as (s' & E & G' & F' & N' & C').
    exists s'. repeat split; auto. lia.
  - change (colon_join (g :: g1 :: groups))
      with (g ++ ":" :: colon_join (g1 :: groups)).
    rewrite <- app_assoc. cbn [app].
    destruct (Ipv6_scan_group g
                (":" :: colon_join (g1 :: groups) ++ tail) s Hg G F Z)
      as (s1 & E1 & G1 & F1 & N1 & C1).
    destruct (Ipv6_scan_colon (colon_join (g1 :: groups) ++ tail) s1 G1 F1)
      as (s2 & E2 & G2 & F2 & D2 & N2 & C2).
    destruct (IH ltac:(discriminate) tail s2)
      as (s3 & E3 & G3 & F3 & N3 & C3);
      [rewrite G2; reflexivity | exact F2 | exact D2 |].
    exists s3. rewrite E1, E2, E3. cbn [length] in *.
    repeat split; auto; try congruence. lia.
Qed.

(** The verdict once the scan has ended without an embedded IPv4
    address and not on a single colon. *)
Lemma ValidateIpv6Address_verdict (address : bytes) (s : Ipv6Scan) :
  ValidateIpv6Address_loop address Ipv6Scan_init = Some s ->
  ipv4AddressEncountered s = false ->
  (in_group (state s) || group_may_begin (state s))%bool = true ->
  state s <> COLON_AFTER_GROUP ->
  ValidateIpv6Address address
  = let n := if in_group (state s) then S (numGroups s) else numGroups s in
    if doubleColonEncountered s then n <=? 7 else n =? 8.
Proof.
  intros E F G NC. unfold ValidateIpv6Address. rewrite E.
  destruct s as [st n d dc p pos f]. cbn in F, G, NC |- *. subst f.
  destruct st; try discriminate; try contradiction; cbn;
    rewrite ?andb_false_r; reflexivity.
Qed.

Lemma Ipv6_scan_double_colon (before : list bytes) (tail : bytes) :
  Forall hex_group before ->
  exists s',
    ValidateIpv6Address_loop (colon_join before ++ ":" :: ":" :: tail)
      Ipv6Scan_init
    = ValidateIpv6Address_loop tail s'
    /\ state s' = AFTER_DOUBLE_COLON
    /\ ipv4AddressEncountered s' = false
    /\ numDigits s' = 0
    /\ numGroups s' = length before
    /\ doubleColonEncountered s' = true.
Proof.
  intros B. destruct before as [|g before].
  - cbn [colon_join app]. rewrite !ValidateIpv6Address_loop_cons.
    eexists. split; [reflexivity|]. cbn. auto.
  - destruct (Ipv6_scan_groups (g :: before) B ltac:(discriminate)
                (":" :: ":" :: tail) Ipv6Scan_init)
      as (s1 & E1 & G1 & F1 & N1 & C1); try reflexivity.
    destruct (Ipv6_scan_colon (":" :: tail) s1 G1 F1)
      as (s2 & E2 & G2 & F2 & D2 & N2 & C2).
    rewrite E1, E2, ValidateIpv6Address_loop_cons. unfold Ipv6_switch.
    rewrite G2. change (char_eqb ":" ":") with true. cbv iota.
    rewrite C2, C1. cbn [doubleColonEncountered Ipv6Scan_init].
    cbn [ipv4AddressEncountered set_state set_doubleColonEncountered].
    rewrite F2. eexists. split; [reflexivity|]. cbn.
    cbn [numGroups Ipv6Scan_init Nat.add] in N1.
    repeat split; auto. cbn [length] in *. lia.
Qed.

(** X23: [ValidateIpv6Address] on plain groups of one to four
    hexadecimal digits: without ["::"] the address is accepted exactly
    when there are eight groups, and with one ["::"] exactly when there
    are at most seven groups around it. *)
Theorem X23_ipv6_group_counts (before after : list bytes) :
  Forall hex_group before -> Forall hex_group after ->
  ValidateIpv6Address (colon_join before) = (length before =? 8)
  /\ ValidateIpv6Address (colon_join before ++ ":" :: ":" :: colon_join after)
     = (length before + length after <=? 7).
Proof.
  intros B A. split.
  - destruct before as [|g before]; [reflexivity|].
    destruct (Ipv6_scan_groups (g :: before) B ltac:(discriminate)
                [] Ipv6Scan_init)
      as (s1 & E1 & G1 & F1 & N1 & C1); try reflexivity.
    rewrite app_nil_r in E1. cbn [ValidateIpv6Address_loop] in E1.
    rewrite (ValidateIpv6Address_verdict _ s1 E1 F1).
    + rewrite G1, C1. cbn [doubleColonEncountered Ipv6Scan_init].
      cbv zeta iota. rewrite N1. reflexivity.
    + rewrite G1. reflexivity.
    + intros Q. rewrite Q in G1. discriminate.
  - destruct (Ipv6_scan_double_colon before (colon_join after) B)
      as (s2 & E2 & G2 & F2 & D2 & N2 & C2).
    destruct after as [|g after].
    + cbn [colon_join ValidateIpv6Address_loop] in E2 |- *.
      rewrite (ValidateIpv6Address_verdict _ s2 E2 F2).
      * rewrite G2, C2. cbn [in_group]. cbv zeta iota.
        rewrite N2, Nat.add_0_r. reflexivity.
      * rewrite G2. reflexivity.
      * rewrite G2. discriminate.
    + destruct (Ipv6_scan_groups (g :: after) A ltac:(discriminate) [] s2)
        as (s3 & E3 & G3 & F3 & N3 & C3);
        [rewrite G2; reflexivity | exact F2 | exact D2 |].
      rewrite app_nil_r in E3. rewrite E3 in E2.
      cbn [ValidateIpv6Address_loop] in E2.
      rewrite (ValidateIpv6Address_verdict _ s3 E2 F3).
      * rewrite G3, C3, C2. cbv zeta iota. rewrite N3, N2. reflexivity.
      * rewrite G3. reflexivity.
      * intros Q. rewrite Q in G3. discriminate.
Qed.

Lemma X23_witness :
  ValidateIpv6Address (colon_join [str "2001"; str "db8"])
  = (length [str "2001"; str "db8"] =? 8)
  /\ ValidateIpv6Address
       (colon_join [str "2001"; str "db8"]
        ++ ":" :: ":" :: colon_join [str "8A2E"; str "370"; str "7334"])
     = (length [str "2001"; str "db8"]
        + length [str "8A2E"; str "370"; str "7334"] <=? 7).
Proof.
  apply (X23_ipv6_group_counts
           [str "2001"; str "db8"] [str "8A2E"; str "370"; str "7334"]);
    repeat constructor; try discriminate; cbn; lia.
Defined.

(** ** Writing and reading back a value, however it was built *)

(** X24: any value that meets the invariants of a parsed one, for
    instance one put together with the setters, is written by
    [GenerateString] to a string that [ParseFromString] reads back to an
    equal value: the scheme is empty or legal and in lower case, the
    port within 0..65535, the path empty or absolute beside an
    authority and not empty beside a host, the host in lower case, the
    path not the pair of two empty segments and not opening with two
    empty segments without an authority, and, without a scheme, no
    [':'] written before the first ['/']. *)
Theorem X24_written_value_reads_back (u u1 : Uri) :
  (scheme u = []
   \/ legal_scheme (scheme u) /\ lowercase (scheme u) = scheme u) ->
  (hasPort u = true -> (0 <= port u <= 65535)%Z) ->
  (HasAuthority u = true -> path u = [] \/ IsPathAbsolute (path u) = true) ->
  (host u <> [] -> path u <> []) ->
  lowercase (host u) = host u ->
  path u <> [[]; []] ->
  (HasAuthority u = false -> begins_with_two_empty (path u) = false) ->
  (scheme u = [] -> schemeEnd (GenerateString u) = None) ->
  exists u',
    ParseFromString (GenerateString u) u1 = Some u'
    /\ Uri_eqb u' u = true.
Proof.
  intros I1 I2 I4 I5 L H4 H2 H3.
  set (AP := authority_part u ++ path_text (path u)).
  set (QF := query_text u ++ fragment_text u).
  assert (E1 : ParseScheme (GenerateString u) u1
               = Some (with_scheme (scheme u) u1, AP ++ QF)).
  { assert (G : GenerateString u = scheme_text u ++ AP ++ QF).
    { rewrite GenerateString_parts. subst AP QF. fold (authority_part u).
      rewrite <- app_assoc. reflexivity. }
    unfold scheme_text in G. destruct (scheme u) as [|c sc] eqn:Sc.
    - specialize (H3 eq_refl). unfold ParseScheme. rewrite H3, G. reflexivity.
    - rewrite G. cbn [empty negb]. rewrite <- app_assoc. cbn [app].
      apply (ParseScheme_written (c :: sc) (AP ++ QF) u1).
      destruct I1 as [I1 | [I1 I1']]; [discriminate|].
      split; [apply FailsMatch_legal, I1 | exact I1']. }
  pose proof (authority_part_before_query u L) as B. fold AP in B.
  pose proof (cut_at_query AP QF B (query_fragment_shape u)) as E2.
  destruct (Split_written u (with_scheme (scheme u) u1) L I2 I4 H2)
    as (u2 & E3 & F1 & F2 & F3 & F4 & F5).
  fold AP in E3.
  unfold ParseFromString. rewrite E1. cbv zeta. rewrite E2.
  rewrite substr_from_app, E3.
  rewrite (ParsePath_path_text _ u2 H4).
  rewrite SetDefaultPath_unchanged by (cbn; rewrite F2; exact I5).
  subst QF. rewrite ParseFragment_written, ParseQuery_written.
  eexists. split; [reflexivity|].
  unfold Uri_eqb. cbn. rewrite F1, F2, F3, F5. cbn.
  rewrite !bytes_eqb_refl, path_eqb_refl. cbn.
  destruct (hasPort u) eqn:HP.
  - rewrite (F4 eq_refl), Z.eqb_refl. cbn.
    destruct (hasQuery u), (hasFragment u); cbn;
      rewrite ?bytes_eqb_refl; reflexivity.
  - cbn. destruct (hasQuery u), (hasFragment u); cbn;
      rewrite ?bytes_eqb_refl; reflexivity.
Qed.

Lemma X24_witness :
  exists u',
    ParseFromString
      (GenerateString
         (SetFragment (str "top #1")
            (SetQuery (str "q=a b")
               (SetPath [[]; str "a/b"; str "c d"]
                  (SetPort 8080
                     (SetHost (str "example.com")
                        (SetUserInfo (str "me:pw")
                           (SetScheme (str "http") Uri_new))))))))
      Uri_new = Some u'
    /\ Uri_eqb u'
         (SetFragment (str "top #1")
            (SetQuery (str "q=a b")
               (SetPath [[]; str "a/b"; str "c d"]
                  (SetPort 8080
                     (SetHost (str "example.com")
                        (SetUserInfo (str "me:pw")
                           (SetScheme (str "http") Uri_new)))))))
       = true.
Proof.
  apply X24_written_value_reads_back.
  - right. split; [|reflexivity].
    exists "h", (str "ttp"). split; [reflexivity|].
    split; [reflexivity|]. repeat constructor.
  - intros _. cbn. lia.
  - intros _. right. reflexivity.
  - intros _. discriminate.
  - reflexivity.
  - discriminate.
  - intros H. vm_compute in H. discriminate.
  - intros H. vm_compute in H. discriminate.
Defined.

(** ** Where query and fragment are cut *)

Lemma before_query_cut (pre : bytes) :
  before_query pre ->
  forall a t rest,
    before_query a ->
    (t = [] \/ exists c t', t = c :: t'
                            /\ existsb (char_eqb c) (str "?#") = true) ->
    a ++ t = pre ++ rest ->
    exists a', before_query a' /\ rest = a' ++ t.
Proof.
  induction 1 as [|x pre Hx _ IH]; intros a t rest A T E.
  - exists a. split; [exact A | symmetry; exact E].
  - destruct a as [|y a].
    + cbn [app] in E.
      destruct T as [-> | (c & t' & -> & Hc)]; [discriminate|].
      injection E as -> _. congruence.
    + cbn [app] in E. injection E as -> E. inversion A; subst.
      apply (IH a t rest); assumption.
Qed.

Lemma ParseScheme_rest (s : bytes) (u0 u1 : Uri) (rest : bytes) :
  ParseScheme s u0 = Some (u1, rest) ->
  exists pre, before_query pre /\ s = pre ++ rest.
Proof.
  unfold ParseScheme. destruct (schemeEnd s) as [e|] eqn:E.
  - destruct (FailsMatch (substr_to e s) LegalSchemeCheckStrategy true) eqn:F;
      [discriminate|].
    intros H. injection H as _ <-.
    unfold schemeEnd in E. apply find_firstn_Some in E.
    destruct (find_Some_split _ _ _ E) as [S _].
    exists (firstn e s ++ [":"]). split.
    + apply Forall_app. split; [|repeat constructor].
      apply FailsMatch_scheme_chars in F. destruct F as [F _].
      revert F. apply Forall_impl. intros c Hc.
      assert (P : forall y,
                 implb (Contains SCHEME_NOT_FIRST y)
                   (negb (existsb (char_eqb y) (str "?#"))) = true)
        by by_all_bytes.
      specialize (P c). unfold substr_to in Hc. rewrite Hc in P.
      apply negb_true_iff, P.
    + rewrite <- app_assoc. exact S.
  - intros H. injection H as _ <-. exists []. split; [constructor|].
    reflexivity.
Qed.

(** X25: where a parsed string is cut.  The string is what comes before
    the first ['?'] or ['#'], then possibly a ['?'] and text without
    ['#'], then possibly a ['#'] and the rest.  The query is present
    exactly when the second part is, and is that text decoded (it may
    hold further ['?']); the fragment is present exactly when the third
    part is, and is the decoded rest: a ['?'] after the first ['#']
    belongs to the fragment. *)
Theorem X25_query_and_fragment_cut (a q f : bytes) (u0 u : Uri) :
  before_query a ->
  (q = [] \/ exists q', q = "?" :: q' /\ avoids "#" q') ->
  (f = [] \/ exists f', f = "#" :: f') ->
  ParseFromString (a ++ q ++ f) u0 = Some u ->
  hasQuery u = negb (empty q)
  /\ DecodeQueryOrFragment (tl q) = Some (query u)
  /\ hasFragment u = negb (empty f)
  /\ DecodeQueryOrFragment (tl f) = Some (fragment u).
Proof.
  intros A Q F. unfold ParseFromString.
  destruct (ParseScheme (a ++ q ++ f) u0) as [[u1 rest]|] eqn:E1;
    [|discriminate].
  destruct (ParseScheme_rest _ _ _ _ E1) as (pre & P & S).
  assert (T : q ++ f = []
              \/ exists c t', q ++ f = c :: t'
                              /\ existsb (char_eqb c) (str "?#") = true).
  { destruct Q as [-> | (q' & -> & _)].
    - destruct F as [-> | (f' & ->)]; [left; reflexivity|].
      right. eexists. eexists. split; reflexivity.
    - right. eexists. eexists. split; reflexivity. }
  destruct (before_query_cut pre P a (q ++ f) rest A T S) as (a' & A' & ->).
  cbv zeta. rewrite (cut_at_query a' (q ++ f) A' T), substr_from_app.
  destruct (SplitAuthorityFromPathAndParseIt a' u1) as [[u2 ps]|];
    [|discriminate].
  destruct (ParsePath ps u2) as [u3|]; [|discriminate].
  assert (Aq : avoids "#" q).
  { destruct Q as [-> | (q' & -> & Hq)]; [constructor|].
    constructor; [reflexivity | exact Hq]. }
  unfold ParseFragment, ParseQuery.
  destruct F as [-> | (f' & ->)].
  - rewrite app_nil_r, (find_avoids _ _ Aq).
    unfold DecodeQueryOrFragment at 1. rewrite DecodeElement_nil.
    destruct (DecodeQueryOrFragment
                (if negb (empty q) then substr_from 1 q else []))
      as [decoded|] eqn:D; [|discriminate].
    intros H. injection H as <-. cbn.
    split; [reflexivity|]. split; [|split; reflexivity].
    destruct q; exact D.
  - rewrite (find_app_found _ _ _ Aq), substr_from_app_S, substr_to_app.
    destruct (DecodeQueryOrFragment f') as [frag|] eqn:Df; [|discriminate].
    destruct (DecodeQueryOrFragment
                (if negb (empty q) then substr_from 1 q else []))
      as [decoded|] eqn:D; [|discriminate].
    intros H. injection H as <-. cbn.
    split; [reflexivity|]. split; [|split; [reflexivity | exact Df]].
    destruct q; exact D.
Qed.

Lemma X25_witness :
  exists u,
    ParseFromString
      (str "http://h/p" ++ str "?a=1?b=%32" ++ str "#top?x#") Uri_new
    = None
    /\ ParseFromString
         (str "http://h/p" ++ str "?a=1?b=%32" ++ str "#top?x") Uri_new
       = Some u
    /\ hasQuery u = negb (empty (str "?a=1?b=%32"))
    /\ DecodeQueryOrFragment (tl (str "?a=1?b=%32")) = Some (query u)
    /\ hasFragment u = negb (empty (str "#top?x"))
    /\ DecodeQueryOrFragment (tl (str "#top?x")) = Some (fragment u).
Proof.
  eexists. split; [vm_compute; reflexivity|].
  split; [vm_compute; reflexivity|].
  apply (X25_query_and_fragment_cut
           (str "http://h/p") (str "?a=1?b=%32") (str "#top?x") Uri_new).
  - repeat constructor.
  - right. eexists. split; [reflexivity|]. repeat constructor.
  - right. eexists. reflexivity.
  - vm_compute. reflexivity.
Defined.

(** ** The segments of a parsed path *)







